(** * Timeline2GPX: a shallow embedding of [convert.py]

    The program reads a location-history export (JSON), flattens the
    [timelinePath] samples of its semantic segments into one list of
    points, sorts the list by time and writes it out as one or more GPX
    files, cut by a point-count limit and/or a day-span limit.

    The embedding follows [convert.py] function by function:
    - Python [str] values are lists of Unicode code points;
    - Python [int] values are [Z] (command-line numbers) or [nat]
      (list indices, lengths, the output counter);
    - Python [float] values are binary64 floats;
    - exceptions and the effects of [main] (calls to [os.path.exists],
      [open], [os.makedirs], [logging], file writes and the [nonlocal]
      counter of [dump]) live in a small state-and-exception monad;
    - the functions of the Python standard library whose behaviour the
      program only relies on ([float], [datetime.strptime], [os.path])
      are Section variables. *)

From Stdlib Require Import Strings.String Strings.Ascii.
From Stdlib Require Import ZArith NArith List Bool Lia Arith.
From Stdlib Require Import Sorting.Permutation Sorting.Sorted.
From Stdlib Require Import Floats.PrimFloat Numbers.Cyclic.Int63.Uint63.
Import ListNotations.

Set Implicit Arguments.

(* ------------------------------------------------------------------ *)
(** * Python strings *)
(* ------------------------------------------------------------------ *)

Module Py.

(** A [str] is a sequence of code points. *)
Definition char := N.
Definition str := list char.

(** A literal of the source, written as a Rocq string of one-byte
    characters. *)
Definition lit (s : string) : str :=
  List.map N_of_ascii (list_ascii_of_string s).

Fixpoint str_eqb (a b : str) : bool :=
  match a, b with
  | [], [] => true
  | x :: a', y :: b' => N.eqb x y && str_eqb a' b'
  | _, _ => false
  end.

(** [s.startswith(prefix)] *)
Fixpoint startswith (s prefix : str) {struct prefix} : bool :=
  match prefix, s with
  | [], _ => true
  | p :: prefix', c :: s' => N.eqb c p && startswith s' prefix'
  | _ :: _, [] => false
  end.

(** [s.endswith(suffix)] *)
Definition endswith (s suffix : str) : bool :=
  startswith (rev s) (rev suffix).

(** [s.replace(old, new)]: every occurrence of [old], found from left to
    right without overlap, becomes [new].  [skip] counts the characters of
    a matched occurrence that are still to be dropped. *)
Fixpoint replace_from (old new : str) (skip : nat) (s : str) : str :=
  match s with
  | [] => []
  | c :: s' =>
      match skip with
      | S k => replace_from old new k s'
      | O =>
          if startswith s old
          then new ++ replace_from old new (length old - 1) s'
          else c :: replace_from old new 0 s'
      end
  end.

Definition replace (s old new : str) : str :=
  match old with
  | [] => new ++ flat_map (fun c => c :: new) s
  | _ :: _ => replace_from old new 0 s
  end.

(** [s.split(sep)] for a separator of one character: the list of the
    maximal runs between separators; never empty. *)
Fixpoint split (sep : char) (s : str) : list str :=
  match s with
  | [] => [[]]
  | c :: s' =>
      if N.eqb c sep then [] :: split sep s'
      else match split sep s' with
           | [] => [[c]]
           | p :: ps => (c :: p) :: ps
           end
  end.

(** [str.isspace] on one character (the code points Unicode classes as
    white space). *)
Definition isspace (c : char) : bool :=
  ((9 <=? c) && (c <=? 13) || (28 <=? c) && (c <=? 32)
   || (c =? 133) || (c =? 160) || (c =? 5760)
   || (8192 <=? c) && (c <=? 8202)
   || (c =? 8232) || (c =? 8233) || (c =? 8239) || (c =? 8287)
   || (c =? 12288))%N.

Fixpoint lstrip (s : str) : str :=
  match s with
  | [] => []
  | c :: s' => if isspace c then lstrip s' else s
  end.

Definition rstrip (s : str) : str := rev (lstrip (rev s)).

(** [s.strip()] *)
Definition strip (s : str) : str := rstrip (lstrip s).

(** Decimal digits of a natural number, most significant first. *)
Fixpoint digits_fuel (fuel n : nat) (acc : str) : str :=
  match fuel with
  | O => acc
  | S fuel' =>
      let acc' := (48 + N.of_nat (n mod 10))%N :: acc in
      if n / 10 =? 0 then acc' else digits_fuel fuel' (n / 10) acc'
  end.

(** [str(n)] for [n >= 0]. *)
Definition str_of_nat (n : nat) : str := digits_fuel (S n) n [].

(** [f"{n:05}"]: decimal, padded with zeros on the left to a width of at
    least five. *)
Definition format_05 (n : nat) : str :=
  let d := str_of_nat n in
  repeat 48%N (5 - length d) ++ d.

(** Exceptions the program can raise. *)
Inductive exn :=
| KeyError (key : str)
| ValueError
| IndexError
| OSError.

Inductive result (A : Type) :=
| Ok (a : A)
| Raise (e : exn).
Arguments Ok {A} a.
Arguments Raise {A} e.

End Py.
Import Py.

Declare Scope py_scope.
Delimit Scope py_scope with py.
Notation "$ s" := (lit s%string) (at level 1, format "$ s") : py_scope.
Local Open Scope py_scope.

(* ------------------------------------------------------------------ *)
(** * Coordinates: [split_latlng] *)
(* ------------------------------------------------------------------ *)

Definition comma : char := 44%N.

(** The literal of line 9: the two code points U+00C2 U+00B0, which is what
    a degree sign encoded in UTF-8 reads as in a one-byte code page. *)
Definition degree_marker : str := [194%N; 176%N].

Section Coordinates.

(** [float(s)]: [None] when Python raises [ValueError]. *)
Variable float_of_str : str -> option float.

Definition split_latlng (latlng : str) : result (float * float) :=
  match split comma (replace latlng degree_marker []) with
  | [lat; lng] =>
      match float_of_str (strip lat) with
      | None => Raise ValueError
      | Some x =>
          match float_of_str (strip lng) with
          | None => Raise ValueError
          | Some y => Ok (x, y)
          end
      end
  | _ => Raise ValueError
  end.

End Coordinates.

(* ------------------------------------------------------------------ *)
(** * Dates and times ([datetime]) *)
(* ------------------------------------------------------------------ *)

(** [datetime.date]: a proleptic Gregorian calendar date. *)
Record date := mkdate { d_year : Z; d_month : Z; d_day : Z }.

(** A time-zone aware [datetime.datetime]; [utcoffset] is the offset of its
    zone east of UTC, in microseconds.  The format of the input time stamps
    ends in [%z], so every time stamp the program builds is aware. *)
Record datetime := mkdatetime {
  year : Z; month : Z; day : Z;
  hour : Z; minute : Z; second : Z; microsecond : Z;
  utcoffset : Z
}.

(** [dt.date()]: the calendar date in the time stamp's own zone. *)
Definition date_of (dt : datetime) : date :=
  mkdate (year dt) (month dt) (day dt).

Definition is_leap (y : Z) : bool :=
  ((y mod 4 =? 0) && (negb (y mod 100 =? 0) || (y mod 400 =? 0)))%Z.

Definition days_before_year (y : Z) : Z :=
  (let y' := y - 1 in y' * 365 + y' / 4 - y' / 100 + y' / 400)%Z.

Definition days_before_month (y m : Z) : Z :=
  (nth (Z.to_nat m) [0; 0; 31; 59; 90; 120; 151; 181; 212; 243; 273; 304; 334] 0
   + (if (2 <? m) && is_leap y then 1 else 0))%Z.

(** [d.toordinal()]: the day number, 0001-01-01 being day 1. *)
Definition toordinal (d : date) : Z :=
  (days_before_year (d_year d) + days_before_month (d_year d) (d_month d)
   + d_day d)%Z.

(** [a < b] on dates: the order of the triples (year, month, day). *)
Definition date_ltb (a b : date) : bool :=
  ((d_year a <? d_year b)
   || (d_year a =? d_year b)
      && ((d_month a <? d_month b)
          || (d_month a =? d_month b) && (d_day a <? d_day b)))%Z.

(** [(a - b).days] *)
Definition days_between (a b : date) : Z := (toordinal a - toordinal b)%Z.

(** The instant of an aware time stamp, in microseconds of UTC; aware time
    stamps compare by it. *)
Definition utc_micros (dt : datetime) : Z :=
  ((((toordinal (date_of dt) * 24 + hour dt) * 60 + minute dt) * 60
    + second dt) * 1000000 + microsecond dt - utcoffset dt)%Z.

(* ------------------------------------------------------------------ *)
(** * Data *)
(* ------------------------------------------------------------------ *)

(** The dict appended to [points] at lines 74-78. *)
Record Point := mkPoint {
  time : datetime;
  latitude : float;
  longitude : float
}.

(** The key of line 97: the time stamp, compared as an instant. *)
Definition time_key (p : Point) : Z := utc_micros (time p).

(** The decoded input document.  A field is [None] when the JSON object has
    no such key. *)
Module Json.
Record PathPoint := mkPathPoint {
  point : option str;
  time : option str
}.
Record Segment := mkSegment {
  startTime : option str;
  endTime : option str;
  timelinePath : option (list PathPoint)
}.
Record Timeline := mkTimeline {
  semanticSegments : option (list Segment)
}.
End Json.

(** The namespace returned by [parser.parse_args()]. *)
Module Args.
Record t := mk {
  input : str;
  output : str;
  count : Z;
  days : Z;
  start : option str;
  end_ : option str;
  loglevel : str
}.
End Args.

(** What the run finds outside: [os.path.exists]; what
    [json.load(open(path))] returns or raises; whether
    [os.makedirs(path, exist_ok=True)] returns or raises; and whether
    [tree.write(path, ...)] returns or raises.  What a call that raises
    leaves behind (nothing, or a file cut short) is not recorded: the
    trace holds the directories made and the files written whole. *)
Record World := mkWorld {
  path_exists : str -> bool;
  json_load : str -> result Json.Timeline;
  makedirs : str -> result unit;
  write : str -> result unit
}.

Inductive level := DEBUG | INFO | ERROR.

(** The messages of the program's [logging] calls. *)
Inductive message :=
| OutputExists (output : str)
| InputMissing (input : str)
| FoundSegments (n : nat)
| SegmentIsPath (start_time end_time : datetime) (n : nat)
| Dumped (n : nat) (output_file : str).

(** Everything the run does that can be seen from outside, in order. *)
Inductive event :=
| EExists (path : str)
| ELog (lvl : level) (msg : message)
| EMakedirs (path : str)
| EOpen (path : str)
| EWrite (output_file : str) (points : list Point).

(** The mutable state of a run: the [nonlocal] counter of [dump] and the
    events so far, oldest first. *)
Record State := mkState {
  output_number : nat;
  trace : list event
}.

Definition initial : State := mkState 0 [].

(* ------------------------------------------------------------------ *)
(** * The monad of [main] *)
(* ------------------------------------------------------------------ *)

(** A computation changes the state and returns or raises; the state
    survives an exception (files written before it stay written). *)
Definition M (A : Type) : Type := State -> State * result A.

Definition ret {A} (a : A) : M A := fun st => (st, Ok a).

Definition bind {A B} (m : M A) (k : A -> M B) : M B :=
  fun st =>
    match m st with
    | (st', Ok a) => k a st'
    | (st', Raise e) => (st', Raise e)
    end.

Notation "x <- m ;; k" := (bind m (fun x => k))
  (at level 61, m at next level, right associativity) : py_scope.
Notation "m ;; k" := (bind m (fun _ => k))
  (at level 61, right associativity) : py_scope.

Definition lift {A} (r : result A) : M A := fun st => (st, r).

Definition emit (e : event) : M unit :=
  fun st => (mkState (output_number st) (trace st ++ [e]), Ok tt).

Definition get_output_number : M nat := fun st => (st, Ok (output_number st)).

Definition set_output_number (n : nat) : M unit :=
  fun st => (mkState n (trace st), Ok tt).

(** [d[key]] on a decoded field. *)
Definition getitem {A} (key : str) (field : option A) : result A :=
  match field with
  | Some v => Ok v
  | None => Raise (KeyError key)
  end.

(** [l[i]] *)
Definition index {A} (l : list A) (i : nat) : result A :=
  match nth_error l i with
  | Some v => Ok v
  | None => Raise IndexError
  end.

(** [l[a:b]] for [a, b >= 0]. *)
Definition slice {A} (l : list A) (a b : nat) : list A :=
  skipn a (firstn b l).

(** A parser of the library that returns [None] where Python raises
    [ValueError]. *)
Definition parse {A} (p : str -> option A) (s : str) : result A :=
  match p s with
  | Some v => Ok v
  | None => Raise ValueError
  end.

(** [sorted(l, key=key)]: the stable sort; an element goes in front of the
    first element of the sorted rest that is not smaller. *)
Fixpoint insert_by {A} (key : A -> Z) (x : A) (l : list A) : list A :=
  match l with
  | [] => [x]
  | y :: l' =>
      if (key y <? key x)%Z then y :: insert_by key x l' else x :: y :: l'
  end.

Definition sorted {A} (key : A -> Z) (l : list A) : list A :=
  fold_right (insert_by key) [] l.

(* ------------------------------------------------------------------ *)
(** * The writer: [dump_gpx] and the closure [dump] *)
(* ------------------------------------------------------------------ *)

Section Writer.

Variable world : World.

(** Lines 12-26.  The element tree has one [trkpt] per point, in order.
    [tree.write] (line 25) returns or raises: when it returns, the file
    written is recorded with the points it holds and line 26 logs it; when
    it raises, the exception leaves [dump_gpx] and nothing is logged. *)
Definition dump_gpx (points : list Point) (output_file : str) : M unit :=
  lift (write world output_file) ;;
  emit (EWrite output_file points) ;;
  emit (ELog INFO (Dumped (length points) output_file)).

(** Lines 55-58: the name of output number [n]. *)
Definition output_name (output : str) (n : nat) : str :=
  if endswith output $".gpx"
  then replace output $".gpx" ($"_" ++ format_05 n ++ $".gpx")
  else output ++ $"_" ++ format_05 n ++ $".gpx".

(** Lines 52-60.  [points] is the variable of [main] that the closure reads
    at line 54: at every call it is bound to the whole sorted list.  The
    counter moves at line 60, after [dump_gpx] has returned. *)
Definition dump (args : Args.t) (points points_to_dump : list Point)
  : M unit :=
  if 0 <? length points then
    n <- get_output_number ;;
    dump_gpx points_to_dump (output_name (Args.output args) n) ;;
    set_output_number (n + 1)
  else ret tt.

End Writer.

(* ------------------------------------------------------------------ *)
(** * The flattener: lines 67-78 *)
(* ------------------------------------------------------------------ *)

Section Flattener.

Variable float_of_str : str -> option float.

(** [datetime.strptime(s, "%Y-%m-%dT%H:%M:%S.%f%z")] *)
Variable strptime : str -> option datetime.

(** Lines 73-78: one path point. *)
Definition read_point (p : Json.PathPoint) : result Point :=
  match getitem $"point" (Json.point p) with
  | Raise e => Raise e
  | Ok raw =>
      match split_latlng float_of_str raw with
      | Raise e => Raise e
      | Ok (lat, lng) =>
          match getitem $"time" (Json.time p) with
          | Raise e => Raise e
          | Ok ts =>
              match parse strptime ts with
              | Raise e => Raise e
              | Ok t => Ok (mkPoint t lat lng)
              end
          end
      end
  end.

(** Lines 72-78: the inner loop, appending to [points]. *)
Fixpoint read_path (path : list Json.PathPoint) (points : list Point)
  : result (list Point) :=
  match path with
  | [] => Ok points
  | p :: path' =>
      match read_point p with
      | Raise e => Raise e
      | Ok pt => read_path path' (points ++ [pt])
      end
  end.

(** Lines 68-78: one segment. *)
Definition read_segment (segment : Json.Segment) (points : list Point)
  : M (list Point) :=
  s <- lift (getitem $"startTime" (Json.startTime segment)) ;;
  start_time <- lift (parse strptime s) ;;
  e <- lift (getitem $"endTime" (Json.endTime segment)) ;;
  end_time <- lift (parse strptime e) ;;
  match Json.timelinePath segment with
  | Some path =>
      emit (ELog DEBUG (SegmentIsPath start_time end_time (length path))) ;;
      lift (read_path path points)
  | None => ret points
  end.

(** Lines 67-78: the loop over the segments. *)
Fixpoint flatten (semantic_segments : list Json.Segment)
  (points : list Point) : M (list Point) :=
  match semantic_segments with
  | [] => ret points
  | segment :: rest =>
      points' <- read_segment segment points ;;
      flatten rest points'
  end.

End Flattener.

(* ------------------------------------------------------------------ *)
(** * The sequencer: lines 97-115 *)
(* ------------------------------------------------------------------ *)

(** How one turn of the loop at line 99 ends: the next turn starts with
    the given [start], or the loop is left by [break]. *)
Inductive turn :=
| Next (start : nat)
| Break.

Section Sequencer.

Variable world : World.

(** [datetime.strptime(s, "%Y-%m-%d").date()] *)
Variable strptime_date : str -> option date.

Variable args : Args.t.

(** The sorted list, as [main] holds it from line 97 on. *)
Variable points : list Point.

(** Line 101: the test of the start date. *)
Definition before_start (i : nat) : M bool :=
  match Args.start args with
  | None => ret false
  | Some s =>
      p_i <- lift (index points i) ;;
      d <- lift (parse strptime_date s) ;;
      ret (date_ltb (date_of (time p_i)) d)
  end.

(** Line 105: the test of the end date. *)
Definition after_end (i : nat) : M bool :=
  match Args.end_ args with
  | None => ret false
  | Some s =>
      p_i <- lift (index points i) ;;
      d <- lift (parse strptime_date s) ;;
      ret (date_ltb d (date_of (time p_i)))
  end.

(** Lines 108-110. *)
Definition check_count (i start : nat) : M nat :=
  if ((0 <? Args.count args)
      && (Args.count args <=? Z.of_nat i - Z.of_nat start))%Z
  then dump world args points (slice points start i) ;; ret i
  else ret start.

(** Lines 112-114. *)
Definition check_days (i start : nat) : M nat :=
  if (0 <? Args.days args)%Z then
    p_i <- lift (index points i) ;;
    p_start <- lift (index points start) ;;
    if (Args.days args
        <=? days_between (date_of (time p_i)) (date_of (time p_start)))%Z
    then dump world args points (slice points start i) ;; ret i
    else ret start
  else ret start.

(** Lines 100-114: the body of the loop for one [i]. *)
Definition body (i start : nat) : M turn :=
  early <- before_start i ;;
  if early then ret (Next i)
  else
    late <- after_end i ;;
    if late then ret Break
    else
      start1 <- check_count i start ;;
      start2 <- check_days i start1 ;;
      ret (Next start2).

(** Line 99: the loop over the indices still to visit. *)
Fixpoint scan (indices : list nat) (start : nat) : M nat :=
  match indices with
  | [] => ret start
  | i :: rest =>
      t <- body i start ;;
      match t with
      | Next start' => scan rest start'
      | Break => ret start
      end
  end.

(** Lines 98-115, on the sorted list. *)
Definition chunk_all : M unit :=
  start <- scan (seq 1 (length points - 1)) 0 ;;
  dump world args points (skipn start points).

End Sequencer.

(** Lines 97-115. *)
Definition sequencer (world : World) (strptime_date : str -> option date)
  (args : Args.t) (points : list Point) : M unit :=
  chunk_all world strptime_date args (sorted time_key points).

(* ------------------------------------------------------------------ *)
(** * [main], from line 40 on *)
(* ------------------------------------------------------------------ *)

Section Main.

Variable float_of_str : str -> option float.
Variable strptime : str -> option datetime.
Variable strptime_date : str -> option date.

(** [os.path.basename] and [os.path.dirname] *)
Variables basename dirname : str -> str.

Variable world : World.

Definition os_path_exists (path : str) : M bool :=
  emit (EExists path) ;; ret (path_exists world path).

(** Line 47: the directory is there when the call has returned; when it
    raises, the exception leaves [main]. *)
Definition os_makedirs (path : str) : M unit :=
  lift (makedirs world path) ;; emit (EMakedirs path).

(** Lines 63-64. *)
Definition open_and_load (path : str) : M Json.Timeline :=
  emit (EOpen path) ;; lift (json_load world path).

(** Lines 40-115; [args] is the parsed command line, and logging is set
    up. *)
Definition main (args : Args.t) : M unit :=
  taken <- os_path_exists (Args.output args) ;;
  if taken then emit (ELog ERROR (OutputExists (Args.output args)))
  else
    found <- os_path_exists (Args.input args) ;;
    if negb found then emit (ELog ERROR (InputMissing (Args.input args)))
    else
      (if negb (str_eqb (basename (Args.output args)) (Args.output args))
       then os_makedirs (dirname (Args.output args))
       else ret tt) ;;
      timeline <- open_and_load (Args.input args) ;;
      semantic_segments <-
        lift (getitem $"semanticSegments" (Json.semanticSegments timeline)) ;;
      emit (ELog INFO (FoundSegments (length semantic_segments))) ;;
      points <- flatten float_of_str strptime semantic_segments [] ;;
      sequencer world strptime_date args points.

End Main.

(* ------------------------------------------------------------------ *)
(** * Reading a run *)
(* ------------------------------------------------------------------ *)

(** The files written, in the order of writing. *)
Definition files (tr : list event) : list (str * list Point) :=
  flat_map (fun e => match e with
                     | EWrite name pts => [(name, pts)]
                     | _ => []
                     end) tr.

(** The chunks written, in the order of writing. *)
Definition chunks (tr : list event) : list (list Point) :=
  List.map snd (files tr).

(** The paths opened for reading. *)
Definition opened (tr : list event) : list str :=
  flat_map (fun e => match e with EOpen p => [p] | _ => [] end) tr.

(** The paths tested with [os.path.exists]. *)
Definition tested (tr : list event) : list str :=
  flat_map (fun e => match e with EExists p => [p] | _ => [] end) tr.

(** The messages logged at level [ERROR]. *)
Definition errors (tr : list event) : list message :=
  flat_map (fun e => match e with ELog ERROR m => [m] | _ => [] end) tr.

(* ------------------------------------------------------------------ *)
(** * The loop as a transition system *)
(* ------------------------------------------------------------------ *)

(** The state after [dump] has written [chunk], when the point list is not
    empty and the write succeeds. *)
Definition written (args : Args.t) (chunk : list Point) (st : State)
  : State :=
  let name := output_name (Args.output args) (output_number st) in
  mkState (output_number st + 1)
          (trace st ++ [EWrite name chunk;
                        ELog INFO (Dumped (length chunk) name)]).

(** The state after [dump] has written the chunks [cs] one after the
    other. *)
Definition emitted (args : Args.t) (cs : list (list Point)) (st : State)
  : State :=
  fold_left (fun st c => written args c st) cs st.

Section Reach.

Variable world : World.
Variable strptime_date : str -> option date.
Variable args : Args.t.
Variable points : list Point.

(** Line 101 holds for [points[i]]. *)
Definition skipped (i : nat) : Prop :=
  exists s d p,
    Args.start args = Some s /\ strptime_date s = Some d /\
    nth_error points i = Some p /\ date_ltb (date_of (time p)) d = true.

(** Line 108 holds. *)
Definition count_hit (i start : nat) : Prop :=
  (0 < Args.count args <= Z.of_nat i - Z.of_nat start)%Z.

(** Line 112 holds. *)
Definition days_hit (i start : nat) : Prop :=
  exists p q,
    nth_error points i = Some p /\ nth_error points start = Some q /\
    (0 < Args.days args
     <= days_between (date_of (time p)) (date_of (time q)))%Z.

(** [reach i start cs]: the loop can be about to run its body for [i] with
    the anchor at [start], having flushed and written the chunks [cs].  A
    transition
    keeps what the properties below need: on what condition the anchor
    moves and a chunk is flushed.  That a point kept or flushed is inside
    the date range is left out, so the relation holds of every state the
    loop goes through, and of some more. *)
Inductive reach : nat -> nat -> list (list Point) -> Prop :=
| reach_init :
    reach 1 0 []
| reach_skip i start cs :
    reach i start cs -> i < length points -> skipped i ->
    reach (S i) i cs
| reach_keep i start cs :
    reach i start cs -> i < length points ->
    ~ count_hit i start -> ~ days_hit i start ->
    reach (S i) start cs
| reach_flush i start cs :
    reach i start cs -> i < length points ->
    count_hit i start \/ days_hit i start ->
    reach (S i) i (cs ++ [slice points start i]).

(** How lines 98-115 are left, with the anchor at [start]: all indices
    done, or the [break] of line 106, with the last flush made; or an
    exception of line 101 or 105; or the exception of a write that
    failed, at line 109, 113 or 115. *)
Inductive leaves (i start : nat) : result nat -> Prop :=
| leaves_done :
    length points <= i -> leaves i start (Ok start)
| leaves_break :
    i < length points -> Args.end_ args <> None -> leaves i start (Ok start)
| leaves_raise e :
    i < length points ->
    Args.start args <> None \/ Args.end_ args <> None ->
    leaves i start (Raise e)
| leaves_failed e n :
    write world (output_name (Args.output args) n) = Raise e ->
    leaves i start (Raise e).

End Reach.

(** The chunks written by a run that left lines 98-115 with anchor
    [start] after flushing [cs]: with the rest of the list when it ended
    normally, without it when an exception ended it. *)
Definition outcome_chunks (points : list Point) (start : nat)
  (cs : list (list Point)) (r : result nat) : list (list Point) :=
  match r, points with
  | Ok _, _ :: _ => cs ++ [skipn start points]
  | _, _ => cs
  end.

Definition outcome_result (r : result nat) : result unit :=
  match r with
  | Ok _ => Ok tt
  | Raise e => Raise e
  end.

(* ------------------------------------------------------------------ *)
(** * Vocabulary of the properties *)
(* ------------------------------------------------------------------ *)

Section Order.

Variable A : Type.
Variable key : A -> Z.

(** Ascending by key: every element is at most every later one. *)
Definition ascending (l : list A) : Prop :=
  StronglySorted (fun a b => (key a <= key b)%Z) l.

(** The elements of [l] with key [k], in their order in [l]. *)
Definition with_key (k : Z) (l : list A) : list A :=
  filter (fun x => (key x =? k)%Z) l.

(** [l'] is the stable sort of [l]: ascending, and for every key the
    elements with that key are those of [l], in the order of [l]. *)
Definition stable_sort_of (l l' : list A) : Prop :=
  ascending l' /\ forall k, with_key k l' = with_key k l.

End Order.

(** [sep.join(parts)] for a separator of one character. *)
Fixpoint join (sep : char) (parts : list str) : str :=
  match parts with
  | [] => []
  | [p] => p
  | p :: ps => p ++ sep :: join sep ps
  end.

(** [sub] occurs in [s]. *)
Definition occurs (sub s : str) : Prop :=
  exists u v, s = u ++ sub ++ v.

(** [s] is two comma-free parts around one comma, and [float] accepts both
    once trimmed, with values [x] and [y]. *)
Definition two_numeric_parts (float_of_str : str -> option float)
  (s : str) (x y : float) : Prop :=
  exists a b,
    s = a ++ comma :: b /\ ~ In comma a /\ ~ In comma b /\
    float_of_str (strip a) = Some x /\ float_of_str (strip b) = Some y.

(** The name the file of number [n] should get: the number goes in front
    of the extension at the end of [output], or is appended, and the rest
    of [output] stays. *)
Definition numbered_name (output : str) (n : nat) : str :=
  if endswith output $".gpx"
  then firstn (length output - 4) output ++ $"_" ++ format_05 n ++ $".gpx"
  else output ++ $"_" ++ format_05 n ++ $".gpx".

Section Documents.

Variable float_of_str : str -> option float.
Variable strptime : str -> option datetime.

(** A time-stamp field that is present and matches the format. *)
Definition well_formed (field : option str) : Prop :=
  exists s t, field = Some s /\ strptime s = Some t.

(** A time-stamp field that is absent or does not match the format. *)
Definition malformed (field : option str) : Prop :=
  forall s, field = Some s -> strptime s = None.

(** A path point with coordinates and a time stamp that parse. *)
Definition valid_point (p : Json.PathPoint) : Prop :=
  (exists raw xy,
     Json.point p = Some raw /\ split_latlng float_of_str raw = Ok xy) /\
  well_formed (Json.time p).

(** A segment of a valid document. *)
Definition valid_segment (seg : Json.Segment) : Prop :=
  well_formed (Json.startTime seg) /\ well_formed (Json.endTime seg) /\
  forall path, Json.timelinePath seg = Some path -> Forall valid_point path.

(** A segment without a usable [startTime] or [endTime]. *)
Definition bad_segment (seg : Json.Segment) : Prop :=
  malformed (Json.startTime seg) \/ malformed (Json.endTime seg).

End Documents.

(** The number of entries of a segment's [timelinePath], zero when it has
    none. *)
Definition path_points (seg : Json.Segment) : nat :=
  match Json.timelinePath seg with
  | Some path => length path
  | None => 0
  end.

Definition total_path_points (segs : list Json.Segment) : nat :=
  list_sum (List.map path_points segs).

(** The number of points in the files written. *)
Definition points_written (st : State) : nat :=
  list_sum (List.map (@length Point) (chunks (trace st))).

(** The events of lines 40-66 when both checks pass and the document
    loads with [n] segments. *)
Definition prelude (basename dirname : str -> str) (args : Args.t) (n : nat)
  : list event :=
  [EExists (Args.output args); EExists (Args.input args)]
  ++ (if negb (str_eqb (basename (Args.output args)) (Args.output args))
      then [EMakedirs (dirname (Args.output args))] else [])
  ++ [EOpen (Args.input args); ELog INFO (FoundSegments n)].

(** The calendar days from the first point of a chunk to its last. *)
Definition span_days (c : list Point) : Z :=
  match c with
  | [] => 0%Z
  | p :: _ => days_between (date_of (time (last c p))) (date_of (time p))
  end.

(** The state a run of lines 97-115 ends in, started in the initial state
    on the flattened list [pts]. *)
Definition sequenced (world : World) (strptime_date : str -> option date)
  (args : Args.t) (pts : list Point) : State :=
  fst (sequencer world strptime_date args pts initial).

(* ------------------------------------------------------------------ *)
(** * An instance of the library, for running the model *)
(* ------------------------------------------------------------------ *)

(** Parsers that accept the plain forms of the inputs (ASCII digits, fixed
    separators) the way Python does, and reject everything else; a small
    file system; and a few points.  The properties below hold for every
    instance; this one serves to run the model on concrete inputs. *)
Module Sample.

Definition digit (c : char) : option Z :=
  if ((48 <=? c) && (c <=? 57))%N then Some (Z.of_N c - 48)%Z else None.

Fixpoint number_from (acc : Z) (s : str) : option Z :=
  match s with
  | [] => Some acc
  | c :: s' =>
      match digit c with
      | Some d => number_from (10 * acc + d)%Z s'
      | None => None
      end
  end.

(** A non-empty run of digits. *)
Definition number (s : str) : option Z :=
  match s with
  | [] => None
  | _ :: _ => number_from 0 s
  end.

Definition days_in_month (y m : Z) : Z :=
  (nth (Z.to_nat m) [0; 31; 28; 31; 30; 31; 30; 31; 31; 30; 31; 30; 31] 0
   + (if (m =? 2) && is_leap y then 1 else 0))%Z.

(** [YYYY-MM-DD] *)
Definition strptime_date (s : str) : option date :=
  match split 45%N s with
  | [y; m; d] =>
      match number y, number m, number d with
      | Some y', Some m', Some d' =>
          if (length y =? 4) && (length m <=? 2) && (length d <=? 2)
             && (1 <=? y')%Z && (1 <=? m')%Z && (m' <=? 12)%Z
             && (1 <=? d')%Z && (d' <=? days_in_month y' m')%Z
          then Some (mkdate y' m' d')
          else None
      | _, _, _ => None
      end
  | _ => None
  end.

(** [Z], [+HH:MM] or [-HH:MM], as microseconds east of UTC. *)
Definition zone (s : str) : option Z :=
  match s with
  | [90%N] => Some 0%Z
  | sign :: h1 :: h2 :: 58%N :: m1 :: m2 :: [] =>
      match number [h1; h2], number [m1; m2] with
      | Some h, Some m =>
          let off := ((h * 3600 + m * 60) * 1000000)%Z in
          if (m <=? 59)%Z then
            if (sign =? 43)%N then Some off
            else if (sign =? 45)%N then Some (- off)%Z
            else None
          else None
      | _, _ => None
      end
  | _ => None
  end.

Fixpoint span_digits (s : str) : str * str :=
  match s with
  | [] => ([], [])
  | c :: s' =>
      match digit c with
      | Some _ => let (ds, rest) := span_digits s' in (c :: ds, rest)
      | None => ([], s)
      end
  end.

(** [YYYY-MM-DDTHH:MM:SS.f+HH:MM], with one to six digits of fraction. *)
Definition strptime (s : str) : option datetime :=
  match split 84%N s with
  | [d; h1 :: h2 :: 58%N :: m1 :: m2 :: 58%N :: s1 :: s2 :: 46%N :: rest] =>
      let (frac, tz) := span_digits rest in
      match strptime_date d, number [h1; h2], number [m1; m2],
            number [s1; s2], number frac, zone tz with
      | Some d', Some h, Some m, Some sec, Some f, Some off =>
          if (h <=? 23)%Z && (m <=? 59)%Z && (sec <=? 59)%Z
             && (length frac <=? 6)
          then Some (mkdatetime (d_year d') (d_month d') (d_day d') h m sec
                       (f * 10 ^ (6 - Z.of_nat (length frac)))%Z off)
          else None
      | _, _, _, _, _, _ => None
      end
  | _ => None
  end.

Definition float_of_Z (n : Z) : float :=
  PrimFloat.of_uint63 (Uint63.of_Z n).

(** A decimal numeral with at most fifteen digits, with or without a sign
    and a fraction; white space around it is ignored. *)
Definition float_of_str (s : str) : option float :=
  let s := strip s in
  let (neg, body) :=
    match s with
    | 45%N :: s' => (true, s')
    | 43%N :: s' => (false, s')
    | _ => (false, s)
    end in
  let parts :=
    match split 46%N body with
    | [ip] => Some (ip, [])
    | [ip; fp] => Some (ip, fp)
    | _ => None
    end in
  match parts with
  | Some (ip, fp) =>
      match number (ip ++ fp) with
      | Some n =>
          if length (ip ++ fp) <=? 15 then
            let x := PrimFloat.div (float_of_Z n)
                       (float_of_Z (10 ^ Z.of_nat (length fp))) in
            Some (if neg then PrimFloat.opp x else x)
          else None
      | None => None
      end
  | None => None
  end.

(** [os.path.basename] and [os.path.dirname] of [posixpath]: what follows
    the last slash, and what precedes it without its trailing slashes
    (unless it is made of slashes only). *)
Fixpoint last_part (s acc : str) : str :=
  match s with
  | [] => acc
  | c :: s' =>
      if (c =? 47)%N then last_part s' [] else last_part s' (acc ++ [c])
  end.

Definition basename (s : str) : str := last_part s [].

Fixpoint drop_slashes (s : str) : str :=
  match s with
  | [] => []
  | c :: s' => if (c =? 47)%N then drop_slashes s' else s
  end.

Definition dirname (s : str) : str :=
  let head := firstn (length s - length (basename s)) s in
  match drop_slashes head with
  | [] => head
  | _ :: _ => rev (drop_slashes (rev head))
  end.

(** Noon UTC on a day of January 2024, at the origin. *)
Definition jan (d : Z) : Point :=
  mkPoint (mkdatetime 2024 1 d 12 0 0 0 0) 0%float 0%float.

Definition no_limits : Args.t :=
  Args.mk $"in.json" $"out.gpx" (-1) (-1) None None $"INFO".

(** [--count 2] *)
Definition two_per_file : Args.t :=
  Args.mk $"in.json" $"out.gpx" 2 (-1) None None $"INFO".

(** [--start 2024-01-03] *)
Definition from_jan3 : Args.t :=
  Args.mk $"in.json" $"out.gpx" (-1) (-1) (Some $"2024-01-03") None $"INFO".

(** [--days 1 --end 2024-01-01] *)
Definition one_day_until_jan1 : Args.t :=
  Args.mk $"in.json" $"out.gpx" (-1) 1 None (Some $"2024-01-01") $"INFO".

(** [--days 3] *)
Definition three_days : Args.t :=
  Args.mk $"in.json" $"out.gpx" (-1) 3 None None $"INFO".

(** Five points in disorder, two of them at the same instant. *)
Definition shuffled : list Point :=
  [jan 3; mkPoint (time (jan 1)) 1%float 1%float; jan 5; jan 1; jan 4].

Definition path_point (latlng ts : string) : Json.PathPoint :=
  Json.mkPathPoint (Some $latlng) (Some $ts).

(** A path of two points, a visit, and a path of one point whose
    coordinates carry the degree marker. *)
Definition segments : list Json.Segment :=
  [ Json.mkSegment (Some $"2024-01-02T08:00:00.000+01:00")
                   (Some $"2024-01-02T09:00:00.000+01:00")
                   (Some [path_point "48.137, 11.575"
                                     "2024-01-02T08:10:00.000+01:00";
                          path_point "48.139, 11.580"
                                     "2024-01-02T08:20:00.000+01:00"]);
    Json.mkSegment (Some $"2024-01-02T09:00:00.000+01:00")
                   (Some $"2024-01-02T12:00:00.000+01:00")
                   None;
    Json.mkSegment (Some $"2024-01-01T17:00:00.000Z")
                   (Some $"2024-01-01T18:00:00.000Z")
                   (Some [Json.mkPathPoint
                            (Some ($"48.25" ++ degree_marker ++ $", 11.5"
                                   ++ degree_marker))
                            (Some $"2024-01-01T17:30:00.000Z")]) ].

Definition document : Json.Timeline := Json.mkTimeline (Some segments).

(** A path of one point, then a visit without [startTime]. *)
Definition broken_segments : list Json.Segment :=
  [ Json.mkSegment (Some $"2024-01-02T08:00:00.000+01:00")
                   (Some $"2024-01-02T09:00:00.000+01:00")
                   (Some [path_point "48.137, 11.575"
                                     "2024-01-02T08:10:00.000+01:00"]);
    Json.mkSegment None (Some $"2024-01-02T12:00:00.000+01:00") None ].

Definition broken_document : Json.Timeline :=
  Json.mkTimeline (Some broken_segments).

(** Only the input file exists, and it holds [doc]; every directory can
    be made and every file written. *)
Definition world_with (doc : Json.Timeline) : World :=
  mkWorld (fun path => str_eqb path $"in.json")
          (fun path => if str_eqb path $"in.json" then Ok doc
                       else Raise OSError)
          (fun _ => Ok tt)
          (fun _ => Ok tt).

(** The input and the output both exist. *)
Definition world_with_output : World :=
  mkWorld (fun path => str_eqb path $"in.json" || str_eqb path $"out.gpx")
          (fun path => if str_eqb path $"in.json" then Ok document
                       else Raise OSError)
          (fun _ => Ok tt)
          (fun _ => Ok tt).

(** The world of the sample document. *)
Definition writable : World := world_with document.

(** [-o walks.gpx/day.gpx -c 1] *)
Definition into_walks : Args.t :=
  Args.mk $"in.json" $"walks.gpx/day.gpx" 1 (-1) None None $"INFO".

(** Only the input file exists.  A directory can be made; a file can be
    written in the directory [walks.gpx], the one line 47 makes for
    [-o walks.gpx/day.gpx], and nowhere else: [tree.write] raises
    [FileNotFoundError], an [OSError], for a file in a directory that is
    not there. *)
Definition world_of_walks : World :=
  mkWorld (fun path => str_eqb path $"in.json")
          (fun path => if str_eqb path $"in.json" then Ok document
                       else Raise OSError)
          (fun _ => Ok tt)
          (fun path => if startswith path $"walks.gpx/" then Ok tt
                       else Raise OSError).

End Sample.

(* ------------------------------------------------------------------ *)
(** * The loop, turn by turn *)
(* ------------------------------------------------------------------ *)

Section Walk.

Variable world : World.
Variable strptime_date : str -> option date.
Variable args : Args.t.
Variable points : list Point.

(** What the test of line 101 gives for [points[i]]. *)
Definition early (i : nat) : result bool :=
  snd (before_start strptime_date args points i initial).

(** What the test of line 105 gives for [points[i]]. *)
Definition late (i : nat) : result bool :=
  snd (after_end strptime_date args points i initial).

(** [walk i start cs]: the loop is about to run its body for [i] with the
    anchor at [start], having flushed and written the chunks [cs]; every
    turn taken is the one lines 100-114 take when no write fails.  A write
    that fails ends the walk: see [stops]. *)
Inductive walk : nat -> nat -> list (list Point) -> Prop :=
| walk_init :
    walk 1 0 []
| walk_skip i start cs :
    walk i start cs -> i < length points ->
    early i = Ok true ->
    walk (S i) i cs
| walk_keep i start cs :
    walk i start cs -> i < length points ->
    early i = Ok false -> late i = Ok false ->
    ~ count_hit args i start -> ~ days_hit args points i start ->
    walk (S i) start cs
| walk_flush i start cs :
    walk i start cs -> i < length points ->
    early i = Ok false -> late i = Ok false ->
    count_hit args i start \/ days_hit args points i start ->
    walk (S i) i (cs ++ [slice points start i]).

(** How lines 98-115 are left with [n] files written before the last
    flush: all indices done, or the [break] of line 106; the exception of
    line 101 or of line 105; or the exception of [tree.write] for the file
    of number [n], at line 109, 113 or 115. *)
Inductive stops (n i start : nat) : result nat -> Prop :=
| stops_done :
    length points <= i -> stops n i start (Ok start)
| stops_break :
    i < length points -> early i = Ok false -> late i = Ok true ->
    stops n i start (Ok start)
| stops_raise e :
    i < length points ->
    early i = Raise e \/ (early i = Ok false /\ late i = Raise e) ->
    stops n i start (Raise e)
| stops_failed e :
    points <> [] ->
    write world (output_name (Args.output args) n) = Raise e ->
    stops n i start (Raise e).

End Walk.

(** [p] is not before the start date, when there is one that parses. *)
Definition not_before (strptime_date : str -> option date) (args : Args.t)
  (p : Point) : Prop :=
  forall s d,
    Args.start args = Some s -> strptime_date s = Some d ->
    date_ltb (date_of (time p)) d = false.

(** The value of a run of decimal digits, read on top of [a]. *)
Definition decimal_from (a : nat) (s : str) : nat :=
  fold_left (fun a c => 10 * a + (N.to_nat c - 48)) s a.

(** The value of a decimal numeral. *)
Definition decimal (s : str) : nat := decimal_from 0 s.

Definition is_digit (c : char) : bool := ((48 <=? c) && (c <=? 57))%N.

(** A coordinate as it is written: no comma and no character [Â]
    (U+00C2) in it. *)
Definition plain (s : str) : Prop := ~ In comma s /\ ~ In 194%N s.

(** White space only. *)
Definition blank (s : str) : Prop := Forall (fun c => isspace c = true) s.

(* ------------------------------------------------------------------ *)
(** * The element tree of [dump_gpx] *)
(* ------------------------------------------------------------------ *)

(** [xml.etree.ElementTree]: elements are objects that hold references to
    their children, and [SubElement] changes the parent it is given.  The
    heap holds the elements made so far; a reference is an index into
    it. *)
Module ET.

Record element := mk {
  tag : str;
  attrib : list (str * str);
  text : option str;
  children : list nat
}.

Definition heap := list element.

(** [ET.Element(tag, **attrib)] *)
Definition Element (tag : str) (attrib : list (str * str)) (h : heap)
  : heap * nat :=
  (h ++ [mk tag attrib None []], length h).

(** The element at [i] becomes [f] of itself; nothing changes when there
    is none. *)
Fixpoint update (h : heap) (i : nat) (f : element -> element) : heap :=
  match h, i with
  | [], _ => []
  | e :: h', O => f e :: h'
  | e :: h', S i' => e :: update h' i' f
  end.

(** [parent.append(child)] *)
Definition append (parent child : nat) (h : heap) : heap :=
  update h parent
    (fun e => mk (tag e) (attrib e) (text e) (children e ++ [child])).

(** [ET.SubElement(parent, tag, **attrib)] *)
Definition SubElement (parent : nat) (tag : str) (attrib : list (str * str))
  (h : heap) : heap * nat :=
  let (h1, child) := Element tag attrib h in (append parent child h1, child).

(** [element.text = s] *)
Definition set_text (e : nat) (s : str) (h : heap) : heap :=
  update h e (fun x => mk (tag x) (attrib x) (Some s) (children x)).

(** The document below an element, as [tree.write] walks it. *)
Inductive xml :=
| Node (tag : str) (attrib : list (str * str)) (text : option str)
       (children : list xml).

Fixpoint all {A} (l : list (option A)) : option (list A) :=
  match l with
  | [] => Some []
  | None :: _ => None
  | Some x :: l' =>
      match all l' with
      | Some xs => Some (x :: xs)
      | None => None
      end
  end.

(** The tree below the element [e], when it is at most [fuel] deep. *)
Fixpoint tree (fuel : nat) (h : heap) (e : nat) : option xml :=
  match fuel with
  | O => None
  | S fuel' =>
      match nth_error h e with
      | None => None
      | Some x =>
          match all (List.map (tree fuel' h) (children x)) with
          | Some cs => Some (Node (tag x) (attrib x) (text x) cs)
          | None => None
          end
      end
  end.

End ET.

Section Gpx.

(** [str(x)] on a float, and [dt.isoformat()] *)
Variable str_of_float : float -> str.
Variable isoformat : datetime -> str.

(** Lines 20-22: the body of the loop over the points. *)
Definition add_trkpt (trkseg : nat) (h : ET.heap) (point : Point)
  : ET.heap :=
  let (h1, trkpt) :=
    ET.SubElement trkseg $"trkpt"
      [($"lat", str_of_float (latitude point));
       ($"lon", str_of_float (longitude point))] h in
  let (h2, time_el) := ET.SubElement trkpt $"time" [] h1 in
  ET.set_text time_el (isoformat (time point)) h2.

(** Lines 13-22: the elements [dump_gpx] makes, and the root it hands to
    [ET.ElementTree]. *)
Definition dump_gpx_tree (points : list Point) : ET.heap * nat :=
  let (h0, gpx) :=
    ET.Element $"gpx" [($"version", $"1.1"); ($"creator", $"Timeline2GPX")]
      [] in
  let (h1, trk) := ET.SubElement gpx $"trk" [] h0 in
  let (h2, name) := ET.SubElement trk $"name" [] h1 in
  let h3 := ET.set_text name $"Timeline" h2 in
  let (h4, trkseg) := ET.SubElement trk $"trkseg" [] h3 in
  (fold_left (add_trkpt trkseg) points h4, gpx).

(** The track point of the document for one point. *)
Definition trkpt_xml (point : Point) : ET.xml :=
  ET.Node $"trkpt"
    [($"lat", str_of_float (latitude point));
     ($"lon", str_of_float (longitude point))] None
    [ET.Node $"time" [] (Some (isoformat (time point))) []].

(** The document for a list of points: one track named [Timeline] with
    one segment, and in it one track point per point. *)
Definition gpx_xml (points : list Point) : ET.xml :=
  ET.Node $"gpx" [($"version", $"1.1"); ($"creator", $"Timeline2GPX")] None
    [ET.Node $"trk" [] None
       [ET.Node $"name" [] (Some $"Timeline") [];
        ET.Node $"trkseg" [] None (List.map trkpt_xml points)]].

(** The heap after the loop has run over [points]: the four elements made
    before the loop, the segment holding a reference to every track point,
    then a track point and its time for every point. *)
Fixpoint trkpt_elements (k : nat) (points : list Point) : ET.heap :=
  match points with
  | [] => []
  | p :: ps =>
      ET.mk $"trkpt"
        [($"lat", str_of_float (latitude p));
         ($"lon", str_of_float (longitude p))] None [4 + 2 * k + 1]
      :: ET.mk $"time" [] (Some (isoformat (time p))) []
      :: trkpt_elements (S k) ps
  end.

Definition trkpt_refs (n : nat) : list nat :=
  List.map (fun i => 4 + 2 * i) (seq 0 n).

Definition gpx_heap (points : list Point) : ET.heap :=
  [ ET.mk $"gpx" [($"version", $"1.1"); ($"creator", $"Timeline2GPX")]
      None [1];
    ET.mk $"trk" [] None [2; 3];
    ET.mk $"name" [] (Some $"Timeline") [];
    ET.mk $"trkseg" [] None (trkpt_refs (length points)) ]
  ++ trkpt_elements 0 points.

End Gpx.

(** More runs of the model. *)
Module Cases.

(** [--start yesterday] *)
Definition start_yesterday : Args.t :=
  Args.mk $"in.json" $"out.gpx" (-1) (-1) (Some $"yesterday") None $"INFO".

(** [--end 2024-01-01] *)
Definition until_jan1 : Args.t :=
  Args.mk $"in.json" $"out.gpx" (-1) (-1) None (Some $"2024-01-01") $"INFO".

(** [--count 2 --days 3 --start 2024-01-02] *)
Definition mixed : Args.t :=
  Args.mk $"in.json" $"out.gpx" 2 3 (Some $"2024-01-02") None $"INFO".

(** Seven days of January, in disorder. *)
Definition week : list Point :=
  List.map Sample.jan [4; 1; 7; 2; 6; 3; 5]%Z.

End Cases.

(** The entries of all [timelinePath] arrays, in document order. *)
Definition entries (segs : list Json.Segment) : list Json.PathPoint :=
  flat_map (fun seg => match Json.timelinePath seg with
                       | Some path => path
                       | None => []
                       end) segs.

(** A segment whose [startTime] and [endTime] are present and match the
    format. *)
Definition stamped (strptime : str -> option datetime) (seg : Json.Segment)
  : Prop :=
  well_formed strptime (Json.startTime seg) /\
  well_formed strptime (Json.endTime seg).

(** The events of lines 40-64 when both checks pass, up to the opening of
    the input. *)
Definition checks_and_open (basename dirname : str -> str) (args : Args.t)
  : list event :=
  [EExists (Args.output args); EExists (Args.input args)]
  ++ (if negb (str_eqb (basename (Args.output args)) (Args.output args))
      then [EMakedirs (dirname (Args.output args))] else [])
  ++ [EOpen (Args.input args)].

Module Documents.

(** A path whose second entry has no comma between its coordinates. *)
Definition one_bad_point : list Json.Segment :=
  [ Json.mkSegment (Some $"2024-01-02T08:00:00.000+01:00")
                   (Some $"2024-01-02T09:00:00.000+01:00")
                   (Some [Sample.path_point "48.137, 11.575"
                                            "2024-01-02T08:10:00.000+01:00";
                          Sample.path_point "48.139 11.580"
                                            "2024-01-02T08:20:00.000+01:00"])
  ].

(** Neither the input nor the output exists. *)
Definition empty_world : World :=
  mkWorld (fun _ => false) (fun _ => Raise OSError)
          (fun _ => Ok tt) (fun _ => Ok tt).

(** The input exists and is not a JSON document. *)
Definition unreadable_world : World :=
  mkWorld (fun path => str_eqb path $"in.json") (fun _ => Raise ValueError)
          (fun _ => Ok tt) (fun _ => Ok tt).

(** [-o tracks/out.gpx] *)
Definition into_tracks : Args.t :=
  Args.mk $"in.json" $"tracks/out.gpx" (-1) (-1) None None $"INFO".

(** Only the input exists, and it holds the path with the bad entry. *)
Definition bad_point_world : World :=
  Sample.world_with (Json.mkTimeline (Some one_bad_point)).



End Documents.

(* ------------------------------------------------------------------ *)
(** * Reading a whole trace *)
(* ------------------------------------------------------------------ *)

(** [l1] is [l2] with some of its elements left out; what is kept stays in
    its order, and an element of [l2] is kept at most once. *)
Inductive subseq {A : Type} : list A -> list A -> Prop :=
| subseq_nil : subseq [] []
| subseq_drop x l1 l2 : subseq l1 l2 -> subseq l1 (x :: l2)
| subseq_keep x l1 l2 : subseq l1 l2 -> subseq (x :: l1) (x :: l2).

(** The directories made with [os.makedirs]. *)
Definition made (tr : list event) : list str :=
  flat_map (fun e => match e with EMakedirs p => [p] | _ => [] end) tr.

(** What lines 25-26 leave in the trace for one file: the write, then the
    log line with the number of points and the name. *)
Definition logged (f : str * list Point) : list event :=
  [EWrite (fst f) (snd f); ELog INFO (Dumped (length (snd f)) (fst f))].

(** An event that is neither the writing of a file nor the log line of
    one. *)
Definition reading (e : event) : Prop :=
  match e with
  | EWrite _ _ => False
  | ELog _ (Dumped _ _) => False
  | _ => True
  end.

(** Both checks of lines 40-45 pass. *)
Definition checks_pass (world : World) (args : Args.t) : bool :=
  negb (path_exists world (Args.output args))
  && path_exists world (Args.input args).


(** A log line of the loader: the number of segments, or a segment that
    is a path. *)
Definition report (e : event) : Prop :=
  match e with
  | ELog _ (FoundSegments _) => True
  | ELog _ (SegmentIsPath _ _ _) => True
  | _ => False
  end.



(** Every file of the run can be written: [tree.write] returns for the
    name of every file number. *)
Definition accepts (world : World) (args : Args.t) : Prop :=
  forall n, write world (output_name (Args.output args) n) = Ok tt.


(** A call that returns. *)
Definition succeeds {A} (r : result A) : bool :=
  match r with
  | Ok _ => true
  | Raise _ => false
  end.

(** Line 46: the output path has a directory part. *)
Definition needs_directory (basename : str -> str) (args : Args.t) : bool :=
  negb (str_eqb (basename (Args.output args)) (Args.output args)).

(** Lines 46-47 are passed: the output path has no directory part, or
    [os.makedirs] returns for it. *)
Definition directory_ready (basename dirname : str -> str) (world : World)
  (args : Args.t) : bool :=
  negb (needs_directory basename args)
  || succeeds (makedirs world (dirname (Args.output args))).


(* ================================================================== *)
(** * Properties *)
(* ================================================================== *)

(* ------------------------------------------------------------------ *)
(** ** The monad and the writer *)
(* ------------------------------------------------------------------ *)

Lemma index_lt {A} (l : list A) (i : nat) :
  i < length l -> exists v, nth_error l i = Some v /\ index l i = Ok v.
Proof.
  intros H. unfold index.
  destruct (nth_error l i) as [v|] eqn:E.
  - exists v. split; reflexivity.
  - apply nth_error_None in E. lia.
Qed.

(** A write that succeeds. *)
Lemma dump_written world args points chunk st :
  points <> [] ->
  write world (output_name (Args.output args) (output_number st)) = Ok tt ->
  dump world args points chunk st = (written args chunk st, Ok tt).
Proof.
  intros Hne Hw. unfold dump.
  destruct points as [|p ps]; [congruence|].
  cbn [length Nat.ltb Nat.leb].
  unfold bind, get_output_number, dump_gpx, bind, lift, emit,
    set_output_number, written.
  rewrite Hw. cbn [output_number trace]. rewrite <- app_assoc. reflexivity.
Qed.

(** A write that fails: the exception leaves [dump] with the state as it
    was, the counter too. *)
Lemma dump_failed world args points chunk st e :
  points <> [] ->
  write world (output_name (Args.output args) (output_number st)) = Raise e ->
  dump world args points chunk st = (st, Raise e).
Proof.
  intros Hne Hw. unfold dump.
  destruct points as [|p ps]; [congruence|].
  cbn [length Nat.ltb Nat.leb].
  unfold bind, get_output_number, dump_gpx, bind, lift.
  rewrite Hw. reflexivity.
Qed.

Lemma dump_cases world args points chunk st :
  points <> [] ->
  (write world (output_name (Args.output args) (output_number st)) = Ok tt
   /\ dump world args points chunk st = (written args chunk st, Ok tt))
  \/ (exists e,
        write world (output_name (Args.output args) (output_number st))
        = Raise e
        /\ dump world args points chunk st = (st, Raise e)).
Proof.
  intros Hne.
  destruct (write world (output_name (Args.output args) (output_number st)))
    as [[]|e] eqn:Hw.
  - left. split; [reflexivity|]. apply dump_written; assumption.
  - right. exists e. split; [reflexivity|]. apply dump_failed; assumption.
Qed.

Lemma dump_nil world args chunk st :
  dump world args [] chunk st = (st, Ok tt).
Proof. reflexivity. Qed.

Lemma files_app tr1 tr2 : files (tr1 ++ tr2) = files tr1 ++ files tr2.
Proof. unfold files. apply flat_map_app. Qed.

Lemma chunks_app tr1 tr2 : chunks (tr1 ++ tr2) = chunks tr1 ++ chunks tr2.
Proof. unfold chunks. rewrite files_app. apply map_app. Qed.

Lemma chunks_written args chunk st :
  chunks (trace (written args chunk st)) = chunks (trace st) ++ [chunk].
Proof. unfold written. cbn [trace]. rewrite chunks_app. reflexivity. Qed.

Lemma files_written args chunk st :
  files (trace (written args chunk st))
  = files (trace st)
    ++ [(output_name (Args.output args) (output_number st), chunk)].
Proof. unfold written. cbn [trace]. rewrite files_app. reflexivity. Qed.

(* ------------------------------------------------------------------ *)
(** ** The loop follows the transition system *)
(* ------------------------------------------------------------------ *)

Section ReachFacts.

Variable world : World.
Variable strptime_date : str -> option date.
Variable args : Args.t.
Variable points : list Point.
Variable st0 : State.

Local Abbreviation reach := (reach strptime_date args points).
Local Abbreviation leaves := (leaves world args points).
Local Abbreviation after cs := (emitted args cs st0).

(** Some write of the run has failed with [e]. *)
Local Abbreviation failed e :=
  (exists n, write world (output_name (Args.output args) n) = Raise e).

Lemma reach_anchor i start cs : reach i start cs -> start < i.
Proof. induction 1; lia. Qed.

Lemma emitted_snoc cs c : after (cs ++ [c]) = written args c (after cs).
Proof. unfold emitted. apply fold_left_app. Qed.

Lemma days_between_same d : days_between d d = 0%Z.
Proof. unfold days_between. lia. Qed.

(** Lines 108-114 make one transition, or a write fails and its exception
    leaves them. *)
Lemma checks_reach i start cs :
  reach i start cs -> i < length points ->
  (exists start' cs',
     bind (check_count world args points i start)
          (fun start1 => bind (check_days world args points i start1)
                              (fun start2 => ret (Next start2))) (after cs)
     = (after cs', Ok (Next start')) /\ reach (S i) start' cs')
  \/ (exists e,
        bind (check_count world args points i start)
             (fun start1 => bind (check_days world args points i start1)
                                 (fun start2 => ret (Next start2)))
             (after cs)
        = (after cs, Raise e) /\ failed e).
Proof.
  intros Hr Hi.
  pose proof (reach_anchor Hr) as Hs.
  destruct (index_lt points Hi) as (p & Hp & Ep).
  assert (Hsl : start < length points) by lia.
  destruct (index_lt points Hsl) as (q & Hq & Eq).
  assert (Hne : points <> [])
    by (destruct points; cbn in Hi; [lia|congruence]).
  unfold check_count, check_days, bind, lift, ret.
  destruct ((0 <? Args.count args)%Z
            && (Args.count args <=? Z.of_nat i - Z.of_nat start)%Z) eqn:Ec.
  - (* the count limit is reached: one flush, and the day test sees a span
       of zero days *)
    apply andb_true_iff in Ec. destruct Ec as [Ec1 Ec2].
    destruct (dump_cases world args (slice points start i) (after cs) Hne)
      as [[_ ->]|(e & Hw & ->)]; [left | right; eauto].
    exists i, (cs ++ [slice points start i]). rewrite emitted_snoc. split.
    + destruct (0 <? Args.days args)%Z eqn:Ed; [|reflexivity].
      rewrite Ep, days_between_same.
      destruct (Args.days args <=? 0)%Z eqn:Ed0; [lia|reflexivity].
    + apply reach_flush; auto. left. unfold count_hit. lia.
  - assert (Hnc : ~ count_hit args i start).
    { unfold count_hit. intros [H1 H2].
      apply andb_false_iff in Ec. destruct Ec; lia. }
    destruct (0 <? Args.days args)%Z eqn:Ed; [|left].
    + rewrite Ep, Eq.
      destruct (Args.days args
                <=? days_between (date_of (time p)) (date_of (time q)))%Z
        eqn:Espan; [|left].
      * destruct (dump_cases world args (slice points start i) (after cs)
                    Hne) as [[_ ->]|(e & Hw & ->)]; [left | right; eauto].
        exists i, (cs ++ [slice points start i]). rewrite emitted_snoc.
        split; [reflexivity|].
        apply reach_flush; auto. right. exists p, q. repeat split; auto; lia.
      * exists start, cs. split; [reflexivity|].
        apply reach_keep; auto.
        intros (p' & q' & Hp' & Hq' & Hd).
        rewrite Hp in Hp'. rewrite Hq in Hq'.
        injection Hp' as <-. injection Hq' as <-. lia.
    + exists start, cs. split; [reflexivity|].
      apply reach_keep; auto.
      intros (p' & q' & _ & _ & Hd). lia.
Qed.

(** One turn of the loop is one transition, or leaves the loop without
    touching the state. *)
Lemma body_reach i start cs :
  reach i start cs -> i < length points ->
  match body world strptime_date args points i start (after cs) with
  | (st', Ok (Next start')) =>
      exists cs', st' = after cs' /\ reach (S i) start' cs'
  | (st', Ok Break) => st' = after cs /\ Args.end_ args <> None
  | (st', Raise e) =>
      st' = after cs
      /\ ((Args.start args <> None \/ Args.end_ args <> None) \/ failed e)
  end.
Proof.
  intros Hr Hi.
  destruct (index_lt points Hi) as (p & Hp & Ep).
  assert (Hchecks :
    match bind (check_count world args points i start)
            (fun start1 => bind (check_days world args points i start1)
                                (fun start2 => ret (Next start2)))
            (after cs) with
    | (st', Ok (Next start')) =>
        exists cs', st' = after cs' /\ reach (S i) start' cs'
    | (st', Ok Break) => st' = after cs /\ Args.end_ args <> None
    | (st', Raise e) =>
        st' = after cs
        /\ ((Args.start args <> None \/ Args.end_ args <> None) \/ failed e)
    end).
  { destruct (checks_reach Hr Hi)
      as [(start' & cs' & -> & Hnext)|(e & -> & Hw)]; eauto. }
  unfold body.
  unfold bind at 1. unfold before_start, parse.
  destruct (Args.start args) as [s|] eqn:Estart.
  - unfold bind at 1. unfold lift at 1. rewrite Ep.
    unfold bind at 1. unfold lift at 1.
    destruct (strptime_date s) as [d|] eqn:Ed.
    2: { split; [reflexivity | left; left; congruence]. }
    unfold ret at 1.
    destruct (date_ltb (date_of (time p)) d) eqn:Eearly.
    { unfold ret. exists cs. split; [reflexivity|].
      eapply reach_skip; eauto. exists s, d, p. auto. }
    unfold bind at 1. unfold after_end, parse.
    destruct (Args.end_ args) as [s'|] eqn:Eend.
    + unfold bind at 1. unfold lift at 1. rewrite Ep.
      unfold bind at 1. unfold lift at 1.
      destruct (strptime_date s') as [d'|] eqn:Ed'.
      2: { split; [reflexivity | left; right; congruence]. }
      unfold ret at 1.
      destruct (date_ltb d' (date_of (time p))) eqn:Elate.
      { unfold ret. split; [reflexivity | congruence]. }
      exact Hchecks.
    + unfold ret at 1. exact Hchecks.
  - unfold ret at 1. unfold bind at 1. unfold after_end, parse.
    destruct (Args.end_ args) as [s'|] eqn:Eend.
    + unfold bind at 1. unfold lift at 1. rewrite Ep.
      unfold bind at 1. unfold lift at 1.
      destruct (strptime_date s') as [d'|] eqn:Ed'.
      2: { split; [reflexivity | left; right; congruence]. }
      unfold ret at 1.
      destruct (date_ltb d' (date_of (time p))) eqn:Elate.
      { unfold ret. split; [reflexivity | congruence]. }
      exact Hchecks.
    + unfold ret at 1. exact Hchecks.
Qed.

(** The loop runs along the transition system until it is left. *)
Lemma scan_reach k : forall i start cs,
  reach i start cs ->
  length points <= i + k -> (k = 0 \/ i + k <= length points) ->
  exists j start' cs' r,
    scan world strptime_date args points (seq i k) start (after cs)
    = (after cs', r) /\
    reach j start' cs' /\ leaves j start' r.
Proof.
  induction k as [|k IH]; intros i start cs Hr Hlo Hhi.
  - exists i, start, cs, (Ok start). cbn. unfold ret.
    repeat split; auto. apply leaves_done. lia.
  - assert (Hi : i < length points) by lia.
    pose proof (body_reach Hr Hi) as Hb.
    cbn [seq scan]. unfold bind.
    destruct (body world strptime_date args points i start (after cs))
      as [st' [[s'|]|e]].
    + destruct Hb as (cs' & -> & Hr'). apply IH; auto; lia.
    + destruct Hb as [-> Hend].
      exists i, start, cs, (Ok start). unfold ret.
      repeat split; auto. apply leaves_break; auto.
    + destruct Hb as [-> [Hf|(n & Hw)]].
      * exists i, start, cs, (Raise e).
        repeat split; auto. apply leaves_raise; auto.
      * exists i, start, cs, (Raise e).
        repeat split; auto. eapply leaves_failed; eauto.
Qed.

(** Lines 98-115: the loop, then the last flush unless an exception left
    the loop. *)
Lemma chunk_all_reach :
  exists j start cs r,
    reach j start cs /\ leaves j start r /\
    chunk_all world strptime_date args points st0
    = match r with
      | Ok _ => dump world args points (skipn start points) (after cs)
      | Raise e => (after cs, Raise e)
      end.
Proof.
  destruct (@scan_reach (length points - 1) 1 0 [])
    as (j & start & cs & r & Escan & Hr & Hl).
  - apply reach_init.
  - lia.
  - lia.
  - exists j, start, cs, r. repeat split; auto.
    unfold chunk_all, bind. cbn in Escan. rewrite Escan.
    inversion Hl; subst; reflexivity.
Qed.

End ReachFacts.

(* ------------------------------------------------------------------ *)
(** ** [sorted] is the stable sort *)
(* ------------------------------------------------------------------ *)

Section SortedFacts.

Variable A : Type.
Variable key : A -> Z.

Lemma insert_by_perm x l : Permutation (insert_by key x l) (x :: l).
Proof.
  induction l as [|y l IH]; cbn.
  - apply Permutation_refl.
  - destruct (key y <? key x)%Z.
    + eapply perm_trans; [apply perm_skip, IH | apply perm_swap].
    + apply Permutation_refl.
Qed.

Lemma sorted_perm l : Permutation (sorted key l) l.
Proof.
  induction l as [|x l IH]; cbn.
  - apply perm_nil.
  - eapply perm_trans; [apply insert_by_perm | apply perm_skip, IH].
Qed.

Lemma sorted_length l : length (sorted key l) = length l.
Proof. apply Permutation_length, sorted_perm. Qed.

Lemma insert_by_ascending x l :
  ascending key l -> ascending key (insert_by key x l).
Proof.
  unfold ascending.
  induction l as [|y l IH]; cbn; intros Hl.
  - constructor; constructor.
  - apply StronglySorted_inv in Hl. destruct Hl as [Hl Hy].
    destruct (key y <? key x)%Z eqn:E.
    + constructor; [apply IH, Hl|].
      eapply Permutation_Forall; [apply Permutation_sym, insert_by_perm|].
      constructor; [lia | exact Hy].
    + constructor; [constructor; assumption|].
      constructor; [lia|].
      eapply Forall_impl; [|exact Hy]. cbn. intros a Ha. lia.
Qed.

Lemma sorted_ascending l : ascending key (sorted key l).
Proof.
  induction l as [|x l IH]; cbn.
  - constructor.
  - apply insert_by_ascending, IH.
Qed.

Lemma insert_by_with_key k x l :
  with_key key k (insert_by key x l) = with_key key k (x :: l).
Proof.
  unfold with_key.
  induction l as [|y l IH]; cbn; [reflexivity|].
  destruct (key y <? key x)%Z eqn:E; [|reflexivity].
  cbn. rewrite IH. cbn.
  destruct (key y =? k)%Z eqn:Ey, (key x =? k)%Z eqn:Ex; try reflexivity.
  lia.
Qed.

Lemma sorted_with_key k l :
  with_key key k (sorted key l) = with_key key k l.
Proof.
  induction l as [|x l IH]; [reflexivity|].
  change (sorted key (x :: l)) with (insert_by key x (sorted key l)).
  rewrite insert_by_with_key. unfold with_key in *. cbn.
  rewrite IH. reflexivity.
Qed.

(** [sorted] returns the stable sort. *)
Lemma sorted_stable l : stable_sort_of key l (sorted key l).
Proof.
  split; [apply sorted_ascending | intros k; apply sorted_with_key].
Qed.

Lemma with_key_In k x l : In x (with_key key k l) <-> In x l /\ key x = k.
Proof.
  unfold with_key. rewrite filter_In. rewrite Z.eqb_eq. reflexivity.
Qed.

(** Two ascending lists that agree key by key are equal. *)
Lemma ascending_unique l1 : forall l2,
  ascending key l1 -> ascending key l2 ->
  (forall k, with_key key k l1 = with_key key k l2) -> l1 = l2.
Proof.
  unfold ascending.
  induction l1 as [|x l1 IH]; intros l2 H1 H2 Hk.
  - destruct l2 as [|y l2]; [reflexivity|].
    specialize (Hk (key y)). unfold with_key in Hk. cbn in Hk.
    rewrite Z.eqb_refl in Hk. discriminate.
  - destruct l2 as [|y l2].
    { specialize (Hk (key x)). unfold with_key in Hk. cbn in Hk.
      rewrite Z.eqb_refl in Hk. discriminate. }
    apply StronglySorted_inv in H1. destruct H1 as [H1 Hx].
    apply StronglySorted_inv in H2. destruct H2 as [H2 Hy].
    rewrite Forall_forall in Hx, Hy.
    assert (Hxy : key x = key y).
    { assert (In y (x :: l1)) as Hy1.
      { apply (with_key_In (key y)). rewrite Hk.
        apply with_key_In. split; [left|]; reflexivity. }
      assert (In x (y :: l2)) as Hx2.
      { apply (with_key_In (key x)). rewrite <- Hk.
        apply with_key_In. split; [left|]; reflexivity. }
      destruct Hy1 as [->|Hy1]; [reflexivity|].
      destruct Hx2 as [->|Hx2]; [reflexivity|].
      specialize (Hx _ Hy1). specialize (Hy _ Hx2). lia. }
    pose proof (Hk (key x)) as Hkx. unfold with_key in Hkx. cbn in Hkx.
    rewrite <- Hxy, Z.eqb_refl in Hkx.
    injection Hkx as <- Hrest.
    f_equal. apply IH; auto.
    intros k. destruct (Z.eq_dec k (key x)) as [->|Hne]; [exact Hrest|].
    specialize (Hk k). unfold with_key in Hk. cbn in Hk.
    destruct (key x =? k)%Z eqn:E; [lia|]. exact Hk.
Qed.

(** The stable sort of a list is unique, so [sorted] is the only one. *)
Lemma stable_sort_unique l l' :
  stable_sort_of key l l' -> l' = sorted key l.
Proof.
  intros [Ha Hk]. apply ascending_unique; auto.
  - apply sorted_ascending.
  - intros k. rewrite Hk, sorted_with_key. reflexivity.
Qed.

Lemma ascending_app l1 l2 :
  ascending key (l1 ++ l2) -> ascending key l1 /\ ascending key l2.
Proof.
  unfold ascending. induction l1 as [|x l1 IH]; cbn; intros H.
  - split; [constructor | exact H].
  - apply StronglySorted_inv in H. destruct H as [H Hx].
    destruct (IH H) as [IH1 IH2]. split; [|exact IH2].
    constructor; [exact IH1|].
    apply Forall_app in Hx. tauto.
Qed.

(** A slice of an ascending list is ascending. *)
Lemma ascending_slice l a b : ascending key l -> ascending key (slice l a b).
Proof.
  intros H. unfold slice.
  rewrite <- (firstn_skipn b l) in H. apply ascending_app in H.
  destruct H as [H _].
  rewrite <- (firstn_skipn a (firstn b l)) in H. apply ascending_app in H.
  tauto.
Qed.

Lemma ascending_skipn l a : ascending key l -> ascending key (skipn a l).
Proof.
  intros H. rewrite <- (firstn_skipn a l) in H.
  apply ascending_app in H. tauto.
Qed.

End SortedFacts.

(* ------------------------------------------------------------------ *)
(** ** What a run of the sequencer leaves behind *)
(* ------------------------------------------------------------------ *)

Lemma chunks_emitted args cs st :
  chunks (trace (emitted args cs st)) = chunks (trace st) ++ cs.
Proof.
  revert st. induction cs as [|c cs IH]; intros st; cbn.
  - symmetry. apply app_nil_r.
  - unfold emitted in IH. rewrite IH, chunks_written, <- app_assoc.
    reflexivity.
Qed.

Lemma output_number_emitted args cs st :
  output_number (emitted args cs st) = output_number st + length cs.
Proof.
  revert st. induction cs as [|c cs IH]; intros st; cbn.
  - lia.
  - unfold emitted in IH. rewrite IH. cbn. lia.
Qed.

(** The files written by [emitted] are numbered from the counter on. *)
Lemma files_emitted args cs : forall st,
  files (trace (emitted args cs st))
  = files (trace st)
    ++ combine (List.map (output_name (Args.output args))
                         (seq (output_number st) (length cs))) cs.
Proof.
  induction cs as [|c cs IH]; intros st; cbn [emitted fold_left].
  - cbn. symmetry. apply app_nil_r.
  - unfold emitted in IH. rewrite IH, files_written, <- app_assoc.
    cbn [length seq List.map combine app]. unfold written.
    cbn [output_number]. rewrite Nat.add_1_r. reflexivity.
Qed.

(** A run of lines 97-115: the loop flushes some chunks [cs] along the
    transition system and is left; unless it was left by an exception, the
    rest of the list is written. *)
Lemma sequencer_run_from world strptime_date args pts st0 :
  exists j start cs r,
    reach strptime_date args (sorted time_key pts) j start cs /\
    leaves world args (sorted time_key pts) j start r /\
    sequencer world strptime_date args pts st0
    = (emitted args (outcome_chunks (sorted time_key pts) start cs r) st0,
       outcome_result r).
Proof.
  unfold sequencer.
  destruct (chunk_all_reach world strptime_date args (sorted time_key pts)
              st0) as (j & start & cs & r & Hr & Hl & E).
  rewrite E. clear E. revert Hr Hl.
  generalize (sorted time_key pts). intros points Hr Hl.
  destruct r as [s|e].
  2: { exists j, start, cs, (Raise e). auto. }
  destruct points as [|p ps] eqn:Es.
  { exists j, start, cs, (Ok s). repeat split; auto. }
  rewrite <- Es in *.
  assert (Hne : points <> []) by (rewrite Es; discriminate).
  destruct (dump_cases world args (skipn start points)
              (emitted args cs st0) Hne) as [[_ ->]|(e & Hw & ->)].
  - exists j, start, cs, (Ok s). split; [exact Hr|]. split; [exact Hl|].
    assert (Eo : outcome_chunks points start cs (Ok s)
                 = cs ++ [skipn start points])
      by (rewrite Es; reflexivity).
    rewrite Eo, emitted_snoc. reflexivity.
  - exists j, start, cs, (Raise e). split; [exact Hr|].
    split; [eapply leaves_failed; exact Hw|]. reflexivity.
Qed.

(** The same from the initial state. *)
Lemma sequencer_run world strptime_date args pts :
  exists j start cs r,
    reach strptime_date args (sorted time_key pts) j start cs /\
    leaves world args (sorted time_key pts) j start r /\
    snd (sequencer world strptime_date args pts initial) = outcome_result r /\
    chunks (trace (sequenced world strptime_date args pts))
    = outcome_chunks (sorted time_key pts) start cs r /\
    output_number (sequenced world strptime_date args pts)
    = length (outcome_chunks (sorted time_key pts) start cs r).
Proof.
  destruct (sequencer_run_from world strptime_date args pts initial)
    as (j & start & cs & r & Hr & Hl & E).
  exists j, start, cs, r. unfold sequenced. rewrite E. cbn [fst snd].
  rewrite chunks_emitted, output_number_emitted. auto.
Qed.

Lemma map_fst_zip {A B} (l : list A) : forall (l' : list B),
  length l = length l' -> List.map fst (combine l l') = l.
Proof.
  induction l as [|x l IH]; intros [|y l'] H; cbn in *;
    try discriminate; [reflexivity|].
  f_equal. apply IH. lia.
Qed.

(** The files of a run are numbered 0, 1, 2, ... in the order of writing,
    and each is named by [output_name]. *)
Lemma files_numbered world strptime_date args pts :
  List.map fst (files (trace (sequenced world strptime_date args pts)))
  = List.map (output_name (Args.output args))
      (seq 0 (length (files (trace (sequenced world strptime_date args pts))))).
Proof.
  destruct (sequencer_run_from world strptime_date args pts initial)
    as (j & start & cs & r & Hr & Hl & E).
  unfold sequenced. rewrite E. cbn [fst]. rewrite files_emitted.
  cbn [initial trace files flat_map app output_number].
  set (out := outcome_chunks (sorted time_key pts) start cs r).
  assert (Hlen : length (List.map (output_name (Args.output args))
                                  (seq 0 (length out))) = length out)
    by (rewrite length_map, length_seq; reflexivity).
  rewrite length_combine, Hlen, Nat.min_id.
  apply map_fst_zip, Hlen.
Qed.

(* ------------------------------------------------------------------ *)
(** ** Invariants of the loop *)
(* ------------------------------------------------------------------ *)

Section Invariants.

Variable strptime_date : str -> option date.
Variable args : Args.t.
Variable points : list Point.

Local Abbreviation reach := (reach strptime_date args points).

Lemma slice_length {A} (l : list A) a b :
  a <= b <= length l -> length (slice l a b) = b - a.
Proof.
  intros H. unfold slice. rewrite length_skipn, length_firstn. lia.
Qed.

(** Every flushed chunk is a slice [points[a:b]] with [a < b]. *)
Lemma reach_slices i start cs :
  reach i start cs ->
  Forall (fun c => exists a b,
            a < b <= length points /\ c = slice points a b) cs.
Proof.
  induction 1 as [|i start cs Hr IH Hi Hs|i start cs Hr IH Hi Hc Hd
                  |i start cs Hr IH Hi Hh]; auto.
  apply Forall_app. split; [exact IH|].
  constructor; [|constructor].
  exists start, i. pose proof (reach_anchor Hr). split; [lia|reflexivity].
Qed.

Lemma slice_snoc {A} (l : list A) a b :
  a <= b <= length l -> firstn a l ++ slice l a b = firstn b l.
Proof.
  intros H. unfold slice.
  rewrite <- (firstn_skipn a (firstn b l)) at 2.
  f_equal. rewrite firstn_firstn. f_equal. lia.
Qed.

(** Without a start date the anchor never jumps: the flushed chunks are
    the list up to the anchor. *)
Lemma reach_cover i start cs :
  Args.start args = None ->
  reach i start cs -> concat cs = firstn start points.
Proof.
  intros Hstart.
  induction 1 as [|i start cs Hr IH Hi Hs|i start cs Hr IH Hi Hc Hd
                  |i start cs Hr IH Hi Hh]; auto.
  - destruct Hs as (s & d & p & E & _). congruence.
  - rewrite concat_app, IH. cbn. rewrite app_nil_r.
    apply slice_snoc. pose proof (reach_anchor Hr). lia.
Qed.

(** With a count limit and no day limit the anchor is never more than
    [count] behind, and every flushed chunk has [count] points. *)
Lemma reach_count i start cs :
  (0 < Args.count args)%Z -> (Args.days args <= 0)%Z ->
  reach i start cs ->
  (Z.of_nat i - Z.of_nat start <= Args.count args)%Z /\
  Forall (fun c => Z.of_nat (length c) = Args.count args) cs.
Proof.
  intros Hn Hd0.
  induction 1 as [|i start cs Hr IH Hi Hs|i start cs Hr IH Hi Hc Hd
                  |i start cs Hr IH Hi Hh].
  - split; [lia | constructor].
  - destruct IH as [IH1 IH2]. split; [lia | exact IH2].
  - destruct IH as [IH1 IH2]. split; [|exact IH2].
    unfold count_hit in Hc. lia.
  - destruct IH as [IH1 IH2]. split; [lia|].
    apply Forall_app. split; [exact IH2|].
    constructor; [|constructor].
    pose proof (reach_anchor Hr).
    rewrite slice_length by lia.
    destruct Hh as [Hc|(p & q & _ & _ & Hd)]; [|lia].
    unfold count_hit in Hc. lia.
Qed.

End Invariants.

(* ------------------------------------------------------------------ *)
(** ** Chunks of a run *)
(* ------------------------------------------------------------------ *)

Lemma reach_anchor_in_list strptime_date args points i start cs :
  reach strptime_date args points i start cs ->
  points <> [] -> start < length points.
Proof.
  intros Hr Hne. induction Hr; auto.
  destruct points; [congruence | cbn; lia].
Qed.

Lemma chunks_files tr : length (chunks tr) = length (files tr).
Proof. unfold chunks. apply length_map. Qed.

(** The chunks the loop hands to the writer (lines 109 and 113) are never
    empty. *)
Lemma reach_chunks_not_empty strptime_date args points i start cs :
  reach strptime_date args points i start cs ->
  Forall (fun c => c <> []) cs.
Proof.
  intros Hr. eapply Forall_impl; [|apply (reach_slices Hr)].
  intros c (a & b & Hab & ->) Hnil.
  apply (f_equal (@length _)) in Hnil.
  rewrite slice_length in Hnil by lia. cbn in Hnil. lia.
Qed.

(** The rest of the list from the anchor on (line 115) is empty only when
    the list is. *)
Lemma reach_rest_empty strptime_date args points i start cs :
  reach strptime_date args points i start cs ->
  skipn start points = [] -> points = [].
Proof.
  intros Hr Hnil. destruct points as [|p ps] eqn:E; [reflexivity|].
  rewrite <- E in *.
  assert (start < length points).
  { apply (reach_anchor_in_list Hr). rewrite E. discriminate. }
  apply (f_equal (@length _)) in Hnil. rewrite length_skipn in Hnil.
  cbn in Hnil. lia.
Qed.

(** C8: wherever a run calls the writer, a chunk with zero points makes no
    file and leaves the counter alone.  The loop never hands over an empty
    chunk, and the last flush does so only when the point list is empty,
    where the writer does nothing.  So no file written holds zero points,
    the counter counts exactly the files written, and on an empty point
    list the run changes nothing. *)
Theorem empty_chunk_writes_nothing world strptime_date args pts :
  (forall i start cs,
     reach strptime_date args (sorted time_key pts) i start cs ->
     Forall (fun c => c <> []) cs /\
     forall st,
       skipn start (sorted time_key pts) = [] ->
       dump world args (sorted time_key pts)
         (skipn start (sorted time_key pts)) st
       = (st, Ok tt)) /\
  Forall (fun f => snd f <> [])
         (files (trace (sequenced world strptime_date args pts))) /\
  output_number (sequenced world strptime_date args pts)
  = length (files (trace (sequenced world strptime_date args pts))) /\
  (pts = [] -> sequenced world strptime_date args pts = initial).
Proof.
  split; [|split; [|split]].
  - intros i start cs Hr. split.
    + apply (reach_chunks_not_empty Hr).
    + intros st Hnil. rewrite (reach_rest_empty Hr Hnil). apply dump_nil.
  - destruct (sequencer_run world strptime_date args pts)
      as (j & start & cs & r & Hr & Hl & Eres & Echunks & Enum).
    apply Forall_map with (f := snd) (P := fun c => c <> []).
    fold (chunks (trace (sequenced world strptime_date args pts))).
    rewrite Echunks.
    pose proof (reach_chunks_not_empty Hr) as Hcs.
    unfold outcome_chunks.
    destruct r as [s|e]; [|exact Hcs].
    destruct (sorted time_key pts) as [|p ps] eqn:Es; [exact Hcs|].
    apply Forall_app. split; [exact Hcs|].
    constructor; [|constructor].
    intros Hnil. apply (reach_rest_empty Hr) in Hnil. discriminate.
  - destruct (sequencer_run world strptime_date args pts)
      as (j & start & cs & r & Hr & Hl & Eres & Echunks & Enum).
    rewrite Enum, <- Echunks. apply chunks_files.
  - intros ->. reflexivity.
Qed.

(** No point at all: the last flush is the only call, and it is void. *)
Lemma empty_chunk_writes_nothing_witness :
  sequenced Sample.writable Sample.strptime_date
        Sample.two_per_file [] = initial.
Proof.
  apply (proj2 (proj2 (proj2
           (empty_chunk_writes_nothing Sample.writable Sample.strptime_date
              Sample.two_per_file [])))).
  reflexivity.
Defined.

(** The guard of line 54 reads the whole list, not the chunk handed over:
    outside a run, on a list that is not empty, the closure would write a
    file for an empty chunk, where the file can be written.  A run never
    calls it that way. *)
Remark dump_guard_reads_whole_list world args p ps st :
  write world (output_name (Args.output args) (output_number st)) = Ok tt ->
  dump world args (p :: ps) [] st = (written args [] st, Ok tt).
Proof. intros Hw. apply dump_written; [congruence | exact Hw]. Qed.

Lemma removelast_snoc {A} (l : list A) x : removelast (l ++ [x]) = l.
Proof. apply removelast_last. Qed.

Lemma Forall_removelast {A} (P : A -> Prop) l :
  Forall P l -> Forall P (removelast l).
Proof.
  induction 1 as [|x l Hx Hl IH]; cbn; [constructor|].
  destruct l; [constructor|]. constructor; auto.
Qed.

(** C4: with a point-count limit [N > 0] and no day-span limit, every
    chunk written except the last one has exactly [N] points. *)
Theorem count_limit_fills_chunks world strptime_date args pts (N : Z) :
  (0 < N)%Z -> Args.count args = N -> (Args.days args <= 0)%Z ->
  Forall (fun c => Z.of_nat (length c) = N)
         (removelast (chunks (trace (sequenced world strptime_date args pts)))).
Proof.
  intros HN Hcount Hdays.
  destruct (sequencer_run world strptime_date args pts)
    as (j & start & cs & r & Hr & Hl & Eres & Echunks & Enum).
  rewrite Echunks.
  assert (Hcs : Forall (fun c => Z.of_nat (length c) = N) cs).
  { rewrite <- Hcount. eapply reach_count; eauto. lia. }
  unfold outcome_chunks.
  destruct r as [s|e]; [|apply Forall_removelast, Hcs].
  destruct (sorted time_key pts); [apply Forall_removelast, Hcs|].
  rewrite removelast_snoc. exact Hcs.
Qed.

(** Five points under a limit of two points per file: three files. *)
Lemma count_limit_fills_chunks_witness :
  (0 < 2)%Z /\ Args.count Sample.two_per_file = 2%Z /\
  (Args.days Sample.two_per_file <= 0)%Z /\
  Forall (fun c => Z.of_nat (length c) = 2%Z)
    (removelast (chunks (trace (sequenced Sample.writable Sample.strptime_date
                                  Sample.two_per_file Sample.shuffled)))).
Proof.
  split; [lia|]. split; [reflexivity|]. split; [cbn; lia|].
  apply (@count_limit_fills_chunks Sample.writable Sample.strptime_date
           Sample.two_per_file Sample.shuffled 2%Z).
  - lia.
  - reflexivity.
  - cbn. lia.
Defined.

(** C3: every chunk written is ascending by time.  Without a start or an
    end date the run ends normally when every file can be written; and
    when it ends normally, the chunks written, put end to end in the order
    of writing, are the stable sort by time of the flattened list (which
    is [sorted] of it and a permutation of it). *)
Theorem chunks_ascending_and_complete world strptime_date args pts :
  Forall (ascending time_key)
         (chunks (trace (sequenced world strptime_date args pts))) /\
  (Args.start args = None -> Args.end_ args = None ->
   (accepts world args ->
    snd (sequencer world strptime_date args pts initial) = Ok tt) /\
   (snd (sequencer world strptime_date args pts initial) = Ok tt ->
    stable_sort_of time_key pts
      (concat (chunks (trace (sequenced world strptime_date args pts)))) /\
    concat (chunks (trace (sequenced world strptime_date args pts)))
    = sorted time_key pts /\
    Permutation
      (concat (chunks (trace (sequenced world strptime_date args pts))))
      pts)).
Proof.
  destruct (sequencer_run world strptime_date args pts)
    as (j & start & cs & r & Hr & Hl & Eres & Echunks & Enum).
  rewrite Echunks, Eres. split.
  - assert (Hcs : Forall (ascending time_key) cs).
    { eapply Forall_impl; [|apply (reach_slices Hr)].
      intros c (a & b & _ & ->).
      apply ascending_slice, sorted_ascending. }
    unfold outcome_chunks.
    destruct r as [s|e]; [|exact Hcs].
    destruct (sorted time_key pts) as [|p ps] eqn:Es; [exact Hcs|].
    rewrite <- Es. apply Forall_app. split; [exact Hcs|].
    constructor; [|constructor].
    apply ascending_skipn, sorted_ascending.
  - intros Hstart Hend. split.
    + intros Hacc.
      inversion Hl as [Hdone|Hbreak Hne|e Hlt Hf|e n Hw]; subst;
        try reflexivity.
      * destruct Hf; congruence.
      * rewrite Hacc in Hw. discriminate.
    + intros Hok.
      assert (Hcat : concat (outcome_chunks (sorted time_key pts) start cs r)
                     = sorted time_key pts).
      { pose proof (reach_cover Hstart Hr) as Hcover.
        destruct r as [s|e]; [|discriminate].
        unfold outcome_chunks.
        inversion Hl as [Hdone|Hbreak Hne| |]; subst; [|congruence].
        destruct (sorted time_key pts) as [|p ps].
        - rewrite Hcover. apply firstn_nil.
        - rewrite concat_app, Hcover. cbn [concat]. rewrite app_nil_r.
          apply firstn_skipn. }
      rewrite Hcat. repeat split.
      * apply sorted_ascending.
      * intros k. apply sorted_with_key.
      * apply sorted_perm.
Qed.

Lemma chunks_ascending_and_complete_witness :
  Args.start Sample.two_per_file = None /\
  Args.end_ Sample.two_per_file = None /\
  accepts Sample.writable Sample.two_per_file /\
  snd (sequencer Sample.writable Sample.strptime_date Sample.two_per_file
         Sample.shuffled initial) = Ok tt /\
  stable_sort_of time_key Sample.shuffled
    (concat (chunks (trace (sequenced Sample.writable Sample.strptime_date
                              Sample.two_per_file Sample.shuffled)))) /\
  concat (chunks (trace (sequenced Sample.writable Sample.strptime_date
                           Sample.two_per_file Sample.shuffled)))
  = sorted time_key Sample.shuffled /\
  Permutation
    (concat (chunks (trace (sequenced Sample.writable Sample.strptime_date
                              Sample.two_per_file Sample.shuffled))))
    Sample.shuffled.
Proof.
  split; [reflexivity|]. split; [reflexivity|].
  assert (Hacc : accepts Sample.writable Sample.two_per_file)
    by (intros n; reflexivity).
  split; [exact Hacc|].
  destruct (proj2 (chunks_ascending_and_complete Sample.writable
                     Sample.strptime_date Sample.two_per_file
                     Sample.shuffled) eq_refl eq_refl) as [Hok Hall].
  split; [exact (Hok Hacc) | exact (Hall (Hok Hacc))].
Defined.

(** Against C3 as it is worded: [-o walks.gpx/day.gpx -c 1] on two
    points, with no start and no end date.  Line 47 has made [walks.gpx];
    the first file is to go to [walks_00000.gpx/day_00000.gpx], in a
    directory that is not there, so [tree.write] raises at the first flush
    and the run ends with no chunk written: the chunks put end to end are
    not the sorted list. *)
Lemma failed_write_breaks_concatenation :
  Args.start Sample.into_walks = None /\
  Args.end_ Sample.into_walks = None /\
  snd (sequencer Sample.world_of_walks Sample.strptime_date
         Sample.into_walks (List.map Sample.jan [1; 2]%Z) initial)
  = Raise OSError /\
  chunks (trace (sequenced Sample.world_of_walks Sample.strptime_date
                   Sample.into_walks (List.map Sample.jan [1; 2]%Z)))
  = [] /\
  concat (chunks (trace (sequenced Sample.world_of_walks
                           Sample.strptime_date Sample.into_walks
                           (List.map Sample.jan [1; 2]%Z))))
  <> sorted time_key (List.map Sample.jan [1; 2]%Z).
Proof.
  split; [reflexivity|]. split; [reflexivity|].
  split; [vm_compute; reflexivity|].
  split; [vm_compute; reflexivity|].
  vm_compute. discriminate.
Qed.

(* ------------------------------------------------------------------ *)
(** ** The date filters *)
(* ------------------------------------------------------------------ *)

(** C1: with [--start 2024-01-03] and points on January 1, 2, 3 and 4 the
    run writes one chunk, and it holds the points of January 2, 3 and 4:
    line 102 moves the anchor onto the last early point, not past it. *)
Theorem start_date_keeps_last_early_point :
  chunks (trace (sequenced Sample.writable Sample.strptime_date Sample.from_jan3
                   (List.map Sample.jan [1; 2; 3; 4]%Z)))
  = [List.map Sample.jan [2; 3; 4]%Z].
Proof. vm_compute. reflexivity. Qed.

(** C5: with [--days 1 --end 2024-01-01] and points on January 1, 2 and 5
    the run writes one chunk of all three points, four days from first to
    last: after the [break] of line 106 the last flush takes the rest of
    the list unchecked. *)
Theorem end_date_break_exceeds_day_limit :
  chunks (trace (sequenced Sample.writable Sample.strptime_date
        Sample.one_day_until_jan1
                   (List.map Sample.jan [1; 2; 5]%Z)))
  = [List.map Sample.jan [1; 2; 5]%Z] /\
  span_days (List.map Sample.jan [1; 2; 5]%Z) = 4%Z /\
  Args.days Sample.one_day_until_jan1 = 1%Z.
Proof. vm_compute. repeat split; reflexivity. Qed.

(** The example of the day limit: [--days 3] on January 1, 2 and 5 cuts
    before January 5. *)
Example three_days_example :
  chunks (trace (sequenced Sample.writable Sample.strptime_date
        Sample.three_days
                   (List.map Sample.jan [1; 2; 5]%Z)))
  = [List.map Sample.jan [1; 2]%Z; List.map Sample.jan [5]%Z].
Proof. vm_compute. reflexivity. Qed.

Section DaySpan.

Variable strptime_date : str -> option date.
Variable args : Args.t.
Variable points : list Point.

Lemma last_firstn {A} k : forall (l : list A) d x,
  nth_error l k = Some x -> last (firstn (S k) l) d = x.
Proof.
  induction k as [|k IH]; intros [|y l] d x H; cbn in H; try discriminate.
  - injection H as ->. reflexivity.
  - cbn [firstn]. specialize (IH l d x H).
    destruct l as [|z l]; [destruct k; discriminate|].
    cbn [firstn] in *. cbn [last]. exact IH.
Qed.

(** The span of a slice is taken between its two ends. *)
Lemma span_days_slice (l : list Point) a b p q :
  a < b <= length l ->
  nth_error l a = Some p -> nth_error l (b - 1) = Some q ->
  span_days (slice l a b)
  = days_between (date_of (time q)) (date_of (time p)).
Proof.
  intros Hab Hp Hq.
  destruct (nth_error_split l a Hp) as (l1 & l2 & -> & Hl1).
  subst a. unfold slice.
  rewrite firstn_app, skipn_app.
  rewrite (skipn_all2 (firstn b l1)) by (rewrite length_firstn; lia).
  rewrite length_firstn, Nat.min_r by lia.
  rewrite Nat.sub_diag. cbn [app skipn].
  replace (b - length l1) with (S (b - length l1 - 1)) by lia.
  unfold span_days. cbn [firstn].
  change (p :: firstn (b - length l1 - 1) l2)
    with (firstn (S (b - length l1 - 1)) (p :: l2)).
  rewrite (@last_firstn _ (b - length l1 - 1) (p :: l2) p q); [reflexivity|].
  rewrite nth_error_app2 in Hq by lia.
  replace (b - 1 - length l1) with (b - length l1 - 1) in Hq by lia.
  exact Hq.
Qed.

Lemma skipn_slice {A} (l : list A) a : skipn a l = slice l a (length l).
Proof. unfold slice. rewrite firstn_all. reflexivity. Qed.

Lemma reach_index_bound i start cs :
  reach strptime_date args points i start cs ->
  i <= Nat.max 1 (length points).
Proof. induction 1; lia. Qed.

(** With a day limit every point since the anchor lies less than the limit
    after the anchor, and so does every flushed chunk's last point after
    its first. *)
Lemma reach_span i start cs :
  (0 < Args.days args)%Z ->
  reach strptime_date args points i start cs ->
  Forall (fun c => (span_days c < Args.days args)%Z) cs /\
  forall j p q,
    start <= j < i ->
    nth_error points j = Some p -> nth_error points start = Some q ->
    (days_between (date_of (time p)) (date_of (time q)) < Args.days args)%Z.
Proof.
  intros HD.
  induction 1 as [|i start cs Hr IH Hi Hs|i start cs Hr IH Hi Hc Hd
                  |i start cs Hr IH Hi Hh].
  - split; [constructor|]. intros j p q Hj Hp Hq.
    assert (j = 0) as -> by lia. rewrite Hp in Hq. injection Hq as <-.
    rewrite days_between_same. exact HD.
  - destruct IH as [IH1 IH2]. split; [exact IH1|].
    intros j p q Hj Hp Hq.
    assert (j = i) as -> by lia. rewrite Hp in Hq. injection Hq as <-.
    rewrite days_between_same. exact HD.
  - destruct IH as [IH1 IH2]. split; [exact IH1|].
    intros j p q Hj Hp Hq.
    destruct (Nat.eq_dec j i) as [->|Hne].
    + destruct (Z_lt_ge_dec
                  (days_between (date_of (time p)) (date_of (time q)))
                  (Args.days args)) as [Hlt|Hge]; [exact Hlt|].
      exfalso. apply Hd. exists p, q. repeat split; auto; lia.
    + apply (IH2 j); auto. lia.
  - destruct IH as [IH1 IH2].
    pose proof (reach_anchor Hr) as Hlt.
    split.
    + apply Forall_app. split; [exact IH1|].
      constructor; [|constructor].
      destruct (nth_error points start) as [q|] eqn:Eq;
        [|apply nth_error_None in Eq; lia].
      destruct (nth_error points (i - 1)) as [p|] eqn:Ep;
        [|apply nth_error_None in Ep; lia].
      rewrite (@span_days_slice points start i q p); auto; [|lia].
      apply (IH2 (i - 1)); auto. lia.
    + intros j p q Hj Hp Hq.
      assert (j = i) as -> by lia. rewrite Hp in Hq. injection Hq as <-.
      rewrite days_between_same. exact HD.
Qed.

End DaySpan.

(** X5: Where the day limit does hold: without an end date.  With a day limit
    [D > 0] and no [--end], the last point of every chunk written lies less
    than [D] calendar days after its first point. *)
Lemma day_limit_bounds_span_without_end world strptime_date args pts (D : Z) :
  (0 < D)%Z -> Args.days args = D -> Args.end_ args = None ->
  Forall (fun c => (span_days c < D)%Z)
         (chunks (trace (sequenced world strptime_date args pts))).
Proof.
  intros HD Hdays Hend.
  destruct (sequencer_run world strptime_date args pts)
    as (j & start & cs & r & Hr & Hl & Eres & Echunks & Enum).
  rewrite Echunks. rewrite <- Hdays in *.
  destruct (reach_span HD Hr) as [Hcs Hopen].
  unfold outcome_chunks.
  destruct r as [s|e]; [|exact Hcs].
  destruct (sorted time_key pts) as [|p0 ps]; [exact Hcs|].
  set (points := p0 :: ps) in *.
  assert (Hne : points <> []) by discriminate.
  apply Forall_app. split; [exact Hcs|].
  constructor; [|constructor].
  pose proof (reach_anchor_in_list Hr Hne) as Hstart.
  pose proof (reach_index_bound Hr) as Hj.
  inversion Hl as [Hdone|Hbreak Hne'| |]; [|congruence].
  assert (Hjn : j = length points).
  { clear - Hdone Hj. cbn in *. lia. }
  subst j.
  destruct (nth_error points start) as [q|] eqn:Eq;
    [|apply nth_error_None in Eq; lia].
  destruct (nth_error points (length points - 1)) as [p|] eqn:Ep;
    [|apply nth_error_None in Ep; lia].
  rewrite skipn_slice. subst s.
  rewrite (@span_days_slice points start (length points) q p); auto.
  apply (Hopen (length points - 1)); auto. lia.
Qed.

Lemma day_limit_bounds_span_without_end_witness :
  (0 < 3)%Z /\ Args.days Sample.three_days = 3%Z /\
  Args.end_ Sample.three_days = None /\
  Forall (fun c => (span_days c < 3)%Z)
    (chunks (trace (sequenced Sample.writable Sample.strptime_date
          Sample.three_days
                      (List.map Sample.jan [1; 2; 5]%Z)))).
Proof.
  split; [lia|]. split; [reflexivity|]. split; [reflexivity|].
  apply (@day_limit_bounds_span_without_end Sample.writable Sample.strptime_date
           Sample.three_days (List.map Sample.jan [1; 2; 5]%Z) 3%Z);
    [lia | reflexivity | reflexivity].
Defined.

(* ------------------------------------------------------------------ *)
(** ** The whole run *)
(* ------------------------------------------------------------------ *)

(** Without date filters the sequencer ends normally when every file can
    be written; and when it ends normally it has written the sorted list,
    cut into chunks. *)
Lemma sequencer_complete_from world strptime_date args pts st0 :
  Args.start args = None -> Args.end_ args = None ->
  (accepts world args ->
   snd (sequencer world strptime_date args pts st0) = Ok tt) /\
  (snd (sequencer world strptime_date args pts st0) = Ok tt ->
   exists cs,
     chunks (trace (fst (sequencer world strptime_date args pts st0)))
     = chunks (trace st0) ++ cs /\
     concat cs = sorted time_key pts).
Proof.
  intros Hstart Hend.
  destruct (sequencer_run_from world strptime_date args pts st0)
    as (j & start & cs & r & Hr & Hl & E).
  rewrite E. cbn [fst snd]. rewrite chunks_emitted.
  pose proof (reach_cover Hstart Hr) as Hcover.
  inversion Hl as [Hdone|Hbreak Hne|e Hlt Hf|e n Hw]; subst.
  - split; [reflexivity|]. intros _.
    exists (outcome_chunks (sorted time_key pts) start cs (Ok start)).
    split; [reflexivity|]. unfold outcome_chunks.
    destruct (sorted time_key pts) as [|p ps].
    + rewrite Hcover. apply firstn_nil.
    + rewrite concat_app, Hcover. cbn [concat]. rewrite app_nil_r.
      apply firstn_skipn.
  - congruence.
  - destruct Hf; congruence.
  - split; [|discriminate].
    intros Hacc. rewrite Hacc in Hw. discriminate.
Qed.

Section FlattenFacts.

Variable float_of_str : str -> option float.
Variable strptime : str -> option datetime.

Local Abbreviation Read_point := (read_point float_of_str strptime).
Local Abbreviation Read_path := (read_path float_of_str strptime).
Local Abbreviation Read_segment := (read_segment float_of_str strptime).
Local Abbreviation Flatten := (flatten float_of_str strptime).

Lemma well_formed_parse field key :
  well_formed strptime field ->
  exists s t, getitem key field = Ok s /\ parse strptime s = Ok t.
Proof.
  intros (s & t & -> & Ht). exists s, t. unfold parse. rewrite Ht. auto.
Qed.

Lemma read_point_valid p :
  valid_point float_of_str strptime p -> exists pt, Read_point p = Ok pt.
Proof.
  intros [(raw & [x y] & Eraw & Exy) (s & t & Es & Et)].
  unfold read_point, parse. rewrite Eraw, Es. cbn. rewrite Exy, Et.
  eauto.
Qed.

Lemma read_path_valid path : forall acc,
  Forall (valid_point float_of_str strptime) path ->
  exists pts, Read_path path acc = Ok (acc ++ pts)
              /\ length pts = length path.
Proof.
  induction path as [|p path IH]; intros acc Hv; cbn.
  - exists []. rewrite app_nil_r. auto.
  - inversion Hv as [|? ? Hp Hpath]; subst.
    destruct (read_point_valid Hp) as (pt & ->).
    destruct (IH (acc ++ [pt]) Hpath) as (pts & -> & Hlen).
    exists (pt :: pts). rewrite <- app_assoc. cbn. auto.
Qed.

(** The flattener writes no file and leaves the counter alone. *)
Lemma read_segment_quiet seg acc st :
  files (trace (fst (Read_segment seg acc st))) = files (trace st) /\
  output_number (fst (Read_segment seg acc st)) = output_number st.
Proof.
  unfold read_segment, bind, lift, parse, getitem, emit, ret.
  destruct (Json.startTime seg) as [s|]; [|auto].
  destruct (strptime s); [|auto].
  destruct (Json.endTime seg) as [e|]; [|auto].
  destruct (strptime e); [|auto].
  destruct (Json.timelinePath seg) as [path|]; [|auto].
  destruct (read_path float_of_str strptime path acc); cbn;
    rewrite files_app; cbn; rewrite app_nil_r; auto.
Qed.

Lemma flatten_quiet segs : forall acc st,
  files (trace (fst (Flatten segs acc st))) = files (trace st) /\
  output_number (fst (Flatten segs acc st)) = output_number st.
Proof.
  induction segs as [|seg segs IH]; intros acc st; cbn; [auto|].
  unfold bind.
  pose proof (read_segment_quiet seg acc st) as Hq.
  destruct (read_segment float_of_str strptime seg acc st)
    as [st' [pts|e]]; cbn [fst] in Hq.
  - destruct (IH pts st') as [H1 H2]. destruct Hq as [H3 H4].
    split; congruence.
  - exact Hq.
Qed.

Lemma read_segment_valid seg acc st :
  valid_segment float_of_str strptime seg ->
  exists pts,
    snd (Read_segment seg acc st) = Ok (acc ++ pts) /\
    length pts = path_points seg.
Proof.
  intros (Hs & He & Hpath).
  destruct (well_formed_parse $"startTime" Hs) as (s & ts & Es & Ets).
  destruct (well_formed_parse $"endTime" He) as (e & te & Ee & Ete).
  unfold read_segment, bind, lift, path_points.
  rewrite Es, Ets, Ee, Ete.
  destruct (Json.timelinePath seg) as [path|].
  - destruct (read_path_valid acc (Hpath path eq_refl)) as (pts & E & Hlen).
    exists pts. cbn. rewrite E. auto.
  - exists []. cbn. rewrite app_nil_r. auto.
Qed.

(** On a valid document the flattener returns one point per path entry. *)
Lemma flatten_valid segs : forall acc st,
  Forall (valid_segment float_of_str strptime) segs ->
  exists pts,
    snd (Flatten segs acc st) = Ok (acc ++ pts) /\
    length pts = total_path_points segs.
Proof.
  induction segs as [|seg segs IH]; intros acc st Hv; cbn.
  - exists []. rewrite app_nil_r. auto.
  - inversion Hv as [|? ? Hseg Hsegs]; subst.
    destruct (read_segment_valid acc st Hseg) as (pts1 & E1 & Hlen1).
    unfold bind.
    destruct (read_segment float_of_str strptime seg acc st)
      as [st' r]. cbn [snd] in E1. subst r.
    destruct (IH (acc ++ pts1) st' Hsegs) as (pts2 & E2 & Hlen2).
    exists (pts1 ++ pts2). rewrite app_assoc. split; [exact E2|].
    rewrite length_app, Hlen1, Hlen2. reflexivity.
Qed.

(** Lines 68-69 run for every segment, whatever else it holds. *)
Lemma read_segment_bad seg acc st :
  bad_segment strptime seg ->
  exists e, Read_segment seg acc st = (st, Raise e).
Proof.
  unfold read_segment, bind, lift, parse, getitem.
  intros [Hbad|Hbad].
  - destruct (Json.startTime seg) as [s|]; [|eauto].
    rewrite (Hbad s eq_refl). eauto.
  - destruct (Json.startTime seg) as [s|]; [|eauto].
    destruct (strptime s); [|eauto].
    destruct (Json.endTime seg) as [e|]; [|eauto].
    rewrite (Hbad e eq_refl). eauto.
Qed.

Lemma flatten_bad segs : forall acc st,
  Exists (bad_segment strptime) segs ->
  exists e, snd (Flatten segs acc st) = Raise e.
Proof.
  induction segs as [|seg segs IH]; intros acc st Hbad.
  - inversion Hbad.
  - cbn. unfold bind.
    destruct (read_segment float_of_str strptime seg acc st)
      as [st' [pts|e]] eqn:E.
    + inversion Hbad as [? ? Hseg|? ? Hsegs]; subst.
      * destruct (read_segment_bad acc st Hseg) as (e & E'). congruence.
      * apply IH, Hsegs.
    + exists e. reflexivity.
Qed.

End FlattenFacts.

Section MainFacts.

Variable float_of_str : str -> option float.
Variable strptime : str -> option datetime.
Variable strptime_date : str -> option date.
Variables basename dirname : str -> str.
Variable world : World.

Local Abbreviation Main :=
  (main float_of_str strptime strptime_date basename dirname world).

(** Lines 40-47 when both checks pass and the directory is ready: the two
    tests and the directory, if the output path has one. *)
Lemma main_opens args :
  path_exists world (Args.output args) = false ->
  path_exists world (Args.input args) = true ->
  directory_ready basename dirname world args = true ->
  Main args initial
  = bind (lift (json_load world (Args.input args)))
      (fun timeline =>
         bind (lift (getitem $"semanticSegments"
                       (Json.semanticSegments timeline)))
           (fun semantic_segments =>
              bind (emit (ELog INFO
                            (FoundSegments (length semantic_segments))))
                (fun _ =>
                   bind (flatten float_of_str strptime semantic_segments [])
                        (sequencer world strptime_date args))))
      (mkState 0
         ([EExists (Args.output args); EExists (Args.input args)]
          ++ (if negb (str_eqb (basename (Args.output args))
                               (Args.output args))
              then [EMakedirs (dirname (Args.output args))] else [])
          ++ [EOpen (Args.input args)])).
Proof.
  intros Hout Hin Hdir.
  unfold directory_ready, needs_directory in Hdir.
  unfold main, os_path_exists, open_and_load, os_makedirs.
  unfold bind at 1. unfold bind at 1. unfold emit at 1, ret at 1.
  rewrite Hout.
  unfold bind at 1. unfold bind at 1. unfold emit at 1, ret at 1.
  rewrite Hin. cbn [negb].
  unfold bind at 1.
  destruct (negb (str_eqb (basename (Args.output args)) (Args.output args))).
  - cbn [negb orb] in Hdir.
    destruct (makedirs world (dirname (Args.output args))) as [[]|e];
      [|discriminate].
    unfold bind at 1. unfold lift at 1. unfold emit at 1.
    unfold bind at 1. unfold bind at 1. unfold emit at 1.
    cbn [trace output_number app initial]. reflexivity.
  - unfold ret at 1.
    unfold bind at 1. unfold bind at 1. unfold emit at 1.
    cbn [trace output_number app initial]. reflexivity.
Qed.

(** Line 47 raises: the run ends there, after the two tests. *)
Lemma main_makedirs_fails args :
  path_exists world (Args.output args) = false ->
  path_exists world (Args.input args) = true ->
  directory_ready basename dirname world args = false ->
  exists e,
    makedirs world (dirname (Args.output args)) = Raise e /\
    Main args initial
    = (mkState 0 [EExists (Args.output args); EExists (Args.input args)],
       Raise e).
Proof.
  intros Hout Hin Hdir.
  unfold directory_ready, needs_directory in Hdir.
  unfold main, os_path_exists, open_and_load, os_makedirs.
  unfold bind at 1. unfold bind at 1. unfold emit at 1, ret at 1.
  rewrite Hout.
  unfold bind at 1. unfold bind at 1. unfold emit at 1, ret at 1.
  rewrite Hin. cbn [negb].
  unfold bind at 1.
  destruct (negb (str_eqb (basename (Args.output args)) (Args.output args)));
    [|discriminate].
  cbn [negb orb] in Hdir.
  destruct (makedirs world (dirname (Args.output args))) as [[]|e];
    [discriminate|].
  exists e. split; [reflexivity|].
  unfold bind at 1. unfold lift at 1. reflexivity.
Qed.

(** When both checks pass, the directory is ready and the document loads,
    lines 40-66 leave the events of [prelude], and the flattener and the
    sequencer follow. *)
Lemma main_proceeds args tl segs :
  path_exists world (Args.output args) = false ->
  path_exists world (Args.input args) = true ->
  directory_ready basename dirname world args = true ->
  json_load world (Args.input args) = Ok tl ->
  Json.semanticSegments tl = Some segs ->
  Main args initial
  = bind (flatten float_of_str strptime segs [])
         (sequencer world strptime_date args)
         (mkState 0 (prelude basename dirname args (length segs))).
Proof.
  intros Hout Hin Hdir Hload Hsegs.
  rewrite (main_opens args Hout Hin Hdir).
  unfold bind at 1. unfold lift at 1. rewrite Hload.
  unfold bind at 1. unfold lift at 1. rewrite Hsegs.
  unfold getitem. unfold bind at 1. unfold emit at 1.
  cbn [trace output_number]. unfold prelude.
  rewrite <- !app_assoc. reflexivity.
Qed.

Lemma chunks_prelude args n : chunks (prelude basename dirname args n) = [].
Proof.
  unfold prelude.
  destruct (negb (str_eqb (basename (Args.output args)) (Args.output args)));
    reflexivity.
Qed.

(** C2: on a valid document, with no start and no end date, the run ends
    normally when the directory of the output path is ready and every file
    can be written; and when it ends normally, the files written hold as
    many points as the [timelinePath] arrays of the segments have entries,
    a segment without [timelinePath] counting for none. *)
Theorem point_count_preserved args tl segs :
  Args.start args = None -> Args.end_ args = None ->
  path_exists world (Args.output args) = false ->
  path_exists world (Args.input args) = true ->
  json_load world (Args.input args) = Ok tl ->
  Json.semanticSegments tl = Some segs ->
  Forall (valid_segment float_of_str strptime) segs ->
  (directory_ready basename dirname world args = true ->
   accepts world args ->
   snd (Main args initial) = Ok tt) /\
  (snd (Main args initial) = Ok tt ->
   points_written (fst (Main args initial)) = total_path_points segs).
Proof.
  intros Hstart Hend Hout Hin Hload Hsegs Hvalid.
  destruct (directory_ready basename dirname world args) eqn:Hdir.
  2: { destruct (main_makedirs_fails args Hout Hin Hdir) as (e & _ & ->).
       split; discriminate. }
  rewrite (main_proceeds args Hout Hin Hdir Hload Hsegs).
  set (st0 := mkState 0 (prelude basename dirname args (length segs))).
  destruct (flatten_valid [] st0 Hvalid) as (pts & Eflat & Hlen).
  pose proof (flatten_quiet float_of_str strptime segs [] st0) as [Hfiles _].
  unfold bind.
  destruct (flatten float_of_str strptime segs [] st0) as [st1 r].
  cbn [fst snd] in *. subst r. cbn [app].
  destruct (@sequencer_complete_from world strptime_date args pts st1
              Hstart Hend) as (Hok & Hall).
  split; [intros _ Hacc; exact (Hok Hacc)|].
  intros Hdone. destruct (Hall Hdone) as (cs & Echunks & Hcat).
  unfold points_written. rewrite Echunks.
  assert (Hnone : chunks (trace st1) = []).
  { unfold chunks. rewrite Hfiles. apply chunks_prelude. }
  rewrite Hnone. cbn [app].
  rewrite <- length_concat, Hcat, sorted_length. exact Hlen.
Qed.

(** C10: a segment without a [startTime] or an [endTime] that matches the
    format, with or without a [timelinePath], makes the run end in an
    exception, and no file is written. *)
Theorem bad_segment_aborts_run args tl segs :
  path_exists world (Args.output args) = false ->
  path_exists world (Args.input args) = true ->
  json_load world (Args.input args) = Ok tl ->
  Json.semanticSegments tl = Some segs ->
  Exists (bad_segment strptime) segs ->
  (exists e, snd (Main args initial) = Raise e) /\
  files (trace (fst (Main args initial))) = [].
Proof.
  intros Hout Hin Hload Hsegs Hbad.
  destruct (directory_ready basename dirname world args) eqn:Hdir.
  2: { destruct (main_makedirs_fails args Hout Hin Hdir) as (e & _ & ->).
       split; [exists e|]; reflexivity. }
  rewrite (main_proceeds args Hout Hin Hdir Hload Hsegs).
  set (st0 := mkState 0 (prelude basename dirname args (length segs))).
  destruct (flatten_bad float_of_str [] st0 Hbad) as (e & Eflat).
  pose proof (flatten_quiet float_of_str strptime segs [] st0) as [Hfiles _].
  unfold bind.
  destruct (flatten float_of_str strptime segs [] st0) as [st1 r].
  cbn [fst snd] in *. subst r. cbn [fst snd].
  split; [exists e; reflexivity|].
  rewrite Hfiles.
  pose proof (chunks_prelude args (length segs)) as Hnone.
  unfold chunks in Hnone. apply map_eq_nil in Hnone. exact Hnone.
Qed.

(** C7: when the output path exists, the run tests that path, logs one
    error and returns: nothing is written, the input path is neither
    tested nor opened, and the counter stays at zero. *)
Theorem existing_output_stops_run args :
  path_exists world (Args.output args) = true ->
  Main args initial
  = (mkState 0 [EExists (Args.output args);
                ELog ERROR (OutputExists (Args.output args))], Ok tt) /\
  files (trace (fst (Main args initial))) = [] /\
  opened (trace (fst (Main args initial))) = [] /\
  tested (trace (fst (Main args initial))) = [Args.output args] /\
  errors (trace (fst (Main args initial)))
  = [OutputExists (Args.output args)].
Proof.
  intros Hout.
  assert (E : Main args initial
              = (mkState 0 [EExists (Args.output args);
                            ELog ERROR (OutputExists (Args.output args))],
                 Ok tt)).
  { unfold main, os_path_exists.
    unfold bind at 1. unfold bind at 1. unfold emit at 1, ret at 1.
    rewrite Hout. reflexivity. }
  rewrite E. repeat split.
Qed.

End MainFacts.

(** The sample document is valid. *)
Lemma sample_segments_valid :
  Forall (valid_segment Sample.float_of_str Sample.strptime) Sample.segments.
Proof.
  unfold Sample.segments.
  repeat (apply Forall_cons || apply Forall_nil).
  all: split; [|split].
  all: try (eexists; eexists; split; [reflexivity | vm_compute; reflexivity]).
  all: intros path Hpath; cbn in Hpath; try discriminate.
  all: injection Hpath as <-.
  all: repeat (apply Forall_cons || apply Forall_nil).
  all: split;
    (eexists; eexists; split; [reflexivity | vm_compute; reflexivity]).
Qed.

(** Three points in two paths and a visit: three points written. *)
Lemma point_count_preserved_witness :
  Args.start Sample.no_limits = None /\
  Args.end_ Sample.no_limits = None /\
  path_exists (Sample.world_with Sample.document)
              (Args.output Sample.no_limits) = false /\
  path_exists (Sample.world_with Sample.document)
              (Args.input Sample.no_limits) = true /\
  json_load (Sample.world_with Sample.document)
            (Args.input Sample.no_limits) = Ok Sample.document /\
  Json.semanticSegments Sample.document = Some Sample.segments /\
  Forall (valid_segment Sample.float_of_str Sample.strptime)
         Sample.segments /\
  directory_ready Sample.basename Sample.dirname
    (Sample.world_with Sample.document) Sample.no_limits = true /\
  accepts (Sample.world_with Sample.document) Sample.no_limits /\
  snd (main Sample.float_of_str Sample.strptime Sample.strptime_date
         Sample.basename Sample.dirname
         (Sample.world_with Sample.document) Sample.no_limits initial)
  = Ok tt /\
  points_written
    (fst (main Sample.float_of_str Sample.strptime Sample.strptime_date
            Sample.basename Sample.dirname
            (Sample.world_with Sample.document) Sample.no_limits initial))
  = total_path_points Sample.segments.
Proof.
  repeat (split; [reflexivity|]).
  split; [exact sample_segments_valid|].
  split; [reflexivity|].
  assert (Hacc : accepts (Sample.world_with Sample.document)
                   Sample.no_limits) by (intros n; reflexivity).
  split; [exact Hacc|].
  destruct (@point_count_preserved Sample.float_of_str Sample.strptime
              Sample.strptime_date Sample.basename Sample.dirname
              (Sample.world_with Sample.document) Sample.no_limits
              Sample.document Sample.segments eq_refl eq_refl eq_refl
              eq_refl eq_refl eq_refl sample_segments_valid)
    as [Hok Hall].
  split; [exact (Hok eq_refl Hacc) | exact (Hall (Hok eq_refl Hacc))].
Defined.

(** Against C2 as it is worded: [-o walks.gpx/day.gpx -c 1] on the sample
    document, which is valid, with no start and no end date.  Both checks
    pass and line 47 makes [walks.gpx]; the first file is to go to
    [walks_00000.gpx/day_00000.gpx], in a directory that is not there, so
    [tree.write] raises at the first flush: no point is written, of the
    three the document holds. *)
Lemma failed_write_loses_points :
  Args.start Sample.into_walks = None /\
  Args.end_ Sample.into_walks = None /\
  Forall (valid_segment Sample.float_of_str Sample.strptime)
         Sample.segments /\
  json_load Sample.world_of_walks (Args.input Sample.into_walks)
  = Ok Sample.document /\
  snd (main Sample.float_of_str Sample.strptime Sample.strptime_date
         Sample.basename Sample.dirname Sample.world_of_walks
         Sample.into_walks initial)
  = Raise OSError /\
  made (trace (fst (main Sample.float_of_str Sample.strptime
                      Sample.strptime_date Sample.basename Sample.dirname
                      Sample.world_of_walks Sample.into_walks initial)))
  = [$"walks.gpx"] /\
  points_written
    (fst (main Sample.float_of_str Sample.strptime Sample.strptime_date
            Sample.basename Sample.dirname Sample.world_of_walks
            Sample.into_walks initial))
  = 0 /\
  total_path_points Sample.segments = 3 /\
  points_written
    (fst (main Sample.float_of_str Sample.strptime Sample.strptime_date
            Sample.basename Sample.dirname Sample.world_of_walks
            Sample.into_walks initial))
  <> total_path_points Sample.segments.
Proof.
  split; [reflexivity|]. split; [reflexivity|].
  split; [exact sample_segments_valid|].
  split; [reflexivity|].
  split; [vm_compute; reflexivity|].
  split; [vm_compute; reflexivity|].
  split; [vm_compute; reflexivity|].
  split; [reflexivity|].
  vm_compute. discriminate.
Qed.

(** A visit without [startTime] after a good path: the run raises. *)
Lemma bad_segment_aborts_run_witness :
  path_exists (Sample.world_with Sample.broken_document)
              (Args.output Sample.no_limits) = false /\
  path_exists (Sample.world_with Sample.broken_document)
              (Args.input Sample.no_limits) = true /\
  json_load (Sample.world_with Sample.broken_document)
            (Args.input Sample.no_limits) = Ok Sample.broken_document /\
  Json.semanticSegments Sample.broken_document
  = Some Sample.broken_segments /\
  Exists (bad_segment Sample.strptime) Sample.broken_segments /\
  (exists e,
     snd (main Sample.float_of_str Sample.strptime Sample.strptime_date
            Sample.basename Sample.dirname
            (Sample.world_with Sample.broken_document) Sample.no_limits
            initial) = Raise e) /\
  files (trace (fst (main Sample.float_of_str Sample.strptime
                       Sample.strptime_date Sample.basename Sample.dirname
                       (Sample.world_with Sample.broken_document)
                       Sample.no_limits initial))) = [].
Proof.
  assert (Hbad : Exists (bad_segment Sample.strptime) Sample.broken_segments).
  { unfold Sample.broken_segments. apply Exists_cons_tl, Exists_cons_hd.
    left. intros s Hs. discriminate. }
  repeat (split; [reflexivity|]).
  split; [exact Hbad|].
  apply (@bad_segment_aborts_run Sample.float_of_str Sample.strptime
           Sample.strptime_date Sample.basename Sample.dirname
           (Sample.world_with Sample.broken_document) Sample.no_limits
           Sample.broken_document Sample.broken_segments);
    try reflexivity.
  exact Hbad.
Defined.

(** Input and output both there: two events, and the run is over. *)
Lemma existing_output_stops_run_witness :
  path_exists Sample.world_with_output (Args.output Sample.no_limits) = true
  /\ main Sample.float_of_str Sample.strptime Sample.strptime_date
       Sample.basename Sample.dirname Sample.world_with_output
       Sample.no_limits initial
     = (mkState 0 [EExists $"out.gpx"; ELog ERROR (OutputExists $"out.gpx")],
        Ok tt).
Proof.
  split; [reflexivity|].
  apply (@existing_output_stops_run Sample.float_of_str Sample.strptime
           Sample.strptime_date Sample.basename Sample.dirname
           Sample.world_with_output Sample.no_limits).
  reflexivity.
Defined.

(* ------------------------------------------------------------------ *)
(** ** Strings *)
(* ------------------------------------------------------------------ *)

Lemma startswith_app p v : startswith (p ++ v) p = true.
Proof.
  induction p as [|c p IH]; cbn; [reflexivity|].
  rewrite N.eqb_refl, IH. reflexivity.
Qed.

Lemma startswith_inv p : forall s,
  startswith s p = true -> exists v, s = p ++ v.
Proof.
  induction p as [|c p IH]; intros s H; cbn in H.
  - exists s. reflexivity.
  - destruct s as [|d s]; [discriminate|].
    apply andb_true_iff in H. destruct H as [Hc Hp].
    apply N.eqb_eq in Hc. subst d.
    destruct (IH s Hp) as (v & ->). exists v. reflexivity.
Qed.

(** A matched occurrence is dropped whole. *)
Lemma replace_from_skip old new u : forall t,
  replace_from old new (length u) (u ++ t) = replace_from old new 0 t.
Proof.
  induction u as [|c u IH]; intros t; cbn [length app].
  - reflexivity.
  - cbn [replace_from]. apply IH.
Qed.

(** At an occurrence of [old], [replace] puts [new] and goes on after
    it. *)
Lemma replace_at_occurrence c old new t :
  replace (c :: old ++ t) (c :: old) new = new ++ replace t (c :: old) new.
Proof.
  unfold replace. cbn [replace_from].
  change (c :: old ++ t) with ((c :: old) ++ t).
  rewrite startswith_app.
  replace (length (c :: old) - 1) with (length old) by (cbn; lia).
  rewrite replace_from_skip. reflexivity.
Qed.

(** Where [old] does not start, [replace] keeps the character. *)
Lemma replace_no_occurrence_here c s d old new :
  startswith (c :: s) (d :: old) = false ->
  replace (c :: s) (d :: old) new = c :: replace s (d :: old) new.
Proof.
  intros H. unfold replace. cbn [replace_from]. rewrite H. reflexivity.
Qed.

Lemma occurs_cons sub c s : occurs sub s -> occurs sub (c :: s).
Proof. intros (u & v & ->). exists (c :: u), v. reflexivity. Qed.

Lemma startswith_occurs s sub : startswith s sub = true -> occurs sub s.
Proof.
  intros H. destruct (startswith_inv _ _ H) as (v & ->).
  exists [], v. reflexivity.
Qed.

(** A string in which [old] does not occur is left as it is. *)
Lemma replace_absent d old new s :
  ~ occurs (d :: old) s -> replace s (d :: old) new = s.
Proof.
  induction s as [|c s IH]; intros Hno; [reflexivity|].
  rewrite replace_no_occurrence_here.
  - f_equal. apply IH. intros Ho. apply Hno, occurs_cons, Ho.
  - destruct (startswith (c :: s) (d :: old)) eqn:E; [|reflexivity].
    exfalso. apply Hno, startswith_occurs, E.
Qed.

(** The degree marker goes, and what stood in front of it stays. *)
Lemma replace_degree_marker a b :
  ~ occurs degree_marker a ->
  replace (a ++ degree_marker ++ b) degree_marker []
  = a ++ replace b degree_marker [].
Proof.
  unfold degree_marker.
  induction a as [|c a IH]; intros Hno.
  - cbn [app]. apply (replace_at_occurrence 194%N [176%N] [] b).
  - cbn [app]. rewrite replace_no_occurrence_here.
    + f_equal. apply IH. intros Ho. apply Hno, occurs_cons, Ho.
    + destruct (startswith (c :: a ++ [194%N; 176%N] ++ b) [194%N; 176%N])
        eqn:E; [|exact E].
      exfalso. cbn in E.
      destruct a as [|d a]; cbn in E.
      * rewrite andb_false_r in E. discriminate.
      * apply andb_true_iff in E. destruct E as [Ec Ed].
        rewrite andb_true_r in Ed.
        apply N.eqb_eq in Ec, Ed. subst c d.
        apply Hno. exists [], a. reflexivity.
Qed.

Lemma split_not_nil sep s : split sep s <> [].
Proof.
  destruct s as [|c s]; cbn; [discriminate|].
  destruct (N.eqb c sep); [discriminate|].
  destruct (split sep s); discriminate.
Qed.

Lemma join_split sep s : join sep (split sep s) = s.
Proof.
  induction s as [|c s IH]; [reflexivity|]. cbn [split].
  destruct (N.eqb_spec c sep) as [->|Hne].
  - pose proof (split_not_nil sep s) as Hnn.
    destruct (split sep s) as [|p ps]; [congruence|].
    cbn [join app] in *. rewrite IH. reflexivity.
  - pose proof (split_not_nil sep s) as Hnn.
    destruct (split sep s) as [|p ps]; [congruence|].
    destruct ps as [|q ps]; cbn [join app] in *; rewrite <- IH; reflexivity.
Qed.

Lemma split_parts_free sep s :
  Forall (fun p => ~ In sep p) (split sep s).
Proof.
  induction s as [|c s IH]; cbn [split].
  - constructor; [intros []|constructor].
  - destruct (N.eqb_spec c sep) as [->|Hne].
    + constructor; [intros []|exact IH].
    + destruct (split sep s) as [|p ps].
      * constructor; [|constructor]. intros [H|[]]. congruence.
      * inversion IH as [|? ? Hp Hps]; subst.
        constructor; [|exact Hps]. intros [H|H]; [congruence|auto].
Qed.

Lemma split_free sep a : ~ In sep a -> split sep a = [a].
Proof.
  induction a as [|c a IH]; intros Hfree; [reflexivity|]. cbn [split].
  destruct (N.eqb_spec c sep) as [->|Hne].
  - exfalso. apply Hfree. left. reflexivity.
  - rewrite IH; [reflexivity|]. intros H. apply Hfree. right. exact H.
Qed.

Lemma split_app sep a t :
  ~ In sep a -> split sep (a ++ sep :: t) = a :: split sep t.
Proof.
  induction a as [|c a IH]; intros Hfree; cbn [app split].
  - rewrite N.eqb_refl. reflexivity.
  - destruct (N.eqb_spec c sep) as [->|Hne].
    + exfalso. apply Hfree. left. reflexivity.
    + rewrite IH; [reflexivity|]. intros H. apply Hfree. right. exact H.
Qed.

(** [split] returns two parts exactly on two separator-free runs around
    one separator. *)
Lemma split_two sep s a b :
  split sep s = [a; b] <->
  s = a ++ sep :: b /\ ~ In sep a /\ ~ In sep b.
Proof.
  split.
  - intros E.
    pose proof (join_split sep s) as Hj.
    pose proof (split_parts_free sep s) as Hf.
    rewrite E in Hj, Hf. cbn [join] in Hj.
    inversion Hf as [|? ? Ha Hf']; subst.
    inversion Hf' as [|? ? Hb _]; subst. auto.
  - intros (-> & Ha & Hb).
    rewrite split_app by exact Ha. rewrite split_free by exact Hb.
    reflexivity.
Qed.

(* ------------------------------------------------------------------ *)
(** ** Coordinates *)
(* ------------------------------------------------------------------ *)

Lemma split_latlng_ok float_of_str latlng x y :
  split_latlng float_of_str latlng = Ok (x, y) <->
  two_numeric_parts float_of_str (replace latlng degree_marker []) x y.
Proof.
  unfold split_latlng, two_numeric_parts.
  set (s := replace latlng degree_marker []).
  split.
  - destruct (split comma s) as [|a [|b [|c ps]]] eqn:E; try discriminate.
    apply split_two in E. destruct E as (Es & Ha & Hb).
    destruct (float_of_str (strip a)) as [x0|] eqn:Ex; [|discriminate].
    destruct (float_of_str (strip b)) as [y0|] eqn:Ey; [|discriminate].
    intros H. injection H as <- <-. exists a, b. auto.
  - intros (a & b & Es & Ha & Hb & Ex & Ey).
    assert (E : split comma s = [a; b]) by (apply split_two; auto).
    rewrite E, Ex, Ey. reflexivity.
Qed.

Lemma split_latlng_raises float_of_str latlng e :
  split_latlng float_of_str latlng = Raise e -> e = ValueError.
Proof.
  unfold split_latlng.
  destruct (split comma (replace latlng degree_marker []))
    as [|a [|b [|c ps]]]; try congruence.
  destruct (float_of_str (strip a)); [|congruence].
  destruct (float_of_str (strip b)); congruence.
Qed.

(** C9: [split_latlng] drops the degree marker from the raw string, and
    then returns the two floats exactly when the rest is two parts around
    one comma that [float] accepts once trimmed; on every other string it
    raises, and what it raises is [ValueError]. *)
Theorem split_latlng_spec float_of_str latlng :
  (forall x y,
     split_latlng float_of_str latlng = Ok (x, y) <->
     two_numeric_parts float_of_str
       (replace latlng degree_marker []) x y) /\
  (split_latlng float_of_str latlng = Raise ValueError <->
   ~ exists x y,
       two_numeric_parts float_of_str
         (replace latlng degree_marker []) x y) /\
  (forall e, split_latlng float_of_str latlng = Raise e -> e = ValueError).
Proof.
  split; [|split].
  - intros x y. apply split_latlng_ok.
  - split.
    + intros Hraise (x & y & Hparts).
      apply split_latlng_ok in Hparts. congruence.
    + intros Hnone.
      destruct (split_latlng float_of_str latlng) as [[x y]|e] eqn:E.
      * exfalso. apply Hnone. exists x, y. apply split_latlng_ok, E.
      * f_equal. apply (split_latlng_raises _ _ E).
  - intros e. apply split_latlng_raises.
Qed.

(** The sample of the export: both markers go. *)
Example split_latlng_marked :
  split_latlng Sample.float_of_str
    ($"48.25" ++ degree_marker ++ $", 11.5" ++ degree_marker)
  = Ok (48.25%float, 11.5%float).
Proof. vm_compute. reflexivity. Qed.

(** One part, three parts, a part that is no number; and a degree sign
    (U+00B0) on its own is not the marker and stays in the part. *)
Example split_latlng_rejects :
  split_latlng Sample.float_of_str $"48.25" = Raise ValueError /\
  split_latlng Sample.float_of_str $"48.25, 11.5, 3" = Raise ValueError /\
  split_latlng Sample.float_of_str $"48.25, east" = Raise ValueError /\
  split_latlng Sample.float_of_str ($"48.25" ++ [176%N] ++ $", 11.5")
  = Raise ValueError.
Proof. vm_compute. repeat split; reflexivity. Qed.

(* ------------------------------------------------------------------ *)
(** ** File names *)
(* ------------------------------------------------------------------ *)

Lemma endswith_app stem ext : endswith (stem ++ ext) ext = true.
Proof. unfold endswith. rewrite rev_app_distr. apply startswith_app. Qed.

(** When [old] occurs in [stem ++ old] at the end only, [replace] changes
    that occurrence and nothing else. *)
Lemma replace_last_only d old new stem :
  (forall u v, stem ++ d :: old = u ++ (d :: old) ++ v -> v = []) ->
  replace (stem ++ d :: old) (d :: old) new = stem ++ new.
Proof.
  induction stem as [|c stem IH]; intros Honly.
  - cbn [app]. rewrite <- (app_nil_r old) at 1.
    rewrite replace_at_occurrence. cbn. apply app_nil_r.
  - cbn [app]. rewrite replace_no_occurrence_here.
    + f_equal. apply IH. intros u v E.
      apply (Honly (c :: u) v). cbn [app]. f_equal. exact E.
    + destruct (startswith (c :: stem ++ d :: old) (d :: old)) eqn:E;
        [|reflexivity].
      exfalso. apply startswith_inv in E. destruct E as (v & E).
      pose proof (Honly [] v E) as ->.
      apply (f_equal (@length _)) in E. cbn in E.
      rewrite !length_app in E. cbn in E. lia.
Qed.

(** The base path does not end in [.gpx]: the number and the extension
    are appended. *)
Lemma output_name_appends output n :
  endswith output $".gpx" = false ->
  output_name output n = output ++ $"_" ++ format_05 n ++ $".gpx".
Proof. intros H. unfold output_name. rewrite H. reflexivity. Qed.

(** The base path ends in [.gpx] and holds [.gpx] nowhere else: the number
    goes in front of the extension. *)
Lemma output_name_inserts stem n :
  (forall u v, stem ++ $".gpx" = u ++ $".gpx" ++ v -> v = []) ->
  output_name (stem ++ $".gpx") n
  = stem ++ $"_" ++ format_05 n ++ $".gpx".
Proof.
  intros Honly. unfold output_name. rewrite endswith_app.
  apply (replace_last_only 46%N [103%N; 112%N; 120%N]
           ($"_" ++ format_05 n ++ $".gpx") stem Honly).
Qed.

(** X4: when [.gpx] occurs in the output path nowhere but, at most, at its
    very end, the name of file [n] is [numbered_name]: the path with
    [_NNNNN] put in front of the trailing [.gpx], or with [_NNNNN.gpx]
    appended when the path does not end in [.gpx]. *)
Lemma output_name_numbered output n :
  (forall u v, output = u ++ $".gpx" ++ v -> v = []) ->
  output_name output n = numbered_name output n.
Proof.
  intros Honly. unfold numbered_name.
  destruct (endswith output $".gpx") eqn:E.
  - unfold endswith in E. apply startswith_inv in E.
    destruct E as (v & E).
    apply (f_equal (@rev _)) in E.
    rewrite rev_involutive, rev_app_distr, rev_involutive in E.
    subst output.
    rewrite output_name_inserts by exact Honly.
    rewrite length_app. change (length $".gpx") with 4.
    assert (Hlen : length (rev v) + 4 - 4 = length (rev v) + 0) by lia.
    rewrite Hlen, firstn_app_2. cbn [firstn]. rewrite app_nil_r.
    reflexivity.
  - apply output_name_appends, E.
Qed.

Lemma format_05_width n : 5 <= length (format_05 n).
Proof.
  unfold format_05. cbv zeta. rewrite length_app, repeat_length.
  unfold char. lia.
Qed.

Example output_name_examples :
  output_name $"out.gpx" 0 = $"out_00000.gpx" /\
  output_name $"tracks/out.gpx" 12 = $"tracks/out_00012.gpx" /\
  output_name $"out" 3 = $"out_00003.gpx" /\
  output_name $"out.gpx" 123456 = $"out_123456.gpx".
Proof. vm_compute. repeat split; reflexivity. Qed.

(** C6: a base path that holds [.gpx] twice gets the number twice: the
    [replace] of line 56 changes every occurrence, not the extension
    alone. *)
Theorem output_name_rewrites_every_extension :
  output_name $"walks.gpx/day.gpx" 0 = $"walks_00000.gpx/day_00000.gpx" /\
  numbered_name $"walks.gpx/day.gpx" 0 = $"walks.gpx/day_00000.gpx" /\
  output_name $"a.gpx.gpx" 7 = $"a_00007.gpx_00007.gpx" /\
  numbered_name $"a.gpx.gpx" 7 = $"a.gpx_00007.gpx".
Proof. vm_compute. repeat split; reflexivity. Qed.

(* ================================================================== *)
(** * Further properties of the sequencer *)
(* ================================================================== *)

Section WalkFacts.

Variable world : World.
Variable strptime_date : str -> option date.
Variable args : Args.t.
Variable points : list Point.
Variable st0 : State.

Local Abbreviation Walk := (walk strptime_date args points).
Local Abbreviation Stops := (stops world strptime_date args points).
Local Abbreviation So_far cs := (emitted args cs st0).

(** The date tests read the state and leave it alone. *)
Lemma before_start_pure i st :
  before_start strptime_date args points i st
  = (st, early strptime_date args points i).
Proof.
  unfold early, before_start, bind, lift, ret, parse.
  destruct (Args.start args) as [s|]; [|reflexivity].
  destruct (index points i); [|reflexivity].
  destruct (strptime_date s); reflexivity.
Qed.

Lemma after_end_pure i st :
  after_end strptime_date args points i st
  = (st, late strptime_date args points i).
Proof.
  unfold late, after_end, bind, lift, ret, parse.
  destruct (Args.end_ args) as [s|]; [|reflexivity].
  destruct (index points i); [|reflexivity].
  destruct (strptime_date s); reflexivity.
Qed.

Lemma early_skipped i :
  early strptime_date args points i = Ok true ->
  skipped strptime_date args points i.
Proof.
  unfold early, before_start, bind, lift, ret, parse, index, skipped.
  destruct (Args.start args) as [s|] eqn:Es; [|discriminate].
  destruct (nth_error points i) as [p|] eqn:Ep; [|discriminate].
  destruct (strptime_date s) as [d|] eqn:Ed; [|discriminate].
  cbn. intros H. injection H as H. exists s, d, p. repeat split; auto.
Qed.

Lemma walk_reach i start cs :
  Walk i start cs -> reach strptime_date args points i start cs.
Proof.
  induction 1.
  - apply reach_init.
  - eapply reach_skip; eauto. apply early_skipped. assumption.
  - eapply reach_keep; eauto.
  - eapply reach_flush; eauto.
Qed.

Lemma walk_anchor i start cs : Walk i start cs -> start < i.
Proof. intros H. apply walk_reach in H. eapply reach_anchor; eauto. Qed.

(** Lines 108-114, case by case: no flush, a flush that is written, or a
    flush whose write fails. *)
Lemma checks_cases i start st :
  start < i -> i < length points ->
  (exists start' st',
     bind (check_count world args points i start)
          (fun start1 => bind (check_days world args points i start1)
                              (fun start2 => ret (Next start2))) st
     = (st', Ok (Next start')) /\
     ((start' = start /\ st' = st /\
       ~ count_hit args i start /\ ~ days_hit args points i start)
      \/ (start' = i /\ st' = written args (slice points start i) st /\
          (count_hit args i start \/ days_hit args points i start))))
  \/ (exists e,
        bind (check_count world args points i start)
             (fun start1 => bind (check_days world args points i start1)
                                 (fun start2 => ret (Next start2))) st
        = (st, Raise e) /\
        write world (output_name (Args.output args) (output_number st))
        = Raise e).
Proof.
  intros Hs Hi.
  destruct (index_lt points Hi) as (p & Hp & Ep).
  assert (Hsl : start < length points) by lia.
  destruct (index_lt points Hsl) as (q & Hq & Eq).
  assert (Hne : points <> [])
    by (destruct points; cbn in Hi; [lia|congruence]).
  unfold check_count, check_days, bind, lift, ret.
  destruct ((0 <? Args.count args)%Z
            && (Args.count args <=? Z.of_nat i - Z.of_nat start)%Z) eqn:Ec.
  - apply andb_true_iff in Ec. destruct Ec as [Ec1 Ec2].
    destruct (dump_cases world args (slice points start i) st Hne)
      as [[_ ->]|(e & Hw & ->)]; [left | right; eauto].
    exists i, (written args (slice points start i) st). split.
    + destruct (0 <? Args.days args)%Z eqn:Ed; [|reflexivity].
      rewrite Ep, days_between_same.
      destruct (Args.days args <=? 0)%Z eqn:Ed0; [lia|reflexivity].
    + right. repeat split. left. unfold count_hit. lia.
  - assert (Hnc : ~ count_hit args i start).
    { unfold count_hit. intros [H1 H2].
      apply andb_false_iff in Ec. destruct Ec; lia. }
    destruct (0 <? Args.days args)%Z eqn:Ed; [|left].
    + rewrite Ep, Eq.
      destruct (Args.days args
                <=? days_between (date_of (time p)) (date_of (time q)))%Z
        eqn:Espan; [|left].
      * destruct (dump_cases world args (slice points start i) st Hne)
          as [[_ ->]|(e & Hw & ->)]; [left | right; eauto].
        exists i, (written args (slice points start i) st).
        split; [reflexivity|]. right. repeat split.
        right. exists p, q. repeat split; auto; lia.
      * exists start, st. split; [reflexivity|]. left. repeat split; auto.
        intros (p' & q' & Hp' & Hq' & Hd).
        rewrite Hp in Hp'. rewrite Hq in Hq'.
        injection Hp' as <-. injection Hq' as <-. lia.
    + exists start, st. split; [reflexivity|]. left. repeat split; auto.
      intros (p' & q' & _ & _ & Hd). lia.
Qed.

(** One turn of the loop is one turn of the walk, or leaves the loop. *)
Lemma body_walk i start cs :
  Walk i start cs -> i < length points ->
  exists cs' t,
    body world strptime_date args points i start (So_far cs)
    = (So_far cs', t) /\
    match t with
    | Ok (Next start') => Walk (S i) start' cs'
    | Ok Break =>
        cs' = cs /\ Stops (output_number (So_far cs)) i start (Ok start)
    | Raise e =>
        cs' = cs /\ Stops (output_number (So_far cs)) i start (Raise e)
    end.
Proof.
  intros Hw Hi. pose proof (walk_anchor Hw) as Hs.
  assert (Hne : points <> [])
    by (destruct points; cbn in Hi; [lia|congruence]).
  unfold body. unfold bind at 1. rewrite before_start_pure.
  destruct (early strptime_date args points i) as [[|]|e] eqn:Eearly.
  - exists cs, (Ok (Next i)). split; [reflexivity|].
    apply walk_skip with start; auto.
  - unfold bind at 1. rewrite after_end_pure.
    destruct (late strptime_date args points i) as [[|]|e] eqn:Elate.
    + exists cs, (Ok Break). split; [reflexivity|]. split; [reflexivity|].
      apply stops_break; auto.
    + destruct (checks_cases (So_far cs) Hs Hi)
        as [(start' & st' & E & [(-> & -> & Hc & Hd)|(-> & -> & Hh)])
           |(e & E & Hwrite)];
        rewrite E.
      * exists cs, (Ok (Next start)). split; [reflexivity|].
        apply walk_keep; auto.
      * exists (cs ++ [slice points start i]), (Ok (Next i)).
        rewrite emitted_snoc. split; [reflexivity|].
        apply walk_flush; auto.
      * exists cs, (Raise e). split; [reflexivity|].
        split; [reflexivity|]. apply stops_failed; auto.
    + exists cs, (Raise e). split; [reflexivity|]. split; [reflexivity|].
      apply stops_raise; auto.
  - exists cs, (Raise e). split; [reflexivity|]. split; [reflexivity|].
    apply stops_raise; auto.
Qed.

(** The loop runs along the walk until it is left. *)
Lemma scan_walk k : forall i start cs,
  Walk i start cs ->
  length points <= i + k -> (k = 0 \/ i + k <= length points) ->
  exists j start' cs' r,
    scan world strptime_date args points (seq i k) start (So_far cs)
    = (So_far cs', r) /\
    Walk j start' cs' /\ Stops (output_number (So_far cs')) j start' r.
Proof.
  induction k as [|k IH]; intros i start cs Hw Hlo Hhi.
  - exists i, start, cs, (Ok start). cbn. unfold ret.
    repeat split; auto. apply stops_done. lia.
  - assert (Hi : i < length points) by lia.
    destruct (body_walk Hw Hi) as (cs' & t & E & Ht).
    cbn [seq scan]. unfold bind. rewrite E.
    destruct t as [[s'|]|e].
    + apply IH; auto; lia.
    + destruct Ht as [-> Hstop].
      exists i, start, cs, (Ok start). unfold ret. auto.
    + destruct Ht as [-> Hstop].
      exists i, start, cs, (Raise e). auto.
Qed.

End WalkFacts.

(** A run of lines 97-115 is a walk, then the last flush unless the walk
    ended in an exception; the result is [Raise] also when the last flush
    fails. *)
Lemma sequencer_walk world strptime_date args pts st0 :
  exists j start cs r,
    walk strptime_date args (sorted time_key pts) j start cs /\
    stops world strptime_date args (sorted time_key pts)
          (output_number (emitted args cs st0)) j start r /\
    sequencer world strptime_date args pts st0
    = (emitted args (outcome_chunks (sorted time_key pts) start cs r) st0,
       outcome_result r).
Proof.
  unfold sequencer, chunk_all, bind.
  generalize (sorted time_key pts). intros points.
  destruct (@scan_walk world strptime_date args points st0
              (length points - 1) 1 0 [])
    as (j & start & cs & r & Escan & Hw & Hstop).
  - apply walk_init.
  - lia.
  - lia.
  - cbn [emitted fold_left] in Escan. rewrite Escan.
    destruct r as [s|e].
    2: { exists j, start, cs, (Raise e). auto. }
    assert (s = start) as -> by (inversion Hstop; reflexivity).
    destruct points as [|p ps] eqn:Es.
    { exists j, start, cs, (Ok start). repeat split; auto. }
    rewrite <- Es in *.
    assert (Hne : points <> []) by (rewrite Es; discriminate).
    assert (Eo : outcome_chunks points start cs (Ok start)
                 = cs ++ [skipn start points])
      by (rewrite Es; reflexivity).
    destruct (dump_cases world args (skipn start points)
                (emitted args cs st0) Hne) as [[_ ->]|(e & Hwrite & ->)].
    + exists j, start, cs, (Ok start).
      split; [exact Hw|]. split; [exact Hstop|].
      rewrite Eo, emitted_snoc. reflexivity.
    + exists j, start, cs, (Raise e).
      split; [exact Hw|]. split; [apply stops_failed; assumption|].
      reflexivity.
Qed.

Section WalkInvariants.

Variable world : World.
Variable strptime_date : str -> option date.
Variable args : Args.t.
Variable points : list Point.

Local Abbreviation Walking := (walk strptime_date args points).

Lemma nth_error_slice {A} (l : list A) a b k :
  nth_error (slice l a b) k
  = if a + k <? b then nth_error l (a + k) else None.
Proof.
  unfold slice. rewrite nth_error_skipn, nth_error_firstn. reflexivity.
Qed.

(** What holds of the elements at the indices of a slice holds of the
    slice. *)
Lemma Forall_slice {A} (P : A -> Prop) (l : list A) a b :
  (forall j x, a <= j < b -> nth_error l j = Some x -> P x) ->
  Forall P (slice l a b).
Proof.
  intros H. apply Forall_forall. intros x Hx.
  apply In_nth_error in Hx. destruct Hx as (k & Hk).
  rewrite nth_error_slice in Hk.
  destruct (Nat.ltb_spec (a + k) b) as [Hlt|]; [|discriminate].
  apply (H (a + k)); [lia | exact Hk].
Qed.

Lemma tl_slice {A} (l : list A) a b : tl (slice l a b) = slice l (S a) b.
Proof.
  unfold slice. rewrite <- (skipn_skipn 1 a).
  destruct (skipn a (firstn b l)); reflexivity.
Qed.

Lemma early_false_not_before i p :
  nth_error points i = Some p ->
  early strptime_date args points i = Ok false ->
  not_before strptime_date args p.
Proof.
  unfold early, before_start, bind, lift, ret, parse, index, not_before.
  intros Hp. rewrite Hp. intros H s d Es Ed. rewrite Es, Ed in H.
  cbn in H. congruence.
Qed.

(** Every point after the anchor has passed the start test, and so has
    every point but the first of every chunk flushed. *)
Lemma walk_not_before i start cs :
  Walking i start cs ->
  (forall j p, start < j < i -> nth_error points j = Some p ->
               not_before strptime_date args p) /\
  Forall (fun c => Forall (not_before strptime_date args) (tl c)) cs.
Proof.
  induction 1 as [|i start cs Hw IH Hi He|i start cs Hw IH Hi He Hl Hc Hd
                  |i start cs Hw IH Hi He Hl Hh].
  - split; [intros; lia | constructor].
  - destruct IH as [IH1 IH2]. split; [intros; lia | exact IH2].
  - destruct IH as [IH1 IH2]. split; [|exact IH2].
    intros j p Hj Hp. destruct (Nat.eq_dec j i) as [->|Hne].
    + eapply early_false_not_before; eauto.
    + apply (IH1 j); auto. lia.
  - destruct IH as [IH1 IH2]. split; [intros; lia|].
    apply Forall_app. split; [exact IH2|].
    constructor; [|constructor].
    rewrite tl_slice. apply Forall_slice.
    intros j x Hj Hx. apply (IH1 j); auto.
Qed.

(** Once a point has passed both date tests, the dates given parse, and no
    later test raises. *)
Lemma early_total i j b :
  i < length points -> j < length points ->
  early strptime_date args points i = Ok b ->
  exists b', early strptime_date args points j = Ok b'.
Proof.
  unfold early, before_start, bind, lift, ret, parse.
  intros Hi Hj.
  destruct (index_lt points Hi) as (p & _ & ->).
  destruct (index_lt points Hj) as (q & _ & ->).
  destruct (Args.start args) as [s|]; [|eauto].
  destruct (strptime_date s); cbn; [eauto | discriminate].
Qed.

Lemma late_total i j b :
  i < length points -> j < length points ->
  late strptime_date args points i = Ok b ->
  exists b', late strptime_date args points j = Ok b'.
Proof.
  unfold late, after_end, bind, lift, ret, parse.
  intros Hi Hj.
  destruct (index_lt points Hi) as (p & _ & ->).
  destruct (index_lt points Hj) as (q & _ & ->).
  destruct (Args.end_ args) as [s|]; [|eauto].
  destruct (strptime_date s); cbn; [eauto | discriminate].
Qed.

(** The date tests raise [ValueError] only, and only on a date that does
    not parse. *)
Lemma early_raises i e :
  i < length points ->
  early strptime_date args points i = Raise e ->
  e = ValueError /\
  exists s, Args.start args = Some s /\ strptime_date s = None.
Proof.
  unfold early, before_start, bind, lift, ret, parse.
  intros Hi. destruct (index_lt points Hi) as (p & _ & ->).
  destruct (Args.start args) as [s|]; [|discriminate].
  destruct (strptime_date s) eqn:E; cbn; [discriminate|].
  intros H. injection H as <-. eauto.
Qed.

Lemma late_raises i e :
  i < length points ->
  late strptime_date args points i = Raise e ->
  e = ValueError /\
  exists s, Args.end_ args = Some s /\ strptime_date s = None.
Proof.
  unfold late, after_end, bind, lift, ret, parse.
  intros Hi. destruct (index_lt points Hi) as (p & _ & ->).
  destruct (Args.end_ args) as [s|]; [|discriminate].
  destruct (strptime_date s) eqn:E; cbn; [discriminate|].
  intros H. injection H as <-. eauto.
Qed.

(** A chunk is flushed only after both date tests have returned. *)
Lemma walk_flushed_parses i start cs :
  Walking i start cs -> cs <> [] ->
  exists k, k < length points /\
    early strptime_date args points k = Ok false /\
    late strptime_date args points k = Ok false.
Proof.
  induction 1 as [|i start cs Hw IH Hi He|i start cs Hw IH Hi He Hl Hc Hd
                  |i start cs Hw IH Hi He Hl Hh]; intros Hne; auto.
  - congruence.
  - exists i. auto.
Qed.

(** The walk starts with skips only as long as nothing is kept: an
    exception of a date test comes before the first flush.  Any other
    exception is the one of the write of the next file. *)
Lemma walk_raise_cases n j start cs e :
  Walking j start cs ->
  stops world strptime_date args points n j start (Raise e) ->
  (cs = [] /\ e = ValueError /\
   exists s, (Args.start args = Some s \/ Args.end_ args = Some s)
             /\ strptime_date s = None)
  \/ (points <> [] /\
      write world (output_name (Args.output args) n) = Raise e).
Proof.
  intros Hw Hstop.
  inversion Hstop as [| |e' Hj Hraise|e' Hne Hwrite]; subst;
    [left | right; auto].
  assert (Hwhy : e = ValueError /\
                 exists s, (Args.start args = Some s \/ Args.end_ args = Some s)
                           /\ strptime_date s = None).
  { destruct Hraise as [He|[_ Hl]].
    - destruct (early_raises Hj He) as (-> & s & Es & En). eauto.
    - destruct (late_raises Hj Hl) as (-> & s & Es & En). eauto. }
  split; [|exact Hwhy].
  destruct cs as [|c cs]; [reflexivity|]. exfalso.
  destruct (walk_flushed_parses Hw) as (k & Hk & Hek & Hlk); [discriminate|].
  destruct (early_total Hk Hj Hek) as (b1 & E1).
  destruct (late_total Hk Hj Hlk) as (b2 & E2).
  destruct Hraise as [He|[_ Hl]]; congruence.
Qed.

End WalkInvariants.

Lemma chunks_sequenced_walk world strptime_date args pts :
  exists j start cs r,
    walk strptime_date args (sorted time_key pts) j start cs /\
    stops world strptime_date args (sorted time_key pts)
          (output_number (emitted args cs initial)) j start r /\
    sequencer world strptime_date args pts initial
    = (emitted args (outcome_chunks (sorted time_key pts) start cs r)
         initial, outcome_result r) /\
    chunks (trace (sequenced world strptime_date args pts))
    = outcome_chunks (sorted time_key pts) start cs r.
Proof.
  destruct (sequencer_walk world strptime_date args pts initial)
    as (j & start & cs & r & Hw & Hstop & E).
  exists j, start, cs, r. repeat split; auto.
  unfold sequenced. rewrite E. cbn [fst]. rewrite chunks_emitted.
  reflexivity.
Qed.

Lemma late_without_end strptime_date args points i :
  Args.end_ args = None -> late strptime_date args points i = Ok false.
Proof. intros H. unfold late, after_end. rewrite H. reflexivity. Qed.

Lemma walk_index_bound strptime_date args points i start cs :
  walk strptime_date args points i start cs ->
  i <= Nat.max 1 (length points).
Proof. intros H. apply walk_reach in H. eapply reach_index_bound; eauto. Qed.

(** X6: With a start date and no end date, in every file written every point
    but the first is on or after the start date. *)
Theorem start_date_guards_all_but_first world strptime_date args pts :
  Args.end_ args = None ->
  Forall (fun c => Forall (not_before strptime_date args) (tl c))
         (chunks (trace (sequenced world strptime_date args pts))).
Proof.
  intros Hend.
  destruct (chunks_sequenced_walk world strptime_date args pts)
    as (j & start & cs & r & Hw & Hstop & _ & ->).
  destruct (walk_not_before Hw) as [Hopen Hcs].
  unfold outcome_chunks.
  destruct r as [s|e]; [|exact Hcs].
  destruct (sorted time_key pts) as [|p0 ps]; [exact Hcs|].
  set (points := p0 :: ps) in *.
  apply Forall_app. split; [exact Hcs|].
  constructor; [|constructor].
  rewrite skipn_slice, tl_slice. apply Forall_slice.
  intros k x Hk Hx.
  inversion Hstop as [Hdone|Hlt He Hl| |]; subst.
  - apply (Hopen k); auto. lia.
  - rewrite late_without_end in Hl by exact Hend. discriminate.
Qed.

Lemma start_date_guards_all_but_first_witness :
  Args.end_ Sample.from_jan3 = None /\
  Forall (fun c => Forall (not_before Sample.strptime_date Sample.from_jan3)
                          (tl c))
    (chunks (trace (sequenced Sample.writable Sample.strptime_date
          Sample.from_jan3
                      Cases.week))).
Proof.
  split; [reflexivity|].
  apply (@start_date_guards_all_but_first Sample.writable Sample.strptime_date
           Sample.from_jan3 Cases.week).
  reflexivity.
Defined.

(** X7: Without a start date a run that ends normally writes every point,
    whatever the end date: the files, end to end, are the sorted list. *)
Theorem end_date_drops_nothing world strptime_date args pts :
  Args.start args = None ->
  snd (sequencer world strptime_date args pts initial) = Ok tt ->
  concat (chunks (trace (sequenced world strptime_date args pts)))
  = sorted time_key pts.
Proof.
  intros Hstart Hok.
  destruct (chunks_sequenced_walk world strptime_date args pts)
    as (j & start & cs & r & Hw & Hstop & E & ->).
  rewrite E in Hok. cbn [snd] in Hok.
  pose proof (reach_cover Hstart (walk_reach Hw)) as Hcover.
  destruct r as [s|e]; [|discriminate].
  assert (s = start) as -> by (inversion Hstop; reflexivity).
  unfold outcome_chunks.
  destruct (sorted time_key pts) as [|p ps].
  - rewrite Hcover. apply firstn_nil.
  - rewrite concat_app, Hcover. cbn [concat]. rewrite app_nil_r.
    apply firstn_skipn.
Qed.

Lemma end_date_drops_nothing_witness :
  Args.start Cases.until_jan1 = None /\
  snd (sequencer Sample.writable Sample.strptime_date
        Cases.until_jan1 Cases.week initial)
  = Ok tt /\
  concat (chunks (trace (sequenced Sample.writable Sample.strptime_date
        Cases.until_jan1
                           Cases.week)))
  = sorted time_key Cases.week.
Proof.
  split; [reflexivity|]. split; [vm_compute; reflexivity|].
  apply (@end_date_drops_nothing Sample.writable Sample.strptime_date
        Cases.until_jan1
           Cases.week).
  - reflexivity.
  - vm_compute. reflexivity.
Defined.

(** X8: A run of the sequencer raises for two reasons only.  Either a
    start or end date does not parse: then the exception is [ValueError]
    and the run has written no file and logged nothing.  Or [tree.write]
    raises: then the exception is the one it raised for the file whose
    number is the number of files written so far. *)
Theorem sequencer_raises_for_date_or_write world strptime_date args pts e :
  snd (sequencer world strptime_date args pts initial) = Raise e ->
  (e = ValueError /\
   sequenced world strptime_date args pts = initial /\
   exists s, (Args.start args = Some s \/ Args.end_ args = Some s)
             /\ strptime_date s = None)
  \/ (pts <> [] /\
      write world
        (output_name (Args.output args)
           (length (files (trace (sequenced world strptime_date args
                                    pts)))))
      = Raise e).
Proof.
  intros Hraise.
  destruct (sequencer_walk world strptime_date args pts initial)
    as (j & start & cs & r & Hw & Hstop & E).
  unfold sequenced. rewrite E in *. cbn [fst snd] in *.
  destruct r as [s|e']; [discriminate|].
  cbn in Hraise. injection Hraise as ->.
  destruct (walk_raise_cases Hw Hstop) as [(-> & -> & Hwhy)|[Hne Hwrite]].
  - left. repeat split; auto.
  - right. split.
    + intros ->. apply Hne. reflexivity.
    + cbn [outcome_chunks]. rewrite <- chunks_files, chunks_emitted.
      rewrite output_number_emitted in Hwrite. exact Hwrite.
Qed.

Lemma sequencer_raises_for_date_or_write_witness :
  snd (sequencer Sample.world_of_walks Sample.strptime_date
         Sample.into_walks (List.map Sample.jan [1; 2]%Z) initial)
  = Raise OSError /\
  ((OSError = ValueError /\
    sequenced Sample.world_of_walks Sample.strptime_date Sample.into_walks
      (List.map Sample.jan [1; 2]%Z) = initial /\
    exists s, (Args.start Sample.into_walks = Some s
               \/ Args.end_ Sample.into_walks = Some s)
              /\ Sample.strptime_date s = None)
   \/ (List.map Sample.jan [1; 2]%Z <> [] /\
       write Sample.world_of_walks
         (output_name (Args.output Sample.into_walks)
            (length (files (trace (sequenced Sample.world_of_walks
                                     Sample.strptime_date
                                     Sample.into_walks
                                     (List.map Sample.jan [1; 2]%Z))))))
       = Raise OSError)).
Proof.
  split; [vm_compute; reflexivity|].
  apply (@sequencer_raises_for_date_or_write Sample.world_of_walks
           Sample.strptime_date Sample.into_walks
           (List.map Sample.jan [1; 2]%Z) OSError).
  vm_compute. reflexivity.
Defined.

(** The other reason: [--start yesterday] does not parse, and nothing is
    written. *)
Example unparsable_start_date_raises :
  snd (sequencer Sample.writable Sample.strptime_date
         Cases.start_yesterday Cases.week initial) = Raise ValueError /\
  sequenced Sample.writable Sample.strptime_date Cases.start_yesterday
    Cases.week = initial.
Proof. vm_compute. split; reflexivity. Qed.

Section Limits.

Variable strptime_date : str -> option date.
Variable args : Args.t.
Variable points : list Point.

(** With a count limit the anchor is never more than the limit behind, and
    no flushed chunk is longer than the limit. *)
Lemma reach_count_bound i start cs :
  (0 < Args.count args)%Z ->
  reach strptime_date args points i start cs ->
  (Z.of_nat i - Z.of_nat start <= Args.count args)%Z /\
  Forall (fun c => (Z.of_nat (length c) <= Args.count args)%Z) cs.
Proof.
  intros Hn.
  induction 1 as [|i start cs Hr IH Hi Hs|i start cs Hr IH Hi Hc Hd
                  |i start cs Hr IH Hi Hh].
  - split; [lia | constructor].
  - destruct IH as [IH1 IH2]. split; [lia | exact IH2].
  - destruct IH as [IH1 IH2]. split; [|exact IH2].
    unfold count_hit in Hc. lia.
  - destruct IH as [IH1 IH2]. split; [lia|].
    apply Forall_app. split; [exact IH2|].
    constructor; [|constructor].
    pose proof (reach_anchor Hr).
    rewrite slice_length by lia. lia.
Qed.

(** Without a count limit and a day limit the loop flushes nothing. *)
Lemma reach_no_limit i start cs :
  (Args.count args <= 0)%Z -> (Args.days args <= 0)%Z ->
  reach strptime_date args points i start cs -> cs = [].
Proof.
  intros Hc Hd.
  induction 1 as [|i start cs Hr IH Hi Hs|i start cs Hr IH Hi Hnc Hnd
                  |i start cs Hr IH Hi Hh]; auto.
  exfalso. destruct Hh as [Hh|(p & q & _ & _ & Hh)].
  - unfold count_hit in Hh. lia.
  - lia.
Qed.

End Limits.

(** X9: With a count limit [N > 0] and no end date no file holds more than [N]
    points, whatever the day limit and the start date. *)
Theorem count_limit_bounds_every_chunk world strptime_date args pts (N : Z) :
  (0 < N)%Z -> Args.count args = N -> Args.end_ args = None ->
  Forall (fun c => (Z.of_nat (length c) <= N)%Z)
         (chunks (trace (sequenced world strptime_date args pts))).
Proof.
  intros HN Hcount Hend.
  destruct (sequencer_run world strptime_date args pts)
    as (j & start & cs & r & Hr & Hl & Eres & Echunks & Enum).
  rewrite Echunks. subst N.
  destruct (reach_count_bound HN Hr) as [Hgap Hcs].
  unfold outcome_chunks.
  destruct r as [s|e]; [|exact Hcs].
  destruct (sorted time_key pts) as [|p0 ps]; [exact Hcs|].
  set (points := p0 :: ps) in *.
  apply Forall_app. split; [exact Hcs|].
  constructor; [|constructor].
  rewrite length_skipn.
  inversion Hl as [Hdone|Hbreak Hne| |]; [|congruence].
  pose proof (reach_anchor Hr). lia.
Qed.

Lemma count_limit_bounds_every_chunk_witness :
  (0 < 2)%Z /\ Args.count Cases.mixed = 2%Z /\
  Args.end_ Cases.mixed = None /\
  Forall (fun c => (Z.of_nat (length c) <= 2)%Z)
    (chunks (trace (sequenced Sample.writable Sample.strptime_date
          Cases.mixed Cases.week))).
Proof.
  split; [lia|]. split; [reflexivity|]. split; [reflexivity|].
  apply (@count_limit_bounds_every_chunk Sample.writable Sample.strptime_date
        Cases.mixed
           Cases.week 2%Z); [lia | reflexivity | reflexivity].
Defined.

(** X10: Without a count limit and a day limit the run writes at most one
    file; and without date filters, when the file of number 0 can be
    written, it writes exactly one whenever there is a point, holding the
    whole sorted list. *)
Theorem no_limit_one_file world strptime_date args pts :
  (Args.count args <= 0)%Z -> (Args.days args <= 0)%Z ->
  length (files (trace (sequenced world strptime_date args pts))) <= 1 /\
  (Args.start args = None -> Args.end_ args = None -> pts <> [] ->
   write world (output_name (Args.output args) 0) = Ok tt ->
   chunks (trace (sequenced world strptime_date args pts))
   = [sorted time_key pts]).
Proof.
  intros Hc Hd.
  destruct (chunks_sequenced_walk world strptime_date args pts)
    as (j & start & cs & r & Hw & Hstop & _ & Echunks).
  rewrite <- chunks_files, Echunks.
  pose proof (walk_reach Hw) as Hr.
  pose proof (reach_no_limit Hc Hd Hr) as ->.
  split.
  - unfold outcome_chunks. destruct r; [|cbn; lia].
    destruct (sorted time_key pts); cbn; lia.
  - intros Hstart Hend Hne Hwrite.
    pose proof (reach_cover Hstart Hr) as Hcover. cbn in Hcover.
    assert (Hsorted : sorted time_key pts <> []).
    { intros E. apply (f_equal (@length _)) in E.
      rewrite sorted_length in E. destruct pts; [congruence|discriminate]. }
    destruct r as [s|e].
    + unfold outcome_chunks.
      destruct (sorted time_key pts) as [|p ps] eqn:Es; [congruence|].
      cbn [app]. f_equal. rewrite <- Es.
      rewrite <- (firstn_skipn start (sorted time_key pts)) at 2.
      rewrite <- Es in Hcover. rewrite <- Hcover. reflexivity.
    + exfalso.
      destruct (walk_raise_cases Hw Hstop)
        as [(_ & _ & s & [Es|Es] & _)|[_ Hfail]]; try congruence.
      cbn in Hfail. congruence.
Qed.

Lemma no_limit_one_file_witness :
  (Args.count Sample.no_limits <= 0)%Z /\
  (Args.days Sample.no_limits <= 0)%Z /\
  Args.start Sample.no_limits = None /\ Args.end_ Sample.no_limits = None /\
  Cases.week <> [] /\
  write Sample.writable (output_name (Args.output Sample.no_limits) 0)
  = Ok tt /\
  chunks (trace (sequenced Sample.writable Sample.strptime_date
                   Sample.no_limits Cases.week))
  = [sorted time_key Cases.week].
Proof.
  split; [cbn; lia|]. split; [cbn; lia|].
  split; [reflexivity|]. split; [reflexivity|]. split; [discriminate|].
  split; [reflexivity|].
  apply (proj2 (@no_limit_one_file Sample.writable Sample.strptime_date
                  Sample.no_limits Cases.week
                  ltac:(cbn; lia) ltac:(cbn; lia)));
    [reflexivity | reflexivity | discriminate | reflexivity].
Defined.

Lemma length_concat_uniform {A} (cs : list (list A)) (N : Z) :
  Forall (fun c => Z.of_nat (length c) = N) cs ->
  Z.of_nat (length (concat cs)) = (Z.of_nat (length cs) * N)%Z.
Proof.
  induction 1 as [|c cs Hc Hcs IH]; [reflexivity|].
  cbn [concat length]. rewrite length_app. lia.
Qed.

(** X11: With a count limit [N > 0], no day limit and no date filter, a
    run that ends normally has put [n] points into [n / N] files, rounded
    up. *)
Theorem count_limit_number_of_files world strptime_date args pts (N : Z) :
  (0 < N)%Z -> Args.count args = N -> (Args.days args <= 0)%Z ->
  Args.start args = None -> Args.end_ args = None ->
  snd (sequencer world strptime_date args pts initial) = Ok tt ->
  Z.of_nat (length (files (trace (sequenced world strptime_date args pts))))
  = ((Z.of_nat (length pts) + N - 1) / N)%Z.
Proof.
  intros HN Hcount Hdays Hstart Hend Hok.
  destruct (sequencer_run world strptime_date args pts)
    as (j & start & cs & r & Hr & Hl & Eres & Echunks & Enum).
  rewrite <- chunks_files, Echunks. subst N.
  rewrite Eres in Hok.
  assert (Hpos : (0 < Args.count args)%Z) by exact HN.
  destruct (reach_count Hpos Hdays Hr) as [Hgap Hcs].
  pose proof (reach_cover Hstart Hr) as Hcover.
  pose proof (length_concat_uniform Hcs) as Hlen.
  rewrite Hcover, length_firstn in Hlen.
  rewrite <- (sorted_length time_key pts).
  pose proof (reach_anchor Hr) as Hanchor.
  pose proof (reach_index_bound Hr) as Hbound.
  destruct r as [s|e]; [|discriminate].
  assert (s = start) as -> by (inversion Hl; reflexivity).
  inversion Hl as [Hdone|Hbreak Hne| |]; [|congruence].
  unfold outcome_chunks.
  destruct (sorted time_key pts) as [|p0 ps].
  - cbn [length] in *. rewrite Nat.min_0_r in Hlen.
    assert (length cs = 0) as -> by nia.
    symmetry. apply Z.div_small. lia.
  - set (points := p0 :: ps) in *.
    assert (Hj : j = length points) by (cbn in *; lia). subst j.
    rewrite Nat.min_l in Hlen by lia.
    rewrite length_app. cbn [length].
    apply Z.div_unique
      with (r := (Z.of_nat (length points) - Z.of_nat start - 1)%Z);
      [left; lia | nia].
Qed.

Lemma count_limit_number_of_files_witness :
  (0 < 2)%Z /\ Args.count Sample.two_per_file = 2%Z /\
  (Args.days Sample.two_per_file <= 0)%Z /\
  Args.start Sample.two_per_file = None /\
  Args.end_ Sample.two_per_file = None /\
  snd (sequencer Sample.writable Sample.strptime_date Sample.two_per_file
         Cases.week initial) = Ok tt /\
  Z.of_nat (length (files (trace (sequenced Sample.writable
                                    Sample.strptime_date
                                    Sample.two_per_file Cases.week))))
  = ((Z.of_nat (length Cases.week) + 2 - 1) / 2)%Z.
Proof.
  split; [lia|]. split; [reflexivity|]. split; [cbn; lia|].
  split; [reflexivity|]. split; [reflexivity|].
  split; [vm_compute; reflexivity|].
  apply (@count_limit_number_of_files Sample.writable Sample.strptime_date
           Sample.two_per_file Cases.week 2%Z);
    [lia | reflexivity | cbn; lia | reflexivity | reflexivity
     | vm_compute; reflexivity].
Defined.

(* ================================================================== *)
(** * Further properties of the file names *)
(* ================================================================== *)

Lemma decimal_from_app a s t :
  decimal_from a (s ++ t) = decimal_from (decimal_from a s) t.
Proof. unfold decimal_from. apply fold_left_app. Qed.

(** [digits_fuel] puts the decimal digits of [n] in front of [acc]. *)
Lemma digits_fuel_spec fuel : forall n acc,
  n < fuel ->
  exists ds,
    digits_fuel fuel n acc = ds ++ acc /\ ds <> [] /\
    Forall (fun c => is_digit c = true) ds /\
    forall a, decimal_from a ds = a * 10 ^ length ds + n.
Proof.
  induction fuel as [|fuel IH]; intros n acc Hn; [lia|].
  cbn [digits_fuel].
  assert (Hd : is_digit (48 + N.of_nat (n mod 10))%N = true).
  { unfold is_digit. pose proof (Nat.mod_upper_bound n 10).
    apply andb_true_iff. split; apply N.leb_le; lia. }
  assert (Hv : N.to_nat (48 + N.of_nat (n mod 10))%N - 48 = n mod 10)
    by lia.
  destruct (Nat.eqb_spec (n / 10) 0) as [Hq|Hq].
  - exists [(48 + N.of_nat (n mod 10))%N].
    split; [reflexivity|]. split; [discriminate|].
    split; [constructor; [exact Hd | constructor]|].
    intros a. unfold decimal_from. cbn [fold_left length]. rewrite Hv.
    pose proof (Nat.div_mod_eq n 10). rewrite Nat.pow_1_r. lia.
  - assert (Hlt : n / 10 < fuel).
    { pose proof (Nat.div_mod_eq n 10). lia. }
    destruct (IH (n / 10) ((48 + N.of_nat (n mod 10))%N :: acc) Hlt)
      as (ds & E & Hne & Hds & Hval).
    exists (ds ++ [(48 + N.of_nat (n mod 10))%N]).
    split; [rewrite E, <- app_assoc; reflexivity|].
    split; [destruct ds; discriminate|].
    split; [apply Forall_app; split;
            [exact Hds | constructor; [exact Hd | constructor]]|].
    intros a. rewrite decimal_from_app, Hval.
    unfold decimal_from at 1. cbn [fold_left]. rewrite Hv.
    rewrite length_app. cbn [length]. rewrite Nat.pow_add_r, Nat.pow_1_r.
    pose proof (Nat.div_mod_eq n 10).
    generalize dependent (10 ^ length ds). intros X _. nia.
Qed.

Lemma decimal_from_zeros k s :
  decimal_from 0 (repeat 48%N k ++ s) = decimal_from 0 s.
Proof.
  induction k as [|k IH]; [reflexivity|].
  cbn [repeat app]. unfold decimal_from in *. cbn [fold_left]. exact IH.
Qed.

Lemma format_05_digits n :
  decimal (format_05 n) = n /\
  Forall (fun c => is_digit c = true) (format_05 n) /\
  5 <= length (format_05 n).
Proof.
  destruct (@digits_fuel_spec (S n) n [] (Nat.lt_succ_diag_r n))
    as (ds & E & Hne & Hds & Hval).
  rewrite app_nil_r in E.
  unfold format_05, str_of_nat. cbv zeta. rewrite E.
  split; [|split].
  - unfold decimal. rewrite decimal_from_zeros, Hval. lia.
  - apply Forall_app. split; [|exact Hds].
    apply Forall_forall. intros c Hc. apply repeat_spec in Hc. subst c.
    reflexivity.
  - rewrite length_app, repeat_length. unfold char. lia.
Qed.

(** X3: The number in a file name reads back as the counter: [format_05 n] is
    a run of at least five decimal digits whose value is [n]. *)
Theorem format_05_reads_back n :
  decimal (format_05 n) = n /\
  Forall (fun c => is_digit c = true) (format_05 n) /\
  5 <= length (format_05 n).
Proof. apply format_05_digits. Qed.

Lemma format_05_injective n m : format_05 n = format_05 m -> n = m.
Proof.
  intros E. rewrite <- (proj1 (format_05_digits n)), E.
  apply format_05_digits.
Qed.

(** A run of digits ends where the first other character stands. *)
Lemma digits_prefix_unique d1 : forall d2 x y r1 r2,
  Forall (fun c => is_digit c = true) d1 ->
  Forall (fun c => is_digit c = true) d2 ->
  is_digit x = false -> is_digit y = false ->
  d1 ++ x :: r1 = d2 ++ y :: r2 -> d1 = d2.
Proof.
  induction d1 as [|c d1 IH]; intros [|c' d2] x y r1 r2 H1 H2 Hx Hy E;
    cbn [app] in E.
  - reflexivity.
  - exfalso. injection E as Ex _. subst x.
    apply Forall_inv in H2. congruence.
  - exfalso. injection E as Ey _. subst y.
    apply Forall_inv in H1. congruence.
  - injection E as Ec E. subst c'. f_equal.
    apply Forall_inv_tail in H1, H2. apply (IH d2 x y r1 r2); auto.
Qed.

(** Up to its first occurrence of [old], a string is the same whatever
    [replace] puts in. *)
Lemma replace_first d old s :
  occurs (d :: old) s ->
  exists u t, forall new,
    replace s (d :: old) new = u ++ new ++ replace t (d :: old) new.
Proof.
  induction s as [|c s IH]; intros Hocc.
  - destruct Hocc as (u & v & E). destruct u; discriminate.
  - destruct (startswith (c :: s) (d :: old)) eqn:Est.
    + destruct (startswith_inv _ _ Est) as (v & E).
      exists [], v. intros new. rewrite E. cbn [app].
      apply replace_at_occurrence.
    + assert (Hs : occurs (d :: old) s).
      { destruct Hocc as (u & v & E). destruct u as [|c' u].
        - cbn [app] in E. rewrite E in Est.
          change (d :: old ++ v) with ((d :: old) ++ v) in Est.
          rewrite startswith_app in Est. discriminate.
        - cbn [app] in E. injection E as _ E. exists u, v. exact E. }
      destruct (IH Hs) as (u & t & Hrep).
      exists (c :: u), t. intros new.
      rewrite replace_no_occurrence_here by exact Est.
      rewrite Hrep. reflexivity.
Qed.

(** Two counters never give the same file name. *)
Lemma output_name_injective output n m :
  output_name output n = output_name output m -> n = m.
Proof.
  unfold output_name.
  destruct (format_05_digits n) as (_ & Hn & _).
  destruct (format_05_digits m) as (_ & Hm & _).
  destruct (endswith output $".gpx") eqn:Eend.
  - assert (Hocc : occurs [46%N; 103%N; 112%N; 120%N] output).
    { unfold endswith in Eend. apply startswith_inv in Eend.
      destruct Eend as (v & E). apply (f_equal (@rev _)) in E.
      rewrite rev_involutive, rev_app_distr, rev_involutive in E.
      exists (rev v), []. rewrite E. rewrite app_nil_r. reflexivity. }
    destruct (replace_first Hocc) as (u & t & Hrep).
    change ($".gpx") with [46%N; 103%N; 112%N; 120%N].
    rewrite !Hrep. intros E. apply app_inv_head in E.
    change ($"_") with [95%N] in E. cbn [app] in E. injection E as E.
    rewrite <- !app_assoc in E. cbn [app] in E.
    apply format_05_injective.
    eapply (@digits_prefix_unique _ _ 46%N 46%N);
      [exact Hn | exact Hm | reflexivity | reflexivity | exact E].
  - intros E. apply app_inv_head in E.
    change ($"_") with [95%N] in E. cbn [app] in E. injection E as E.
    apply app_inv_tail in E. apply format_05_injective, E.
Qed.

Lemma NoDup_map_injective {A B} (f : A -> B) (l : list A) :
  (forall x y, f x = f y -> x = y) -> NoDup l -> NoDup (List.map f l).
Proof.
  intros Hinj. induction 1 as [|x l Hx Hl IH]; cbn; constructor; auto.
  intros Hin. apply in_map_iff in Hin. destruct Hin as (y & E & Hy).
  apply Hinj in E. subst y. contradiction.
Qed.

(** X1: The files of a run are named by the counter, which goes 0, 1, 2, ...
    in the order of writing. *)
Theorem files_named_by_counter world strptime_date args pts :
  List.map fst (files (trace (sequenced world strptime_date args pts)))
  = List.map (output_name (Args.output args))
      (seq 0 (length (files (trace (sequenced world strptime_date args pts))))).
Proof. apply files_numbered. Qed.

(** X2: No two files of a run have the same name: no chunk overwrites
    another. *)
Theorem file_names_distinct world strptime_date args pts :
  NoDup (List.map fst (files (trace (sequenced world strptime_date args pts)))).
Proof.
  rewrite files_numbered.
  apply NoDup_map_injective; [|apply seq_NoDup].
  intros n m. apply output_name_injective.
Qed.

(** [tracks/out.gpx] holds [.gpx] at its end only. *)
Lemma output_name_numbered_witness :
  (forall u v, $"tracks/out.gpx" = u ++ $".gpx" ++ v -> v = []) /\
  output_name $"tracks/out.gpx" 12 = numbered_name $"tracks/out.gpx" 12.
Proof.
  assert (Honly : forall u v,
             $"tracks/out.gpx" = u ++ $".gpx" ++ v -> v = []).
  { intros u v E.
    let a := eval vm_compute in ($"tracks/out.gpx") in
    change ($"tracks/out.gpx") with a in E.
    let b := eval vm_compute in ($".gpx") in
    change ($".gpx") with b in E.
    do 11 (destruct u as [|? u];
           [cbn in E; first [discriminate E | injection E; congruence]|]).
    apply (f_equal (@length _)) in E. cbn in E.
    rewrite length_app in E. cbn in E. lia. }
  split; [exact Honly|].
  apply (@output_name_numbered $"tracks/out.gpx" 12 Honly).
Defined.

(* ================================================================== *)
(** * Further properties of the flattener and of [main] *)
(* ================================================================== *)

Section FlattenOrder.

Variable float_of_str : str -> option float.
Variable strptime : str -> option datetime.

Local Abbreviation Reads :=
  (fun e p => read_point float_of_str strptime e = Ok p).

Lemma read_point_ok p pt :
  read_point float_of_str strptime p = Ok pt ->
  valid_point float_of_str strptime p.
Proof.
  unfold read_point, valid_point, well_formed, getitem, parse.
  destruct (Json.point p) as [raw|]; [|discriminate].
  destruct (split_latlng float_of_str raw) as [[lat lng]|] eqn:Exy;
    [|discriminate].
  destruct (Json.time p) as [ts|]; [|discriminate].
  destruct (strptime ts) as [t|] eqn:Et; [|discriminate].
  intros _. split; eauto.
Qed.

Lemma read_path_ok path : forall acc pts,
  read_path float_of_str strptime path acc = Ok pts ->
  exists new, pts = acc ++ new /\ Forall2 Reads path new.
Proof.
  induction path as [|p path IH]; intros acc pts E; cbn in E.
  - injection E as <-. exists []. rewrite app_nil_r. auto.
  - destruct (read_point float_of_str strptime p) as [pt|] eqn:Ep;
      [|discriminate].
    destruct (IH _ _ E) as (new & -> & Hnew).
    exists (pt :: new). rewrite <- app_assoc. split; [reflexivity|].
    constructor; assumption.
Qed.

Lemma read_path_all path : forall acc new,
  Forall2 Reads path new ->
  read_path float_of_str strptime path acc = Ok (acc ++ new).
Proof.
  induction path as [|p path IH]; intros acc new H; inversion H; subst; cbn.
  - rewrite app_nil_r. reflexivity.
  - match goal with Hp : read_point _ _ p = Ok _ |- _ => rewrite Hp end.
    rewrite IH with (new := l') by assumption.
    rewrite <- app_assoc. reflexivity.
Qed.

(** Lines 68-78 return exactly when both time stamps of the segment are
    well formed and every entry of its path reads; they return the list
    with the points read put behind it. *)
Lemma read_segment_ok seg acc st pts :
  snd (read_segment float_of_str strptime seg acc st) = Ok pts <->
  stamped strptime seg /\
  exists new, pts = acc ++ new /\
    Forall2 Reads (entries [seg]) new.
Proof.
  unfold entries. cbn [flat_map]. rewrite app_nil_r.
  unfold read_segment, stamped, well_formed, bind, lift, getitem, parse.
  split.
  - destruct (Json.startTime seg) as [s|]; [|discriminate].
    destruct (strptime s) as [ts|] eqn:Es; [|discriminate].
    destruct (Json.endTime seg) as [e|]; [|discriminate].
    destruct (strptime e) as [te|] eqn:Ee; [|discriminate].
    destruct (Json.timelinePath seg) as [path|].
    + unfold emit. cbn [snd].
      destruct (read_path float_of_str strptime path acc) as [pts'|] eqn:Ep;
        [|discriminate].
      cbn. intros H. injection H as <-.
      split; [split; eauto|]. apply read_path_ok, Ep.
    + cbn. intros H. injection H as <-.
      split; [split; eauto|]. exists []. rewrite app_nil_r. auto.
  - intros [[(s & ts & -> & Es) (e & te & -> & Ee)] (new & -> & Hnew)].
    rewrite Es, Ee.
    destruct (Json.timelinePath seg) as [path|].
    + unfold emit. rewrite (read_path_all acc Hnew). reflexivity.
    + inversion Hnew; subst. cbn. rewrite app_nil_r. reflexivity.
Qed.

(** The flattener returns exactly when every segment has well-formed time
    stamps and every path entry reads; what it returns is one point per
    entry, in document order, behind the points it was given. *)
Lemma flatten_ok segs : forall acc st pts,
  snd (flatten float_of_str strptime segs acc st) = Ok pts <->
  Forall (stamped strptime) segs /\
  exists new, pts = acc ++ new /\ Forall2 Reads (entries segs) new.
Proof.
  induction segs as [|seg segs IH]; intros acc st pts.
  - cbn. split.
    + intros H. injection H as <-. split; [constructor|].
      exists []. rewrite app_nil_r. auto.
    + intros [_ (new & -> & Hnew)]. inversion Hnew; subst.
      rewrite app_nil_r. reflexivity.
  - assert (Ecut : entries (seg :: segs) = entries [seg] ++ entries segs).
    { unfold entries. cbn [flat_map]. rewrite app_nil_r. reflexivity. }
    rewrite Ecut. clear Ecut.
    cbn [flatten]. unfold bind.
    pose proof (read_segment_ok seg acc st) as Hseg.
    destruct (read_segment float_of_str strptime seg acc st)
      as [st' [pts1|e]] eqn:Er; cbn [snd] in Hseg.
    + destruct (proj1 (Hseg pts1) eq_refl) as (Hst & new1 & -> & Hnew1).
      rewrite IH. split.
      * intros (Hsegs & new2 & -> & Hnew2).
        split; [constructor; assumption|].
        exists (new1 ++ new2). rewrite app_assoc. split; [reflexivity|].
        apply Forall2_app; assumption.
      * intros (Hall & new & -> & Hnew).
        inversion Hall as [|? ? _ Hsegs]; subst.
        split; [exact Hsegs|].
        apply Forall2_app_inv_l in Hnew.
        destruct Hnew as (n1 & n2 & Hn1 & Hn2 & ->).
        assert (Ok (acc ++ new1) = Ok (acc ++ n1)) as E.
        { apply (proj2 (Hseg (acc ++ n1))). split; [exact Hst|].
          exists n1. auto. }
        injection E as E. apply app_inv_head in E. subst n1.
        exists n2. rewrite app_assoc. auto.
    + split; [discriminate|].
      intros (Hall & new & -> & Hnew). exfalso.
      inversion Hall as [|? ? Hst _]; subst.
      apply Forall2_app_inv_l in Hnew.
      destruct Hnew as (n1 & n2 & Hn1 & Hn2 & ->).
      assert (Raise e = Ok (acc ++ n1)) as E.
      { apply (proj2 (Hseg (acc ++ n1))). split; [exact Hst|].
        exists n1. auto. }
      discriminate.
Qed.

(** X12: The flattener returns, for a document, one point per path entry in
    the order of the document, each read from its entry; and it returns
    exactly when every segment has both time stamps and every entry
    reads. *)
Theorem flatten_in_document_order segs st pts :
  snd (flatten float_of_str strptime segs [] st) = Ok pts <->
  Forall (stamped strptime) segs /\ Forall2 Reads (entries segs) pts.
Proof.
  rewrite flatten_ok. cbn [app]. split.
  - intros (H & new & -> & Hnew). auto.
  - intros (H & Hnew). split; [exact H|]. exists pts. auto.
Qed.

Lemma read_segment_ok_valid seg acc st pts :
  snd (read_segment float_of_str strptime seg acc st) = Ok pts ->
  valid_segment float_of_str strptime seg.
Proof.
  intros H. apply read_segment_ok in H.
  destruct H as ([Hs He] & new & _ & Hnew).
  split; [exact Hs|]. split; [exact He|].
  intros path Hpath. unfold entries in Hnew. cbn [flat_map] in Hnew.
  rewrite Hpath, app_nil_r in Hnew.
  clear Hpath.
  induction Hnew as [|e p path' new' Hep _ IH]; [constructor|].
  constructor; [eapply read_point_ok; exact Hep | exact IH].
Qed.

Lemma flatten_valid_iff segs st :
  (exists pts, snd (flatten float_of_str strptime segs [] st) = Ok pts) <->
  Forall (valid_segment float_of_str strptime) segs.
Proof.
  split.
  - intros (pts & H). revert st pts H. generalize (@nil Point) as acc.
    induction segs as [|seg segs IH]; intros acc st pts H; [constructor|].
    cbn [flatten] in H. unfold bind in H.
    destruct (read_segment float_of_str strptime seg acc st)
      as [st' [pts1|e]] eqn:Er; [|discriminate].
    constructor.
    + apply (@read_segment_ok_valid seg acc st pts1). rewrite Er. reflexivity.
    + eapply IH; eauto.
  - intros Hvalid.
    destruct (flatten_valid [] st Hvalid) as (pts & E & _).
    exists pts. exact E.
Qed.

(** X13: The flattener returns on valid documents and on no other. *)
Theorem flatten_succeeds_iff_valid segs st :
  (exists pts, snd (flatten float_of_str strptime segs [] st) = Ok pts) <->
  Forall (valid_segment float_of_str strptime) segs.
Proof. apply flatten_valid_iff. Qed.

End FlattenOrder.

Section MainMore.

Variable float_of_str : str -> option float.
Variable strptime : str -> option datetime.
Variable strptime_date : str -> option date.
Variables basename dirname : str -> str.
Variable world : World.

Local Abbreviation Run :=
  (main float_of_str strptime strptime_date basename dirname world).

(** X16: When the output path is free and the input path does not exist, the
    run tests both paths, logs one error and returns: no directory is
    made, nothing is opened, nothing is written. *)
Theorem missing_input_stops_run args :
  path_exists world (Args.output args) = false ->
  path_exists world (Args.input args) = false ->
  Run args initial
  = (mkState 0 [EExists (Args.output args); EExists (Args.input args);
                ELog ERROR (InputMissing (Args.input args))], Ok tt).
Proof.
  intros Hout Hin. unfold main, os_path_exists.
  unfold bind at 1. unfold bind at 1. unfold emit at 1, ret at 1.
  rewrite Hout.
  unfold bind at 1. unfold bind at 1. unfold emit at 1, ret at 1.
  rewrite Hin. reflexivity.
Qed.

(** Lines 40-64 when both checks pass and the directory is ready: the two
    tests, the directory if the output path has one, the opening of the
    input. *)
Lemma main_loads args :
  path_exists world (Args.output args) = false ->
  path_exists world (Args.input args) = true ->
  directory_ready basename dirname world args = true ->
  Run args initial
  = bind (lift (json_load world (Args.input args)))
      (fun timeline =>
         bind (lift (getitem $"semanticSegments"
                       (Json.semanticSegments timeline)))
           (fun semantic_segments =>
              bind (emit (ELog INFO
                            (FoundSegments (length semantic_segments))))
                (fun _ =>
                   bind (flatten float_of_str strptime semantic_segments [])
                        (sequencer world strptime_date args))))
      (mkState 0 (checks_and_open basename dirname args)).
Proof.
  intros Hout Hin Hdir. unfold checks_and_open.
  apply main_opens; assumption.
Qed.

(** X17: When both checks pass and the directory of the output path is
    ready, but the input cannot be loaded or the document has no
    [semanticSegments], the run ends in that exception after opening the
    input: no file is written, but the directory of the output path has
    been made. *)
Theorem unloadable_input_aborts_run args :
  path_exists world (Args.output args) = false ->
  path_exists world (Args.input args) = true ->
  directory_ready basename dirname world args = true ->
  (forall e,
     json_load world (Args.input args) = Raise e ->
     Run args initial
     = (mkState 0 (checks_and_open basename dirname args), Raise e)) /\
  (forall tl,
     json_load world (Args.input args) = Ok tl ->
     Json.semanticSegments tl = None ->
     Run args initial
     = (mkState 0 (checks_and_open basename dirname args),
        Raise (KeyError $"semanticSegments"))).
Proof.
  intros Hout Hin Hdir. rewrite (main_loads args Hout Hin Hdir). split.
  - intros e He. unfold bind at 1. unfold lift at 1. rewrite He.
    reflexivity.
  - intros tl Htl Hnone. unfold bind at 1. unfold lift at 1. rewrite Htl.
    unfold bind at 1. unfold lift at 1. rewrite Hnone. reflexivity.
Qed.


(** X14: A document that is not valid, be it for one path entry, makes the run
    end in an exception with no file written. *)
Theorem invalid_document_writes_nothing args tl segs :
  path_exists world (Args.output args) = false ->
  path_exists world (Args.input args) = true ->
  json_load world (Args.input args) = Ok tl ->
  Json.semanticSegments tl = Some segs ->
  ~ Forall (valid_segment float_of_str strptime) segs ->
  (exists e, snd (Run args initial) = Raise e) /\
  files (trace (fst (Run args initial))) = [].
Proof.
  intros Hout Hin Hload Hsegs Hbad.
  destruct (directory_ready basename dirname world args) eqn:Hdir.
  2: { destruct (main_makedirs_fails float_of_str strptime strptime_date
                   basename dirname world args Hout Hin Hdir)
         as (e & _ & ->).
       split; [exists e|]; reflexivity. }
  rewrite (main_proceeds float_of_str strptime strptime_date basename
             dirname world args Hout Hin Hdir Hload Hsegs).
  set (st0 := mkState 0 (prelude basename dirname args (length segs))).
  pose proof (flatten_quiet float_of_str strptime segs [] st0) as [Hfiles _].
  pose proof (proj1 (flatten_valid_iff float_of_str strptime
                       segs st0)) as Hvalid.
  unfold bind.
  destruct (flatten float_of_str strptime segs [] st0) as [st1 [pts|e]].
  - exfalso. apply Hbad, Hvalid. exists pts. reflexivity.
  - cbn [fst snd] in *. split; [exists e; reflexivity|].
    rewrite Hfiles.
    pose proof (chunks_prelude basename dirname args (length segs)) as Hnone.
    unfold chunks in Hnone. apply map_eq_nil in Hnone. exact Hnone.
Qed.

(** X15: On a valid document, with no start and no end date, a run that
    ends normally has written, end to end, the points read from the path
    entries in document order, sorted by time. *)
Theorem files_are_sorted_entries args tl segs :
  Args.start args = None -> Args.end_ args = None ->
  path_exists world (Args.output args) = false ->
  path_exists world (Args.input args) = true ->
  json_load world (Args.input args) = Ok tl ->
  Json.semanticSegments tl = Some segs ->
  Forall (valid_segment float_of_str strptime) segs ->
  snd (Run args initial) = Ok tt ->
  exists pts,
    Forall2 (fun e p => read_point float_of_str strptime e = Ok p)
            (entries segs) pts /\
    concat (chunks (trace (fst (Run args initial)))) = sorted time_key pts.
Proof.
  intros Hstart Hend Hout Hin Hload Hsegs Hvalid.
  destruct (directory_ready basename dirname world args) eqn:Hdir.
  2: { destruct (main_makedirs_fails float_of_str strptime strptime_date
                   basename dirname world args Hout Hin Hdir)
         as (e & _ & ->).
       discriminate. }
  rewrite (main_proceeds float_of_str strptime strptime_date basename
             dirname world args Hout Hin Hdir Hload Hsegs).
  set (st0 := mkState 0 (prelude basename dirname args (length segs))).
  destruct (proj2 (flatten_valid_iff float_of_str strptime
                     segs st0) Hvalid) as (pts & Eflat).
  assert (Hread : Forall2 (fun e p =>
                             read_point float_of_str strptime e = Ok p)
                          (entries segs) pts).
  { apply (flatten_ok float_of_str strptime segs [] st0 pts) in Eflat.
    destruct Eflat as (_ & new & -> & Hnew). exact Hnew. }
  pose proof (flatten_quiet float_of_str strptime segs [] st0) as [Hfiles _].
  unfold bind.
  destruct (flatten float_of_str strptime segs [] st0) as [st1 r].
  cbn [fst snd] in *. subst r. intros Hok.
  exists pts. split; [exact Hread|].
  destruct (@sequencer_complete_from world strptime_date args pts st1
              Hstart Hend) as (_ & Hall).
  destruct (Hall Hok) as (cs & Echunks & Hcat).
  rewrite Echunks.
  assert (Hnone : chunks (trace st1) = []).
  { unfold chunks. rewrite Hfiles. apply chunks_prelude. }
  rewrite Hnone. exact Hcat.
Qed.

End MainMore.

Lemma missing_input_stops_run_witness :
  path_exists Documents.empty_world (Args.output Sample.no_limits) = false /\
  path_exists Documents.empty_world (Args.input Sample.no_limits) = false /\
  main Sample.float_of_str Sample.strptime Sample.strptime_date
    Sample.basename Sample.dirname Documents.empty_world Sample.no_limits
    initial
  = (mkState 0 [EExists $"out.gpx"; EExists $"in.json";
                ELog ERROR (InputMissing $"in.json")], Ok tt).
Proof.
  split; [reflexivity|]. split; [reflexivity|].
  apply (@missing_input_stops_run Sample.float_of_str Sample.strptime
           Sample.strptime_date Sample.basename Sample.dirname
           Documents.empty_world Sample.no_limits); reflexivity.
Defined.

(** The input is no JSON document and the output goes to [tracks/]: the
    directory is made, and the run raises. *)
Lemma unloadable_input_aborts_run_witness :
  path_exists Documents.unreadable_world
              (Args.output Documents.into_tracks) = false /\
  path_exists Documents.unreadable_world
              (Args.input Documents.into_tracks) = true /\
  directory_ready Sample.basename Sample.dirname
    Documents.unreadable_world Documents.into_tracks = true /\
  json_load Documents.unreadable_world (Args.input Documents.into_tracks)
  = Raise ValueError /\
  main Sample.float_of_str Sample.strptime Sample.strptime_date
    Sample.basename Sample.dirname Documents.unreadable_world
    Documents.into_tracks initial
  = (mkState 0 [EExists $"tracks/out.gpx"; EExists $"in.json";
                EMakedirs $"tracks"; EOpen $"in.json"], Raise ValueError).
Proof.
  split; [reflexivity|]. split; [reflexivity|]. split; [reflexivity|].
  split; [reflexivity|].
  apply (proj1 (@unloadable_input_aborts_run Sample.float_of_str
                  Sample.strptime Sample.strptime_date Sample.basename
                  Sample.dirname Documents.unreadable_world
                  Documents.into_tracks eq_refl eq_refl eq_refl)
               ValueError).
  reflexivity.
Defined.


Lemma one_bad_point_invalid :
  ~ Forall (valid_segment Sample.float_of_str Sample.strptime)
           Documents.one_bad_point.
Proof.
  intros H. apply Forall_inv in H. destruct H as (_ & _ & Hpath).
  specialize (Hpath _ eq_refl).
  apply Forall_inv_tail, Forall_inv in Hpath.
  destruct Hpath as [(raw & xy & Eraw & Exy) _].
  cbn in Eraw. injection Eraw as <-. vm_compute in Exy. discriminate.
Qed.

Lemma invalid_document_writes_nothing_witness :
  path_exists Documents.bad_point_world (Args.output Sample.no_limits)
  = false /\
  path_exists Documents.bad_point_world (Args.input Sample.no_limits)
  = true /\
  ~ Forall (valid_segment Sample.float_of_str Sample.strptime)
           Documents.one_bad_point /\
  (exists e,
     snd (main Sample.float_of_str Sample.strptime Sample.strptime_date
            Sample.basename Sample.dirname Documents.bad_point_world
            Sample.no_limits initial) = Raise e) /\
  files (trace (fst (main Sample.float_of_str Sample.strptime
                       Sample.strptime_date Sample.basename Sample.dirname
                       Documents.bad_point_world Sample.no_limits initial)))
  = [].
Proof.
  split; [reflexivity|]. split; [reflexivity|].
  split; [exact one_bad_point_invalid|].
  apply (@invalid_document_writes_nothing Sample.float_of_str
           Sample.strptime Sample.strptime_date Sample.basename
           Sample.dirname Documents.bad_point_world Sample.no_limits
           (Json.mkTimeline (Some Documents.one_bad_point))
           Documents.one_bad_point);
    try reflexivity.
  exact one_bad_point_invalid.
Defined.

Lemma files_are_sorted_entries_witness :
  Args.start Sample.no_limits = None /\ Args.end_ Sample.no_limits = None /\
  Forall (valid_segment Sample.float_of_str Sample.strptime)
         Sample.segments /\
  snd (main Sample.float_of_str Sample.strptime Sample.strptime_date
         Sample.basename Sample.dirname
         (Sample.world_with Sample.document) Sample.no_limits initial)
  = Ok tt /\
  exists pts,
    Forall2 (fun e p =>
               read_point Sample.float_of_str Sample.strptime e = Ok p)
            (entries Sample.segments) pts /\
    concat (chunks (trace (fst
      (main Sample.float_of_str Sample.strptime Sample.strptime_date
         Sample.basename Sample.dirname
         (Sample.world_with Sample.document) Sample.no_limits initial))))
    = sorted time_key pts.
Proof.
  split; [reflexivity|]. split; [reflexivity|].
  split; [exact sample_segments_valid|].
  split; [vm_compute; reflexivity|].
  apply (@files_are_sorted_entries Sample.float_of_str Sample.strptime
           Sample.strptime_date Sample.basename Sample.dirname
           (Sample.world_with Sample.document) Sample.no_limits
           Sample.document Sample.segments);
    try reflexivity.
  exact sample_segments_valid.
Defined.

(* ================================================================== *)
(** * Further properties of the coordinates *)
(* ================================================================== *)

Lemma absent_first_char d old s : ~ In d s -> ~ occurs (d :: old) s.
Proof.
  intros Hno (u & v & ->). apply Hno.
  apply in_or_app. right. left. reflexivity.
Qed.

Lemma lstrip_blank w s : blank w -> lstrip (w ++ s) = lstrip s.
Proof.
  induction 1 as [|c w Hc Hw IH]; [reflexivity|].
  cbn [app lstrip]. rewrite Hc. exact IH.
Qed.

Lemma lstrip_blank_nil w : blank w -> lstrip w = [].
Proof.
  intros H. rewrite <- (app_nil_r w). rewrite lstrip_blank by exact H.
  reflexivity.
Qed.

Lemma rstrip_blank s w : blank w -> rstrip (s ++ w) = rstrip s.
Proof.
  intros H. unfold rstrip. rewrite rev_app_distr, lstrip_blank.
  - reflexivity.
  - apply Forall_rev, H.
Qed.

Lemma lstrip_app_blank a w :
  blank w ->
  lstrip (a ++ w) = lstrip a ++ w \/ (lstrip a = [] /\ lstrip (a ++ w) = []).
Proof.
  intros Hw. induction a as [|c a IH]; cbn [app lstrip].
  - right. split; [reflexivity | apply lstrip_blank_nil, Hw].
  - destruct (isspace c); [exact IH | left; reflexivity].
Qed.

(** White space on both sides of a string does not show after
    [strip]. *)
Lemma strip_padded w1 a w2 :
  blank w1 -> blank w2 -> strip (w1 ++ a ++ w2) = strip a.
Proof.
  intros H1 H2. unfold strip. rewrite lstrip_blank by exact H1.
  destruct (lstrip_app_blank a H2) as [->|[E1 ->]].
  - apply rstrip_blank, H2.
  - rewrite E1. reflexivity.
Qed.

Lemma blank_plain w : blank w -> plain w.
Proof.
  unfold blank. intros H. split; intros Hin;
    rewrite Forall_forall in H; apply H in Hin; discriminate.
Qed.

Lemma plain_app a b : plain a -> plain b -> plain (a ++ b).
Proof.
  intros [Ha1 Ha2] [Hb1 Hb2].
  split; intros Hin; apply in_app_or in Hin; tauto.
Qed.

(** Two plain parts around one comma go to [float] once trimmed. *)
Lemma split_latlng_plain float_of_str a b :
  plain a -> plain b ->
  split_latlng float_of_str (a ++ comma :: b)
  = match float_of_str (strip a) with
    | None => Raise ValueError
    | Some x =>
        match float_of_str (strip b) with
        | None => Raise ValueError
        | Some y => Ok (x, y)
        end
    end.
Proof.
  intros [Ha1 Ha2] [Hb1 Hb2]. unfold split_latlng, degree_marker.
  rewrite replace_absent.
  - rewrite split_app by exact Ha1. rewrite split_free by exact Hb1.
    reflexivity.
  - apply absent_first_char. intros Hin. apply in_app_or in Hin.
    destruct Hin as [Hin|[Hin|Hin]]; [tauto | discriminate | tauto].
Qed.

(** X18: The form of the export: a degree marker behind each coordinate reads
    like the bare pair. *)
Theorem degree_markers_ignored float_of_str lat lng :
  plain lat -> plain lng ->
  split_latlng float_of_str
    (lat ++ degree_marker ++ comma :: lng ++ degree_marker)
  = split_latlng float_of_str (lat ++ comma :: lng).
Proof.
  intros Hlat Hlng. unfold split_latlng at 1.
  rewrite replace_degree_marker
    by (apply absent_first_char, Hlat).
  change (comma :: lng ++ degree_marker)
    with ((comma :: lng) ++ degree_marker ++ []).
  rewrite replace_degree_marker.
  - cbn [replace degree_marker replace_from app]. rewrite app_nil_r.
    destruct Hlat as [Ha1 Ha2], Hlng as [Hb1 Hb2].
    rewrite split_app by exact Ha1. rewrite split_free by exact Hb1.
    symmetry. apply split_latlng_plain; split; assumption.
  - apply absent_first_char. intros [Hin|Hin]; [discriminate|].
    apply Hlng, Hin.
Qed.

(** X19: White space around either coordinate does not change the result. *)
Theorem padding_ignored float_of_str w1 a w2 w3 b w4 :
  blank w1 -> blank w2 -> blank w3 -> blank w4 -> plain a -> plain b ->
  split_latlng float_of_str
    ((w1 ++ a ++ w2) ++ comma :: (w3 ++ b ++ w4))
  = split_latlng float_of_str (a ++ comma :: b).
Proof.
  intros H1 H2 H3 H4 Ha Hb.
  rewrite !split_latlng_plain;
    try assumption;
    try (repeat apply plain_app; try assumption; apply blank_plain;
         assumption).
  rewrite !strip_padded by assumption. reflexivity.
Qed.

Lemma plain_digits : plain $"48.25" /\ plain $"11.5".
Proof.
  split; split; intros Hin; cbn in Hin;
    repeat (destruct Hin as [Hin|Hin]; [discriminate|]); exact Hin.
Qed.

Lemma degree_markers_ignored_witness :
  plain $"48.25" /\ plain $"11.5" /\
  split_latlng Sample.float_of_str
    ($"48.25" ++ degree_marker ++ comma :: $"11.5" ++ degree_marker)
  = split_latlng Sample.float_of_str ($"48.25" ++ comma :: $"11.5").
Proof.
  split; [apply plain_digits|]. split; [apply plain_digits|].
  apply (@degree_markers_ignored Sample.float_of_str $"48.25" $"11.5");
    apply plain_digits.
Defined.

Lemma padding_ignored_witness :
  blank $" " /\ blank [9%N] /\ blank [] /\ blank $"  " /\
  plain $"48.25" /\ plain $"11.5" /\
  split_latlng Sample.float_of_str
    (($" " ++ $"48.25" ++ [9%N]) ++ comma :: ([] ++ $"11.5" ++ $"  "))
  = split_latlng Sample.float_of_str ($"48.25" ++ comma :: $"11.5").
Proof.
  assert (Hb : forall w, forallb isspace w = true -> blank w).
  { intros w H. apply Forall_forall. intros c Hc.
    rewrite forallb_forall in H. apply H, Hc. }
  split; [apply Hb; reflexivity|]. split; [apply Hb; reflexivity|].
  split; [apply Hb; reflexivity|]. split; [apply Hb; reflexivity|].
  split; [apply plain_digits|]. split; [apply plain_digits|].
  apply (@padding_ignored Sample.float_of_str);
    try (apply Hb; reflexivity); apply plain_digits.
Defined.

(* ================================================================== *)
(** * The document of [dump_gpx] *)
(* ================================================================== *)

Section GpxFacts.

Variable str_of_float : float -> str.
Variable isoformat : datetime -> str.

Local Abbreviation Elements := (trkpt_elements str_of_float isoformat).
Local Abbreviation Heap := (gpx_heap str_of_float isoformat).
Local Abbreviation Trkpt := (trkpt_xml str_of_float isoformat).

Lemma update_at l : forall e r f,
  ET.update (l ++ e :: r) (length l) f = l ++ f e :: r.
Proof.
  induction l as [|x l IH]; intros e r f; cbn; [reflexivity|].
  rewrite IH. reflexivity.
Qed.

Lemma trkpt_elements_length k points :
  length (Elements k points) = 2 * length points.
Proof.
  revert k.
  induction points as [|p ps IH]; intros k; cbn [trkpt_elements length].
  - reflexivity.
  - rewrite IH. lia.
Qed.

Lemma trkpt_elements_snoc points : forall k p,
  Elements k (points ++ [p])
  = Elements k points
    ++ [ET.mk $"trkpt"
          [($"lat", str_of_float (latitude p));
           ($"lon", str_of_float (longitude p))] None
          [4 + 2 * (k + length points) + 1];
        ET.mk $"time" [] (Some (isoformat (time p))) []].
Proof.
  induction points as [|q ps IH]; intros k p; cbn [app trkpt_elements length].
  - rewrite Nat.add_0_r. reflexivity.
  - rewrite IH. replace (S k + length ps) with (k + S (length ps)) by lia.
    reflexivity.
Qed.

Lemma trkpt_refs_snoc n : trkpt_refs (S n) = trkpt_refs n ++ [4 + 2 * n].
Proof. unfold trkpt_refs. rewrite seq_S, map_app. reflexivity. Qed.

Lemma SubElement_at l e r tag attrib :
  ET.SubElement (length l) tag attrib (l ++ e :: r)
  = (l ++ ET.mk (ET.tag e) (ET.attrib e) (ET.text e)
               (ET.children e ++ [length (l ++ e :: r)])
       :: r ++ [ET.mk tag attrib None []],
     length (l ++ e :: r)).
Proof.
  unfold ET.SubElement, ET.Element, ET.append.
  rewrite <- app_assoc. cbn [app]. rewrite update_at. reflexivity.
Qed.

Lemma set_text_at l e r s :
  ET.set_text (length l) s (l ++ e :: r)
  = l ++ ET.mk (ET.tag e) (ET.attrib e) (Some s) (ET.children e) :: r.
Proof. unfold ET.set_text. apply update_at. Qed.

Lemma update_at_index l e r i f :
  i = length l -> ET.update (l ++ e :: r) i f = l ++ f e :: r.
Proof. intros ->. apply update_at. Qed.

(** One turn of the loop of line 19, with the segment at [length l]: the
    segment gets a reference to a new track point, which comes with its
    time at the end of the heap. *)
Lemma add_trkpt_at l seg r p :
  add_trkpt str_of_float isoformat (length l) (l ++ seg :: r) p
  = l ++ ET.mk (ET.tag seg) (ET.attrib seg) (ET.text seg)
              (ET.children seg ++ [length (l ++ seg :: r)])
      :: r
      ++ [ET.mk $"trkpt"
            [($"lat", str_of_float (latitude p));
             ($"lon", str_of_float (longitude p))] None
            [length (l ++ seg :: r) + 1];
          ET.mk $"time" [] (Some (isoformat (time p))) []].
Proof.
  unfold add_trkpt, ET.SubElement, ET.Element, ET.append, ET.set_text.
  set (m := length (l ++ seg :: r)).
  assert (Hm : m = length l + S (length r))
    by (unfold m; rewrite length_app; reflexivity).
  rewrite <- app_assoc. cbn [app].
  rewrite update_at. cbn [ET.tag ET.attrib ET.text ET.children].
  set (seg' := ET.mk (ET.tag seg) (ET.attrib seg) (ET.text seg)
                 (ET.children seg ++ [m])).
  set (tp := ET.mk $"trkpt" _ None []).
  set (tm := ET.mk $"time" [] None []).
  assert (H1 : length (l ++ seg' :: r ++ [tp]) = m + 1).
  { rewrite Hm, length_app. cbn [length]. rewrite length_app. cbn. lia. }
  rewrite H1.
  replace ((l ++ seg' :: r ++ [tp]) ++ [tm])
    with ((l ++ seg' :: r) ++ tp :: [tm])
    by (repeat (rewrite <- app_assoc || cbn [app]); reflexivity).
  rewrite (@update_at_index (l ++ seg' :: r) tp [tm])
    by (rewrite Hm, length_app; reflexivity).
  cbn [ET.tag ET.attrib ET.text ET.children tp app].
  set (tp' := ET.mk $"trkpt" _ None [m + 1]).
  replace ((l ++ seg' :: r) ++ [tp'; tm])
    with (((l ++ seg' :: r) ++ [tp']) ++ tm :: [])
    by (repeat (rewrite <- app_assoc || cbn [app]); reflexivity).
  rewrite (@update_at_index ((l ++ seg' :: r) ++ [tp']) tm [])
    by (rewrite Hm, !length_app; cbn; lia).
  repeat (rewrite <- app_assoc || cbn [app]). reflexivity.
Qed.

(** One turn of the loop of line 19 adds the track point of the point, its
    time, and the reference to it in the segment. *)
Lemma add_trkpt_heap points p :
  add_trkpt str_of_float isoformat 3 (Heap points) p = Heap (points ++ [p]).
Proof.
  unfold gpx_heap.
  set (pre := [ET.mk $"gpx"
                 [($"version", $"1.1"); ($"creator", $"Timeline2GPX")]
                 None [1];
               ET.mk $"trk" [] None [2; 3];
               ET.mk $"name" [] (Some $"Timeline") []]).
  change (add_trkpt str_of_float isoformat (length pre)
            (pre ++ ET.mk $"trkseg" [] None (trkpt_refs (length points))
                 :: Elements 0 points) p
          = pre ++ ET.mk $"trkseg" [] None
                     (trkpt_refs (length (points ++ [p])))
                :: Elements 0 (points ++ [p])).
  rewrite add_trkpt_at.
  cbn [ET.tag ET.attrib ET.text ET.children].
  assert (Hlen : length (pre ++ ET.mk $"trkseg" [] None
                                  (trkpt_refs (length points))
                             :: Elements 0 points)
                 = 4 + 2 * length points).
  { rewrite length_app. cbn [length]. rewrite trkpt_elements_length.
    reflexivity. }
  rewrite Hlen.
  rewrite (length_app points [p]). cbn [length].
  replace (length points + 1) with (S (length points)) by lia.
  rewrite trkpt_refs_snoc, trkpt_elements_snoc.
  cbn [Nat.add]. reflexivity.
Qed.

(** The loop of line 19 leaves the heap of the points. *)
Lemma fold_add_trkpt more : forall points,
  fold_left (add_trkpt str_of_float isoformat 3) more (Heap points)
  = Heap (points ++ more).
Proof.
  induction more as [|p more IH]; intros points; cbn [fold_left].
  - rewrite app_nil_r. reflexivity.
  - rewrite add_trkpt_heap, IH, <- app_assoc. reflexivity.
Qed.

(** Lines 13-22 leave the heap of the points, with the root first. *)
Lemma dump_gpx_tree_heap points :
  dump_gpx_tree str_of_float isoformat points = (Heap points, 0).
Proof.
  transitivity
    (fold_left (add_trkpt str_of_float isoformat 3) points (Heap []), 0);
    [reflexivity|].
  rewrite fold_add_trkpt. reflexivity.
Qed.

Lemma all_map_some {A B} (f : A -> option B) (g : A -> B) (l : list A) :
  (forall x, In x l -> f x = Some (g x)) ->
  ET.all (List.map f l) = Some (List.map g l).
Proof.
  induction l as [|x l IH]; intros H; cbn; [reflexivity|].
  rewrite (H x) by (left; reflexivity).
  rewrite IH by (intros y Hy; apply H; right; exact Hy).
  reflexivity.
Qed.

(** Where the track point of the [i]th point and its time stand. *)
Lemma nth_error_trkpt_elements points : forall k i p,
  nth_error points i = Some p ->
  nth_error (Elements k points) (2 * i)
  = Some (ET.mk $"trkpt"
            [($"lat", str_of_float (latitude p));
             ($"lon", str_of_float (longitude p))] None
            [4 + 2 * (k + i) + 1]) /\
  nth_error (Elements k points) (2 * i + 1)
  = Some (ET.mk $"time" [] (Some (isoformat (time p))) []).
Proof.
  induction points as [|q ps IH]; intros k i p Hp.
  - destruct i; discriminate.
  - destruct i as [|i].
    + cbn in Hp. injection Hp as ->.
      change (2 * 0) with 0. change (0 + 1) with 1.
      cbn [trkpt_elements nth_error]. rewrite Nat.add_0_r. auto.
    + cbn [nth_error] in Hp. destruct (IH (S k) i p Hp) as [H1 H2].
      replace (2 * S i) with (S (S (2 * i))) by lia.
      replace (S (S (2 * i)) + 1) with (S (S (2 * i + 1))) by lia.
      cbn [trkpt_elements nth_error]. rewrite H1, H2.
      replace (S k + i) with (k + S i) by lia. auto.
Qed.

(** The tree below the track point of the [i]th point. *)
Lemma tree_trkpt points i p :
  nth_error points i = Some p ->
  ET.tree 2 (Heap points) (4 + 2 * i) = Some (Trkpt p).
Proof.
  intros Hp. destruct (nth_error_trkpt_elements points 0 i Hp) as [H1 H2].
  unfold gpx_heap.
  cbn [ET.tree].
  replace (4 + 2 * i) with (S (S (S (S (2 * i))))) by lia.
  cbn [app nth_error]. rewrite H1.
  cbn [ET.children ET.tag ET.attrib ET.text List.map ET.all Nat.add].
  replace (S (S (S (S (2 * i + 1))))) with (S (S (S (S (2 * i + 1)))))
    by reflexivity.
  cbn [nth_error]. rewrite H2. reflexivity.
Qed.

Lemma all_map_seq {B} (F : nat -> option B) (G : Point -> B) points :
  forall k,
    (forall i p, nth_error points i = Some p -> F (k + i) = Some (G p)) ->
    ET.all (List.map F (seq k (length points))) = Some (List.map G points).
Proof.
  induction points as [|q ps IH]; intros k H; [reflexivity|].
  cbn [length seq List.map ET.all].
  rewrite <- (Nat.add_0_r k) at 1. rewrite (H 0 q eq_refl).
  rewrite (IH (S k)); [reflexivity|].
  intros i p Hp. replace (S k + i) with (k + S i) by lia.
  apply H. exact Hp.
Qed.

Lemma trkpt_refs_points points :
  ET.all (List.map (ET.tree 2 (Heap points))
            (trkpt_refs (length points)))
  = Some (List.map Trkpt points).
Proof.
  unfold trkpt_refs. rewrite map_map.
  apply all_map_seq. intros i p Hp. cbn [Nat.add].
  apply tree_trkpt, Hp.
Qed.

(** The tree below the root of the heap is the document. *)
Lemma tree_gpx_heap points :
  ET.tree 5 (Heap points) 0
  = Some (gpx_xml str_of_float isoformat points).
Proof.
  pose proof (trkpt_refs_points points) as Hpts.
  unfold gpx_heap in *.
  cbn [ET.tree app nth_error ET.children ET.tag ET.attrib ET.text List.map
       ET.all] in *.
  rewrite Hpts. reflexivity.
Qed.

(** X20: The document [dump_gpx] hands to [tree.write] is [gpx_xml] of the
    points: a track named [Timeline] with one segment that holds one track
    point per point, in the order of the list, each with its [lat] and
    [lon] attributes and its time. *)
Theorem dump_gpx_document points :
  ET.tree 5 (fst (dump_gpx_tree str_of_float isoformat points))
            (snd (dump_gpx_tree str_of_float isoformat points))
  = Some (gpx_xml str_of_float isoformat points).
Proof. rewrite dump_gpx_tree_heap. apply tree_gpx_heap. Qed.

End GpxFacts.

(* ------------------------------------------------------------------ *)
(** * No point is written twice *)
(* ------------------------------------------------------------------ *)

Lemma firstn_slice {A} (l : list A) a b :
  a <= b -> firstn b l = firstn a l ++ slice l a b.
Proof.
  intros Hab. unfold slice.
  rewrite <- (firstn_skipn a (firstn b l)) at 1.
  rewrite firstn_firstn, Nat.min_l by exact Hab. reflexivity.
Qed.

Lemma subseq_nil_l {A} (l : list A) : subseq [] l.
Proof. induction l; constructor; assumption. Qed.

Lemma subseq_refl {A} (l : list A) : subseq l l.
Proof. induction l; constructor; assumption. Qed.

Lemma subseq_app {A} (a b c d : list A) :
  subseq a b -> subseq c d -> subseq (a ++ c) (b ++ d).
Proof.
  induction 1; intros Hcd; cbn.
  - exact Hcd.
  - apply subseq_drop; auto.
  - apply subseq_keep; auto.
Qed.

Lemma subseq_app_r {A} (a b c : list A) : subseq a b -> subseq a (b ++ c).
Proof.
  intros H. rewrite <- (app_nil_r a). apply subseq_app; [exact H|].
  apply subseq_nil_l.
Qed.

Section Chunks.

Variable strptime_date : str -> option date.
Variable args : Args.t.
Variable points : list Point.

Local Abbreviation Reach := (reach strptime_date args points).

(** Every chunk flushed lies in front of the anchor, behind the chunks
    flushed before it. *)
Lemma reach_subseq i start cs :
  Reach i start cs -> subseq (concat cs) (firstn start points).
Proof.
  induction 1 as [|i start cs Hr IH Hi Hs|i start cs Hr IH Hi Hc Hd
                  |i start cs Hr IH Hi Hh].
  - constructor.
  - pose proof (reach_anchor Hr) as Hlt.
    rewrite (firstn_slice points (a := start) (b := i)) by lia.
    apply subseq_app_r, IH.
  - exact IH.
  - pose proof (reach_anchor Hr) as Hlt.
    rewrite (firstn_slice points (a := start) (b := i)) by lia.
    rewrite concat_app. cbn [concat]. rewrite app_nil_r.
    apply subseq_app; [exact IH | apply subseq_refl].
Qed.

Lemma outcome_chunks_subseq i start cs r :
  Reach i start cs ->
  subseq (concat (outcome_chunks points start cs r)) points.
Proof.
  intros Hr. pose proof (reach_subseq Hr) as Hcs.
  assert (Hshort : subseq (concat cs) points).
  { rewrite <- (firstn_skipn start points). apply subseq_app_r, Hcs. }
  unfold outcome_chunks. destruct r as [s|e]; [|exact Hshort].
  destruct points as [|p ps] eqn:Ep; [exact Hshort|]. rewrite <- Ep in *.
  rewrite concat_app. cbn [concat]. rewrite app_nil_r.
  rewrite <- (firstn_skipn start points) at 2.
  apply subseq_app; [exact Hcs | apply subseq_refl].
Qed.

End Chunks.

(** X21: no point is written twice and none out of its turn: the files of
    a run, end to end, are the sorted list with some points left out. *)
Theorem no_point_written_twice world strptime_date args pts :
  subseq (concat (chunks (trace (sequenced world strptime_date args pts))))
         (sorted time_key pts).
Proof.
  destruct (sequencer_run world strptime_date args pts)
    as (j & start & cs & r & Hr & _ & _ & -> & _).
  eapply outcome_chunks_subseq, Hr.
Qed.

(* ------------------------------------------------------------------ *)
(** * The name of a file against the output path *)
(* ------------------------------------------------------------------ *)

(** [replace] with a replacement no shorter than what it replaces loses
    nothing but the characters it is told to skip. *)
Lemma replace_from_length old new :
  old <> [] -> length old <= length new ->
  forall s k, length s <= length (replace_from old new k s) + k.
Proof.
  intros Hne Hlen. induction s as [|c s IH]; intros k; cbn [replace_from].
  - cbn. lia.
  - destruct k as [|k].
    + destruct (startswith (c :: s) old).
      * rewrite length_app. specialize (IH (length old - 1)).
        destruct old as [|d old']; [congruence|].
        cbn [length] in *. unfold char in *. lia.
      * specialize (IH 0). cbn [length]. lia.
    + specialize (IH k). cbn [length]. lia.
Qed.

(** Where [old] occurs, a replacement longer by [g] makes the string
    longer by [g] at least. *)
Lemma replace_from_gain old new g :
  old <> [] -> length old + g <= length new ->
  forall s, occurs old s ->
  length s + g <= length (replace_from old new 0 s).
Proof.
  intros Hne Hlen. induction s as [|c s IH]; intros (u & v & E).
  - destruct u; [destruct old; [congruence|discriminate]|discriminate].
  - cbn [replace_from]. destruct (startswith (c :: s) old) eqn:Es.
    + rewrite length_app.
      assert (Hle : length old <= length new) by lia.
      pose proof (@replace_from_length old new Hne Hle s (length old - 1)) as H.
      destruct old as [|d old']; [congruence|].
      cbn [length] in *. lia.
    + destruct u as [|c' u].
      * cbn [app] in E. rewrite E, startswith_app in Es. discriminate.
      * cbn [app] in E. injection E as _ E.
        assert (Hocc : occurs old s) by (exists u, v; exact E).
        specialize (IH Hocc). cbn [length]. lia.
Qed.

Lemma endswith_occurs s ext : endswith s ext = true -> occurs ext s.
Proof.
  unfold endswith. intros H. apply startswith_inv in H.
  destruct H as (v & E). exists (rev v), [].
  rewrite app_nil_r, <- (rev_involutive s), E, rev_app_distr,
    rev_involutive.
  reflexivity.
Qed.

(** Lines 55-58 never give back the output path: the name is longer by
    the underscore and the five digits at least. *)
Lemma output_name_longer output n :
  length output + 6 <= length (output_name output n).
Proof.
  pose proof (format_05_width n) as Hw.
  unfold output_name. destruct (endswith output $".gpx") eqn:E.
  - change (replace output $".gpx" ($"_" ++ format_05 n ++ $".gpx"))
      with (replace_from $".gpx" ($"_" ++ format_05 n ++ $".gpx") 0 output).
    apply replace_from_gain.
    + discriminate.
    + rewrite !length_app.
      change (length $".gpx") with 4. change (length $"_") with 1.
      unfold char in *. lia.
    + apply endswith_occurs, E.
  - rewrite !length_app.
    change (length $".gpx") with 4. change (length $"_") with 1.
    unfold char in *. lia.
Qed.

(** X22: no file of a run is written at the output path itself, the path
    line 40 tests: every name is at least six characters longer. *)
Theorem written_names_differ_from_output world strptime_date args pts :
  Forall (fun f => fst f <> Args.output args /\
                   length (Args.output args) + 6 <= length (fst f))
         (files (trace (sequenced world strptime_date args pts))).
Proof.
  apply Forall_forall. intros f Hf.
  assert (Hin : In (fst f)
                   (List.map fst
                      (files (trace (sequenced world strptime_date args pts)))))
    by (apply in_map, Hf).
  rewrite files_numbered in Hin. apply in_map_iff in Hin.
  destruct Hin as (k & <- & _).
  pose proof (output_name_longer (Args.output args) k) as Hlen.
  split; [|exact Hlen].
  intros E. rewrite E in Hlen. lia.
Qed.

(* ------------------------------------------------------------------ *)
(** * The whole trace of a run *)
(* ------------------------------------------------------------------ *)

Lemma files_logged fs : files (flat_map logged fs) = fs.
Proof.
  induction fs as [|[name c] fs IH]; [reflexivity|].
  cbn [flat_map logged fst snd app]. unfold files in *.
  cbn [flat_map app]. rewrite IH. reflexivity.
Qed.

Lemma reading_no_files pre : Forall reading pre -> files pre = [].
Proof.
  induction 1 as [|e pre He _ IH]; [reflexivity|].
  unfold files in *. cbn [flat_map]. rewrite IH.
  destruct e; cbn in He |- *; try reflexivity. contradiction.
Qed.

Lemma report_reading l : Forall report l -> Forall reading l.
Proof.
  apply Forall_impl. intros [p|lvl [o|i|n|a b n|n f]|p|p|f c]; cbn; tauto.
Qed.




(** What the chunks [cs] leave in the trace: for each, the write and its
    log line. *)
Lemma trace_emitted args cs : forall st,
  trace (emitted args cs st)
  = trace st
    ++ flat_map logged
         (combine (List.map (output_name (Args.output args))
                            (seq (output_number st) (length cs))) cs).
Proof.
  induction cs as [|c cs IH]; intros st; cbn [emitted fold_left].
  - cbn. symmetry. apply app_nil_r.
  - unfold emitted in IH. rewrite IH. unfold written.
    cbn [trace output_number]. rewrite <- app_assoc.
    cbn [length seq List.map combine flat_map logged fst snd app].
    rewrite Nat.add_1_r. reflexivity.
Qed.

(** X23: lines 97-115 leave nothing in the trace but the files: each
    write is followed by its log line, which gives the number of points
    of the file and its name. *)
Theorem every_file_is_logged world strptime_date args pts :
  trace (sequenced world strptime_date args pts)
  = flat_map logged (files (trace (sequenced world strptime_date args pts))).
Proof.
  destruct (sequencer_run_from world strptime_date args pts initial)
    as (j & start & cs & r & _ & _ & E).
  unfold sequenced. rewrite E. cbn [fst]. rewrite trace_emitted.
  cbn [initial trace app]. rewrite files_logged. reflexivity.
Qed.

Section Traces.

Variable float_of_str : str -> option float.
Variable strptime : str -> option datetime.
Variable strptime_date : str -> option date.
Variables basename dirname : str -> str.
Variable world : World.

Local Abbreviation Program :=
  (main float_of_str strptime strptime_date basename dirname world).

(** Lines 68-78 log at most the line of line 71 and leave the counter
    alone. *)
Lemma read_segment_trace seg acc st :
  exists logs,
    output_number (fst (read_segment float_of_str strptime seg acc st))
    = output_number st /\
    trace (fst (read_segment float_of_str strptime seg acc st))
    = trace st ++ logs /\
    Forall report logs.
Proof.
  unfold read_segment, bind, lift, getitem, parse.
  destruct (Json.startTime seg) as [s|];
    [|exists []; rewrite app_nil_r; auto].
  destruct (strptime s) as [ts|];
    [|exists []; rewrite app_nil_r; auto].
  destruct (Json.endTime seg) as [e|];
    [|exists []; rewrite app_nil_r; auto].
  destruct (strptime e) as [te|];
    [|exists []; rewrite app_nil_r; auto].
  destruct (Json.timelinePath seg) as [path|].
  - exists [ELog DEBUG (SegmentIsPath ts te (length path))].
    unfold emit. cbn [fst trace output_number].
    destruct (read_path float_of_str strptime path acc);
      cbn [fst trace output_number]; repeat split; auto;
      constructor; cbn; auto.
  - exists []. cbn. rewrite app_nil_r. auto.
Qed.

Lemma flatten_trace segs : forall acc st,
  exists logs,
    output_number (fst (flatten float_of_str strptime segs acc st))
    = output_number st /\
    trace (fst (flatten float_of_str strptime segs acc st))
    = trace st ++ logs /\
    Forall report logs.
Proof.
  induction segs as [|seg segs IH]; intros acc st.
  - exists []. cbn. rewrite app_nil_r. auto.
  - cbn [flatten]. unfold bind.
    destruct (read_segment_trace seg acc st) as (l1 & Hn1 & Ht1 & Hl1).
    destruct (read_segment float_of_str strptime seg acc st)
      as [st' [pts|e]]; cbn [fst] in *.
    + destruct (IH pts st') as (l2 & Hn2 & Ht2 & Hl2).
      exists (l1 ++ l2). rewrite Hn2, Ht2, Hn1, Ht1, app_assoc.
      repeat split; auto. apply Forall_app. auto.
    + exists l1. auto.
Qed.

(** Lines 40-45 when a check fails. *)
Lemma main_stops_at_checks args :
  checks_pass world args = false ->
  Program args initial
  = (mkState 0
       (EExists (Args.output args)
        :: (if path_exists world (Args.output args)
            then [ELog ERROR (OutputExists (Args.output args))]
            else [EExists (Args.input args);
                  ELog ERROR (InputMissing (Args.input args))])),
     Ok tt).
Proof.
  unfold checks_pass, main, os_path_exists. intros H.
  unfold bind at 1. unfold bind at 1. unfold emit at 1, ret at 1.
  destruct (path_exists world (Args.output args)); [reflexivity|].
  cbn [negb andb] in H.
  unfold bind at 1. unfold bind at 1. unfold emit at 1, ret at 1.
  rewrite H. reflexivity.
Qed.

(** Line 47 when both checks pass and [os.makedirs] raises. *)
Lemma main_stops_at_makedirs args :
  checks_pass world args = true ->
  directory_ready basename dirname world args = false ->
  exists e,
    Program args initial
    = (mkState 0 [EExists (Args.output args); EExists (Args.input args)],
       Raise e).
Proof.
  unfold checks_pass. intros H Hdir. apply andb_true_iff in H.
  destruct H as [Hout Hin]. apply negb_true_iff in Hout.
  destruct (main_makedirs_fails float_of_str strptime strptime_date
              basename dirname world args Hout Hin Hdir) as (e & _ & E).
  exists e. exact E.
Qed.

(** Lines 46-115 when both checks pass and the directory is ready: the
    events of [checks_and_open], then log lines of the loader, then the
    files. *)
Lemma main_after_checks args :
  checks_pass world args = true ->
  directory_ready basename dirname world args = true ->
  exists logs fs,
    trace (fst (Program args initial))
    = checks_and_open basename dirname args ++ logs ++ flat_map logged fs
    /\ Forall report logs.
Proof.
  unfold checks_pass. intros H Hdir. apply andb_true_iff in H.
  destruct H as [Hout Hin]. apply negb_true_iff in Hout.
  rewrite (main_loads float_of_str strptime strptime_date basename dirname
             world args Hout Hin Hdir).
  unfold bind at 1. unfold lift at 1.
  destruct (json_load world (Args.input args)) as [tl|e].
  2: { exists [], []. cbn. rewrite app_nil_r. auto. }
  unfold bind at 1. unfold lift at 1, getitem.
  destruct (Json.semanticSegments tl) as [segs|].
  2: { exists [], []. cbn. rewrite app_nil_r. auto. }
  unfold bind at 1. unfold emit at 1. cbn [trace output_number].
  set (st1 := mkState 0 (checks_and_open basename dirname args
                         ++ [ELog INFO (FoundSegments (length segs))])).
  unfold bind.
  destruct (flatten_trace segs [] st1) as (logs & Hn & Ht & Hl).
  destruct (flatten float_of_str strptime segs [] st1) as [st2 [pts|e]];
    cbn [fst] in *.
  - destruct (sequencer_run_from world strptime_date args pts st2)
      as (j & start & cs & r & _ & _ & E).
    rewrite E. cbn [fst]. rewrite trace_emitted, Ht.
    exists (ELog INFO (FoundSegments (length segs)) :: logs).
    eexists. unfold st1. cbn [trace]. rewrite <- !app_assoc.
    split; [reflexivity|]. constructor; [exact I | exact Hl].
  - exists (ELog INFO (FoundSegments (length segs)) :: logs), [].
    rewrite Ht. unfold st1. cbn [trace flat_map].
    rewrite <- !app_assoc, app_nil_r.
    split; [reflexivity|]. constructor; [exact I | exact Hl].
Qed.

Lemma checks_and_open_reading args :
  Forall reading (checks_and_open basename dirname args).
Proof.
  unfold checks_and_open.
  destruct (negb (str_eqb (basename (Args.output args)) (Args.output args)));
    repeat constructor.
Qed.

(** X24: in every run all writing comes after all reading: the trace is
    some events that write nothing, then, for each file in turn, its write
    and its log line. *)
Theorem writes_follow_reading args :
  exists pre,
    Forall reading pre /\
    trace (fst (Program args initial))
    = pre ++ flat_map logged (files (trace (fst (Program args initial)))).
Proof.
  destruct (checks_pass world args) eqn:Hc.
  - destruct (directory_ready basename dirname world args) eqn:Hdir.
    + destruct (main_after_checks args Hc Hdir) as (logs & fs & E & Hl).
      assert (Hpre : Forall reading
                       (checks_and_open basename dirname args ++ logs)).
      { apply Forall_app. split; [apply checks_and_open_reading|].
        apply report_reading, Hl. }
      exists (checks_and_open basename dirname args ++ logs).
      split; [exact Hpre|].
      rewrite E, app_assoc, files_app, (reading_no_files Hpre),
        files_logged.
      reflexivity.
    + destruct (main_stops_at_makedirs args Hc Hdir) as (e & ->).
      exists [EExists (Args.output args); EExists (Args.input args)].
      split; [repeat constructor | reflexivity].
  - rewrite (main_stops_at_checks args Hc). cbn [fst trace].
    assert (Hpre : Forall reading
                     (EExists (Args.output args)
                      :: (if path_exists world (Args.output args)
                          then [ELog ERROR (OutputExists (Args.output args))]
                          else [EExists (Args.input args);
                                ELog ERROR
                                  (InputMissing (Args.input args))])))
      by (destruct (path_exists world (Args.output args));
          repeat constructor).
    eexists. split; [exact Hpre|].
    rewrite (reading_no_files Hpre). cbn [flat_map].
    symmetry. apply app_nil_r.
Qed.


End Traces.
